(** * DevDocs scraper: a shallow embedding of [src/lib/devdocs-scraper.ts]

    The development follows the source file:
    - [Js]       the JavaScript string and array primitives the scraper calls;
    - [Dom]      the parsed page and the selectors the scraper uses;
    - [Extract]  the pure part of [scrapePage], with [extractKeywords] and
                 [htmlToMarkdown];
    - the job record and the two tables, the effects of a run (requests,
      store operations that may throw, the clock, the log), and the methods
      [getDocEntries], [scrapePage], [updateJob], [saveContent] and
      [scrapeDoc];
    - the definitions used to state the properties, then the properties.

    JavaScript strings are modelled as [string]: a sequence of code units
    below 256.  JavaScript numbers that count things are [nat] or [Z]; the
    progress percentage, a quotient of two counts, is kept exact in [Q]
    (in the source it is a double).  The calls that [Promise.all] runs
    concurrently share nothing but the network; the model issues their
    requests in the order in which [map] starts them. *)

From Stdlib Require Import String Ascii List ZArith QArith Lia.
From stdpp Require Import base option list strings gmap.

Local Open Scope string_scope.
Local Open Scope list_scope.

(* ===================================================================== *)
(** ** JavaScript primitives *)
(* ===================================================================== *)

Module Js.

Definition code (c : ascii) : N := N_of_ascii c.

Definition between (lo hi : N) (c : ascii) : bool :=
  ((lo <=? code c)%N && (code c <=? hi)%N)%bool.

(** [\s] of a regular expression and the characters [trim] removes,
    restricted to code units below 256: TAB, LF, VT, FF, CR, space and
    the no-break space. *)
Definition is_space (c : ascii) : bool :=
  (between 9 13 c || (code c =? 32)%N || (code c =? 160)%N)%bool.

(** [\w] is [A-Za-z0-9_]; [\W] is its complement. *)
Definition is_word (c : ascii) : bool :=
  (between 48 57 c || between 65 90 c || between 97 122 c
   || (code c =? 95)%N)%bool.

Definition is_nonword (c : ascii) : bool := negb (is_word c).

Definition is_digit (c : ascii) : bool := between 48 57 c.

(** [String.prototype.toLowerCase] on code units below 256. *)
Definition lower_char (c : ascii) : ascii :=
  if (between 65 90 c
      || (between 192 222 c && negb (code c =? 215)%N))%bool
  then ascii_of_N (code c + 32)
  else c.

Fixpoint toLowerCase (s : string) : string :=
  match s with
  | EmptyString => EmptyString
  | String c s' => String (lower_char c) (toLowerCase s')
  end.

Fixpoint trimStart (s : string) : string :=
  match s with
  | String c s' => if is_space c then trimStart s' else s
  | EmptyString => EmptyString
  end.

(** The part of [s] that is left once trailing white space is dropped. *)
Fixpoint trimEnd (s : string) : string :=
  match s with
  | EmptyString => EmptyString
  | String c s' =>
      match trimEnd s' with
      | EmptyString => if is_space c then EmptyString else String c EmptyString
      | t => String c t
      end
  end.

Definition trim (s : string) : string := trimEnd (trimStart s).

(** [s.split(/X+/)] where [X] is a character class [sep]: the pieces
    between maximal runs of separators.  A leading or trailing run
    leaves an empty piece, and the empty string splits to [[""]]. *)
Fixpoint split_run (sep : ascii -> bool) (s : string)
         (cur : string) (in_run : bool) : list string :=
  match s with
  | EmptyString => [String.rev cur]
  | String c s' =>
      if sep c
      then (if in_run then split_run sep s' EmptyString true
            else String.rev cur :: split_run sep s' EmptyString true)
      else split_run sep s' (String c cur) false
  end.

Definition split_re_plus (sep : ascii -> bool) (s : string) : list string :=
  split_run sep s EmptyString false.

(** [s.split(c)] for a one-character string separator: every occurrence
    separates, so adjacent separators leave empty pieces. *)
Fixpoint split_on (sep : ascii) (s : string) (cur : string) : list string :=
  match s with
  | EmptyString => [String.rev cur]
  | String c s' =>
      if Ascii.eqb c sep
      then String.rev cur :: split_on sep s' EmptyString
      else split_on sep s' (String c cur)
  end.

Definition split_char (sep : ascii) (s : string) : list string :=
  split_on sep s EmptyString.

(** [Boolean(s)] for a string. *)
Definition truthy (s : string) : bool :=
  match s with EmptyString => false | _ => true end.

(** [s.replace(pat, "")] for a string pattern: the first occurrence
    only. *)
Fixpoint drop_prefix (pat s : string) : option string :=
  match pat, s with
  | EmptyString, _ => Some s
  | String p pat', String c s' =>
      if Ascii.eqb p c then drop_prefix pat' s' else None
  | String _ _, EmptyString => None
  end.

Fixpoint remove_first (pat s : string) : string :=
  match drop_prefix pat s with
  | Some rest => rest
  | None =>
      match s with
      | EmptyString => EmptyString
      | String c s' => String c (remove_first pat s')
      end
  end.

(** ["#".repeat(n)] *)
Fixpoint repeat_string (s : string) (n : nat) : string :=
  match n with
  | O => EmptyString
  | S n' => s +:+ repeat_string s n'
  end.

(** [Array.prototype.slice(start, end)] with JavaScript's clamping of
    negative and out-of-range bounds. *)
Definition clamp_index (len i : Z) : Z :=
  if (i <? 0)%Z then Z.max (len + i) 0 else Z.min i len.

Definition slice {A} (l : list A) (from to : Z) : list A :=
  let len := Z.of_nat (length l) in
  let a := clamp_index len from in
  let b := clamp_index len to in
  take (Z.to_nat (b - a)) (drop (Z.to_nat a) l).

(** Decimal value of a string of digits. *)
Fixpoint digits_value (s : string) (acc : N) : option N :=
  match s with
  | EmptyString => Some acc
  | String c s' =>
      if is_digit c then digits_value s' (acc * 10 + (code c - 48))%N
      else None
  end.

(** An object key is an array index when it is the canonical decimal
    form of an integer below [2^32 - 1]; such keys are enumerated first,
    in ascending numeric order. *)
Definition array_index (s : string) : option N :=
  match s with
  | EmptyString => None
  | String c s' =>
      if ((code c =? 48)%N && truthy s')%bool then None
      else match digits_value s 0%N with
           | Some n => if (n <? 4294967295)%N then Some n else None
           | None => None
           end
  end.

End Js.

(* ===================================================================== *)
(** ** The parsed page *)
(* ===================================================================== *)

(** What [cheerio.load] returns: a forest of text, comment and element
    nodes.  Element names are the lower-case tag names the HTML parser
    produces. *)
#[local] Set Warnings "-register-all".

Inductive node : Type :=
| Text (data : string)
| Comment (data : string)
| Element (tagName : string) (attribs : list (string * string))
          (children : list node).

Module Dom.

(** Text of a node and of everything below it ([.text()] on one
    element). *)
Fixpoint textContent (n : node) : string :=
  match n with
  | Text d => d
  | Comment _ => EmptyString
  | Element _ _ kids =>
      (fix go (l : list node) : string :=
         match l with
         | [] => EmptyString
         | k :: l' => textContent k +:+ go l'
         end) kids
  end.

(** [$(el).attr(key)] *)
Fixpoint attr (key : string) (attribs : list (string * string))
  : option string :=
  match attribs with
  | [] => None
  | (k, v) :: rest => if String.eqb k key then Some v else attr key rest
  end.

Definition attr_of (key : string) (n : node) : option string :=
  match n with
  | Element _ attribs _ => attr key attribs
  | _ => None
  end.

Fixpoint mem_string (x : string) (l : list string) : bool :=
  match l with
  | [] => false
  | y :: l' => (String.eqb x y || mem_string x l')%bool
  end.

(** The class selector [.c]: [c] is one of the white-space separated
    words of the [class] attribute. *)
Definition has_class (c : string) (n : node) : bool :=
  match attr_of "class" n with
  | Some v => mem_string c (Js.split_re_plus Js.is_space v)
  | None => false
  end.

Definition is_tag (t : string) (n : node) : bool :=
  match n with
  | Element name _ _ => String.eqb name t
  | _ => false
  end.

Definition is_heading (n : node) : bool :=
  (is_tag "h1" n || is_tag "h2" n || is_tag "h3" n
   || is_tag "h4" n || is_tag "h5" n || is_tag "h6" n)%bool.

(** A selector [s1 s2 ... sn] built with the descendant combinator: the
    elements, in document order and each once, that satisfy [sn] below
    an element that satisfies [s(n-1)], and so on up to [s1]. *)
Fixpoint select_in (chain : list (node -> bool)) (n : node) : list node :=
  match n with
  | Element _ _ kids =>
      match chain with
      | [] => []
      | [p] =>
          (if p n then [n] else [])
            ++ (fix go (l : list node) : list node :=
                  match l with
                  | [] => []
                  | k :: l' => select_in [p] k ++ go l'
                  end) kids
      | p :: rest =>
          let below := if p n then rest else chain in
          (fix go (l : list node) : list node :=
             match l with
             | [] => []
             | k :: l' => select_in below k ++ go l'
             end) kids
      end
  | _ => []
  end.

Definition select (chain : list (node -> bool)) (doc : list node)
  : list node :=
  flat_map (select_in chain) doc.

(** [.text()] of a selection: the texts of its elements, concatenated. *)
Definition text (sel : list node) : string :=
  fold_right (fun n acc => textContent n +:+ acc) EmptyString sel.

(** [parseInt(el.tagName[1])] for one of [h1] ... [h6]. *)
Definition heading_level (n : node) : nat :=
  match n with
  | Element (String _ (String d _)) _ _ => N.to_nat (Js.code d - 48)
  | _ => 0
  end.

End Dom.

(* ===================================================================== *)
(** ** types.ts *)
(* ===================================================================== *)

Record CodeSnippet := mkCodeSnippet {
  language : string;
  code : string
}.

Record DevDocsEntry := mkEntry {
  entry_name : string;
  entry_path : string;
  entry_type : string
}.

Record ScrapeResult := mkScrapeResult {
  success : bool;
  url : string;
  title : string;
  content : string;
  markdown : option string;
  codeSnippets : list CodeSnippet;
  wordCount : nat;
  characterCount : nat;
  keywords : list string;
  topics : list string;
  error : option string
}.

Record ScraperConfig := mkConfig {
  concurrency : Z;
  delayMs : Z;
  timeoutMs : Z;
  maxRetries : Z;
  rateLimitPerMinute : Z;
  rateLimitPerHour : Z
}.

(** [x || d] on numbers: [0] is the falsy one. *)
Definition or_default (x : option Z) (d : Z) : Z :=
  match x with
  | Some v => if (v =? 0)%Z then d else v
  | None => d
  end.

(** The constructor of [DevDocsScraper]; the arguments are the fields of
    the partial configuration in the order of [ScraperConfig]. *)
Definition new_config (c d t m rm rh : option Z) : ScraperConfig :=
  {| concurrency := or_default c 3;
     delayMs := or_default d 1000;
     timeoutMs := or_default t 30000;
     maxRetries := or_default m 3;
     rateLimitPerMinute := or_default rm 60;
     rateLimitPerHour := or_default rh 1000 |}.

Definition DEVDOCS_BASE : string := "https://devdocs.io".

Definition nl : string := String (ascii_of_nat 10) EmptyString.

(* ===================================================================== *)
(** ** The pure part of scrapePage *)
(* ===================================================================== *)

Module Extract.

(** *** extractKeywords *)

(** [frequency[word] = (frequency[word] || 0) + 1] on a table kept in
    insertion order.  (The words [constructor] and [__proto__], which an
    object literal inherits, are counted like any other word.) *)
Fixpoint bump (word : string) (freq : list (string * nat))
  : list (string * nat) :=
  match freq with
  | [] => [(word, 1)]
  | (w, c) :: rest =>
      if String.eqb w word then (w, S c) :: rest
      else (w, c) :: bump word rest
  end.

Definition count_words (words : list string) : list (string * nat) :=
  fold_left (fun freq w => bump w freq) words [].

(** Insertion of one entry in a list ordered by a key, before the first
    entry that the test [before] lets it pass.  *)
Fixpoint insert_by {A} (before : A -> A -> bool) (x : A) (l : list A)
  : list A :=
  match l with
  | [] => [x]
  | y :: l' => if before x y then x :: l else y :: insert_by before x l'
  end.

(** A stable sort: entries that compare equal keep their order. *)
Definition stable_sort {A} (before : A -> A -> bool) (l : list A)
  : list A :=
  fold_right (insert_by before) [] l.

(** [Object.entries]: array-index keys first, ascending, then the other
    keys in insertion order. *)
Definition index_entries (freq : list (string * nat))
  : list (N * (string * nat)) :=
  omap (fun e => match Js.array_index (fst e) with
                 | Some n => Some (n, e)
                 | None => None
                 end) freq.

Definition entries (freq : list (string * nat)) : list (string * nat) :=
  map snd (stable_sort (fun a b => (fst a <=? fst b)%N) (index_entries freq))
    ++ filter (fun e => Js.array_index (fst e) = None) freq.

(** [.sort((a, b) => b[1] - a[1])]: descending count, stable. *)
Definition by_count_desc (l : list (string * nat)) : list (string * nat) :=
  stable_sort (fun a b => (snd b <=? snd a)%nat) l.

Definition extractKeywords (content : string) : list string :=
  let words :=
    List.filter (fun w => (3 <? String.length w)%nat)
                (Js.split_re_plus Js.is_nonword (Js.toLowerCase content)) in
  map fst (take 10 (by_count_desc (entries (count_words words)))).

(** *** The selections of scrapePage and htmlToMarkdown *)

Definition in_content : node -> bool := Dom.has_class "_content".

(** [$(elem).attr('class')?.replace('language-', '') || dflt] *)
Definition language_of (dflt : string) (n : node) : string :=
  match Dom.attr_of "class" n with
  | Some c =>
      let l := Js.remove_first "language-" c in
      if Js.truthy l then l else dflt
  | None => dflt
  end.

Definition snippets_of (doc : list node) : list CodeSnippet :=
  omap (fun elem =>
          let c := Js.trim (Dom.textContent elem) in
          if Js.truthy c
          then Some {| language := language_of "plaintext" elem; code := c |}
          else None)
       (Dom.select [in_content; Dom.is_tag "pre"; Dom.is_tag "code"] doc).

Definition htmlToMarkdown (doc : list node) : string :=
  let headings :=
    fold_left (fun md el =>
                 md +:+ Js.repeat_string "#" (Dom.heading_level el) +:+ " "
                    +:+ Js.trim (Dom.textContent el) +:+ nl +:+ nl)
              (Dom.select [in_content; Dom.is_heading] doc) EmptyString in
  let paragraphs :=
    fold_left (fun md el => md +:+ Js.trim (Dom.textContent el) +:+ nl +:+ nl)
              (Dom.select [in_content; Dom.is_tag "p"] doc) headings in
  let blocks :=
    fold_left (fun md el =>
                 md +:+ "```" +:+ language_of EmptyString el +:+ nl
                    +:+ Js.trim (Dom.textContent el) +:+ nl
                    +:+ "```" +:+ nl +:+ nl)
              (Dom.select [in_content; Dom.is_tag "pre"; Dom.is_tag "code"] doc)
              paragraphs in
  Js.trim blocks.

Definition page_url (docSlug : string) (entry : DevDocsEntry) : string :=
  DEVDOCS_BASE +:+ "/" +:+ docSlug +:+ "/" +:+ entry_path entry.

(** Lines 93-130 of [scrapePage]: from the parsed response to the
    result.  [doc] is [cheerio.load(html)]. *)
Definition extract (doc : list node) (docSlug : string)
           (entry : DevDocsEntry) : ScrapeResult :=
  let text := Js.trim (Dom.text (Dom.select [in_content] doc)) in
  {| success := true;
     url := page_url docSlug entry;
     title := entry_name entry;
     content := text;
     markdown := Some (htmlToMarkdown doc);
     codeSnippets := snippets_of doc;
     wordCount :=
       length (List.filter Js.truthy (Js.split_re_plus Js.is_space text));
     characterCount := String.length text;
     keywords := extractKeywords text;
     topics :=
       docSlug :: entry_type entry
         :: take 2 (Js.split_char "/" (entry_name entry));
     error := None |}.

(** The [catch] branch of [scrapePage]. *)
Definition failure (docSlug : string) (entry : DevDocsEntry)
           (message : string) : ScrapeResult :=
  {| success := false;
     url := page_url docSlug entry;
     title := entry_name entry;
     content := EmptyString;
     markdown := None;
     codeSnippets := [];
     wordCount := 0;
     characterCount := 0;
     keywords := [];
     topics := [];
     error := Some message |}.

End Extract.

(* ===================================================================== *)
(** ** The two tables and the job record *)
(* ===================================================================== *)

Inductive JobStatus : Type :=
| Pending | Running | Completed | Failed | Cancelled | Paused.

(** The columns of [ScrapingJob] that the crawl reads or that the claims
    mention.  [progress_percentage] is the exact quotient. *)
Record ScrapingJob := mkJob {
  status : JobStatus;
  total_urls : nat;
  urls_processed : nat;
  urls_failed : nat;
  progress_percentage : Q;
  items_scraped : nat;
  items_new : nat;
  items_updated : nat;
  items_unchanged : nat;
  error_message : option string;
  started_at : option string;
  completed_at : option string
}.

(** One key of the [updates] object handed to [updateJob]. *)
Inductive JobField : Type :=
| set_total_urls (n : nat)
| set_status (s : JobStatus)
| set_started_at (t : string)
| set_completed_at (t : string)
| set_urls_processed (n : nat)
| set_urls_failed (n : nat)
| set_progress_percentage (q : Q)
| set_items_scraped (n : nat)
| set_error_message (m : string).

Definition apply_field (j : ScrapingJob) (f : JobField) : ScrapingJob :=
  match f with
  | set_total_urls n =>
      mkJob (status j) n (urls_processed j) (urls_failed j)
            (progress_percentage j) (items_scraped j) (items_new j)
            (items_updated j) (items_unchanged j) (error_message j)
            (started_at j) (completed_at j)
  | set_status s =>
      mkJob s (total_urls j) (urls_processed j) (urls_failed j)
            (progress_percentage j) (items_scraped j) (items_new j)
            (items_updated j) (items_unchanged j) (error_message j)
            (started_at j) (completed_at j)
  | set_started_at t =>
      mkJob (status j) (total_urls j) (urls_processed j) (urls_failed j)
            (progress_percentage j) (items_scraped j) (items_new j)
            (items_updated j) (items_unchanged j) (error_message j)
            (Some t) (completed_at j)
  | set_completed_at t =>
      mkJob (status j) (total_urls j) (urls_processed j) (urls_failed j)
            (progress_percentage j) (items_scraped j) (items_new j)
            (items_updated j) (items_unchanged j) (error_message j)
            (started_at j) (Some t)
  | set_urls_processed n =>
      mkJob (status j) (total_urls j) n (urls_failed j)
            (progress_percentage j) (items_scraped j) (items_new j)
            (items_updated j) (items_unchanged j) (error_message j)
            (started_at j) (completed_at j)
  | set_urls_failed n =>
      mkJob (status j) (total_urls j) (urls_processed j) n
            (progress_percentage j) (items_scraped j) (items_new j)
            (items_updated j) (items_unchanged j) (error_message j)
            (started_at j) (completed_at j)
  | set_progress_percentage q =>
      mkJob (status j) (total_urls j) (urls_processed j) (urls_failed j)
            q (items_scraped j) (items_new j)
            (items_updated j) (items_unchanged j) (error_message j)
            (started_at j) (completed_at j)
  | set_items_scraped n =>
      mkJob (status j) (total_urls j) (urls_processed j) (urls_failed j)
            (progress_percentage j) n (items_new j)
            (items_updated j) (items_unchanged j) (error_message j)
            (started_at j) (completed_at j)
  | set_error_message m =>
      mkJob (status j) (total_urls j) (urls_processed j) (urls_failed j)
            (progress_percentage j) (items_scraped j) (items_new j)
            (items_updated j) (items_unchanged j) (Some m)
            (started_at j) (completed_at j)
  end.

(** [.update(updates)] is a partial merge: the listed columns change, the
    others stay. *)
Definition merge (updates : list JobField) (j : ScrapingJob) : ScrapingJob :=
  fold_left apply_field updates j.

(** The [contentData] object of [saveContent], which is also the part of
    a [knowledge_content] row the crawl writes.  A row written by another
    producer may carry no [content_hash]. *)
Record ContentRow := mkRow {
  row_source_id : string;
  row_url : string;
  row_title : string;
  row_content_type : string;
  row_content : string;
  row_markdown : option string;
  row_code_snippets : list CodeSnippet;
  row_word_count : nat;
  row_character_count : nat;
  row_keywords : list string;
  row_topics : list string;
  row_content_hash : option string;
  row_processed : bool
}.

(** What [scrapeDoc] resolves to. *)
Module Summary.
Record t := make { success : nat; failed : nat; total : nat }.
End Summary.

(* ===================================================================== *)
(** ** Effects *)
(* ===================================================================== *)

(** A thrown value: an [Error] with its message, or anything else. *)
Inductive Thrown : Type :=
| JsError (message : string)
| NotAnError.

(** [error instanceof Error ? error.message : 'Unknown error'] *)
Definition message_of (t : Thrown) : string :=
  match t with
  | JsError m => m
  | NotAnError => "Unknown error"
  end.

Inductive Fetch (A : Type) : Type :=
| Fetched (data : A)
| Rejected (t : Thrown).
Arguments Fetched {A} data.
Arguments Rejected {A} t.

(** Everything the run does that the outside can see, in order. *)
Inductive Event : Type :=
| EvGet (request : nat) (target : string) (timeout : Z) (ok : bool)
| EvPromiseAll (batch : list DevDocsEntry)
| EvSelectSource (thrown : bool)
| EvSelectContent (target : string) (thrown : bool)
| EvInsert (row : ContentRow) (thrown : bool)
| EvUpdate (row : ContentRow) (thrown : bool)
| EvJob (jobId : string) (updates : list JobField) (thrown : bool)
        (after : option ScrapingJob)
| EvDelay (ms : Z)
| EvProgress (processed total : nat)
| EvConsoleError (what : string).

(** The outside of the scraper during one run.  Requests and store
    operations are numbered in the order the run issues them, so the same
    address may answer differently at different times, and any store
    operation may throw. *)
Record Env := mkEnv {
  index_json : nat -> string -> Fetch (list DevDocsEntry);
  page_html : nat -> string -> Fetch string;
  store_fault : nat -> option Thrown;
  clock : nat -> string
}.

(** The state a run threads: the two tables, the row of
    [knowledge_sources] whose url is [DEVDOCS_BASE] (its id, when exactly
    one such row exists), the scraper's cached [sourceId], the counters
    that number requests, store operations and clock readings, and the
    log.  [knowledge_content] is keyed by [url], which the table keeps
    unique ([scrape.js] upserts with [onConflict: 'url']). *)
Record World := mkWorld {
  jobs : gmap string ScrapingJob;
  knowledge_content : gmap string ContentRow;
  knowledge_source : option string;
  sourceId : option string;
  requests : nat;
  store_ops : nat;
  clock_reads : nat;
  log : list Event
}.

Definition with_jobs (f : gmap string ScrapingJob -> gmap string ScrapingJob)
           (w : World) : World :=
  mkWorld (f (jobs w)) (knowledge_content w) (knowledge_source w) (sourceId w)
          (requests w) (store_ops w) (clock_reads w) (log w).

Definition with_content (f : gmap string ContentRow -> gmap string ContentRow)
           (w : World) : World :=
  mkWorld (jobs w) (f (knowledge_content w)) (knowledge_source w) (sourceId w)
          (requests w) (store_ops w) (clock_reads w) (log w).

Definition with_sourceId (s : option string) (w : World) : World :=
  mkWorld (jobs w) (knowledge_content w) (knowledge_source w) s
          (requests w) (store_ops w) (clock_reads w) (log w).

Definition next_request (w : World) : World :=
  mkWorld (jobs w) (knowledge_content w) (knowledge_source w) (sourceId w)
          (S (requests w)) (store_ops w) (clock_reads w) (log w).

Definition next_store_op (w : World) : World :=
  mkWorld (jobs w) (knowledge_content w) (knowledge_source w) (sourceId w)
          (requests w) (S (store_ops w)) (clock_reads w) (log w).

Definition next_clock_read (w : World) : World :=
  mkWorld (jobs w) (knowledge_content w) (knowledge_source w) (sourceId w)
          (requests w) (store_ops w) (S (clock_reads w)) (log w).

Definition record (e : Event) (w : World) : World :=
  mkWorld (jobs w) (knowledge_content w) (knowledge_source w) (sourceId w)
          (requests w) (store_ops w) (clock_reads w) (log w ++ [e]).

(** How a call ends: it returns, it throws, or the model ran out of loop
    fuel (the call has not ended). *)
Inductive Outcome (A : Type) : Type :=
| Return (a : A)
| Throw (t : Thrown)
| OutOfFuel.
Arguments Return {A} a.
Arguments Throw {A} t.
Arguments OutOfFuel {A}.

Definition M (A : Type) : Type := Env -> World -> Outcome A * World.

Definition ret {A} (a : A) : M A := fun _ w => (Return a, w).

Definition throw {A} (t : Thrown) : M A := fun _ w => (Throw t, w).

Definition bind {A B} (m : M A) (k : A -> M B) : M B :=
  fun env w =>
    match m env w with
    | (Return a, w') => k a env w'
    | (Throw t, w') => (Throw t, w')
    | (OutOfFuel, w') => (OutOfFuel, w')
    end.

(** [try { m } catch (e) { h e }] *)
Definition try_catch {A} (m : M A) (h : Thrown -> M A) : M A :=
  fun env w =>
    match m env w with
    | (Throw t, w') => h t env w'
    | r => r
    end.

Declare Scope scraper_scope.
Delimit Scope scraper_scope with scraper.
Notation "x <- m ;; k" := (bind m (fun x => k))
  (at level 100, m at next level, right associativity) : scraper_scope.
Notation "m ;;; k" := (bind m (fun _ => k))
  (at level 100, right associativity) : scraper_scope.
Local Open Scope scraper_scope.

Definition emit (e : Event) : M unit := fun _ w => (Return tt, record e w).

Definition get_world : M World := fun _ w => (Return w, w).

(** [new Date().toISOString()] *)
Definition now : M string :=
  fun env w => (Return (clock env (clock_reads w)), next_clock_read w).

(** [axios.get(url, { timeout })]: the request is numbered, answered by
    the environment and logged; a failed request throws. *)
Definition axios_get {A} (answer : Env -> nat -> string -> Fetch A)
           (target : string) (timeout : Z) : M A :=
  fun env w =>
    let n := requests w in
    match answer env n target with
    | Fetched data =>
        (Return data, record (EvGet n target timeout true) (next_request w))
    | Rejected t =>
        (Throw t, record (EvGet n target timeout false) (next_request w))
    end.

(** One awaited store operation: it is numbered; if the environment makes
    it throw nothing is read or written, otherwise [effect] runs.  [ev]
    builds the log entry from the thrown flag. *)
Definition store_call {A} (ev : bool -> World -> Event)
           (effect : World -> A * World) : M A :=
  fun env w =>
    let n := store_ops w in
    let w1 := next_store_op w in
    match store_fault env n with
    | Some t => (Throw t, record (ev true w1) w1)
    | None =>
        let (a, w2) := effect w1 in (Return a, record (ev false w2) w2)
    end.

Fixpoint mapM {A B} (f : A -> M B) (l : list A) : M (list B) :=
  match l with
  | [] => ret []
  | x :: l' => y <- f x ;; ys <- mapM f l' ;; ret (y :: ys)
  end.

(* ===================================================================== *)
(** ** class DevDocsScraper *)
(* ===================================================================== *)

Section Scraper.

(** The two library functions the scraper calls on page data: the HTML
    parser behind [cheerio.load], which accepts any string, and
    [crypto.createHash('sha256').update(s).digest('hex')]. *)
Variable cheerio_load : string -> list node.
Variable sha256_hex : string -> string.

Variable config : ScraperConfig.

(** *** getDocEntries *)
Definition getDocEntries (docSlug : string) : M (list DevDocsEntry) :=
  let indexUrl := DEVDOCS_BASE +:+ "/docs/" +:+ docSlug +:+ "/index.json" in
  try_catch
    (axios_get index_json indexUrl (timeoutMs config))
    (fun error =>
       emit (EvConsoleError ("Error fetching entries for " +:+ docSlug)) ;;;
       throw error).

(** *** scrapePage *)
Definition scrapePage (docSlug : string) (entry : DevDocsEntry)
  : M ScrapeResult :=
  let url := Extract.page_url docSlug entry in
  try_catch
    (html <- axios_get page_html url (timeoutMs config) ;;
     ret (Extract.extract (cheerio_load html) docSlug entry))
    (fun error => ret (Extract.failure docSlug entry (message_of error))).

(** *** updateJob *)
Definition updateJob (jobId : string) (updates : list JobField) : M unit :=
  try_catch
    (store_call
       (fun thrown w => EvJob jobId updates thrown (jobs w !! jobId))
       (fun w => (tt, with_jobs (alter (merge updates) jobId) w)))
    (fun _ => emit (EvConsoleError "Error updating job")).

(** *** delay *)
Definition delay (ms : Z) : M unit := emit (EvDelay ms).

(** *** saveContent *)

(** [!this.sourceId]: [null] and the empty string are falsy. *)
Definition no_source (s : option string) : bool :=
  match s with
  | Some id => negb (Js.truthy id)
  | None => true
  end.

(** [source?.id || null] *)
Definition id_or_null (source : option string) : option string :=
  match source with
  | Some id => if Js.truthy id then Some id else None
  | None => None
  end.

Definition contentData (source_id : string) (result : ScrapeResult)
  : ContentRow :=
  {| row_source_id := source_id;
     row_url := url result;
     row_title := title result;
     row_content_type := "documentation_page";
     row_content := content result;
     row_markdown := markdown result;
     row_code_snippets := codeSnippets result;
     row_word_count := wordCount result;
     row_character_count := characterCount result;
     row_keywords := keywords result;
     row_topics := topics result;
     row_content_hash := Some (sha256_hex (content result));
     row_processed := false |}.

(** [existing && existing.content_hash === contentHash] *)
Definition same_hash (existing : option ContentRow) (contentHash : string)
  : bool :=
  match existing with
  | Some row =>
      match row_content_hash row with
      | Some h => String.eqb h contentHash
      | None => false
      end
  | None => false
  end.

Definition saveContent (result : ScrapeResult) (docSlug : string) : M unit :=
  try_catch
    (w <- get_world ;;
     (if no_source (sourceId w)
      then source <- store_call (fun thrown _ => EvSelectSource thrown)
                                (fun w => (knowledge_source w, w)) ;;
           (fun _ w => (Return tt, with_sourceId (id_or_null source) w))
      else ret tt) ;;;
     w <- get_world ;;
     match sourceId w with
     | None => emit (EvConsoleError "No source ID found for DevDocs")
     | Some source_id =>
         if no_source (Some source_id)
         then emit (EvConsoleError "No source ID found for DevDocs")
         else
           let contentHash := sha256_hex (content result) in
           existing <- store_call
                         (fun thrown _ => EvSelectContent (url result) thrown)
                         (fun w => (knowledge_content w !! url result, w)) ;;
           if same_hash existing contentHash
           then ret tt
           else
             let row := contentData source_id result in
             match existing with
             | Some _ =>
                 store_call (fun thrown _ => EvUpdate row thrown)
                            (fun w => (tt, with_content (<[url result := row]>) w))
             | None =>
                 store_call (fun thrown _ => EvInsert row thrown)
                            (fun w => (tt, with_content (<[url result := row]>) w))
             end
     end)
    (fun _ => emit (EvConsoleError "Error saving content")).

(** *** scrapeDoc *)

(** [(processed / total) * 100] *)
Definition percentage (processed total : nat) : Q :=
  (inject_Z (Z.of_nat processed) / inject_Z (Z.of_nat total) * 100)%Q.

(** The body of [for (const result of results)], folded over the
    results of one batch; the pair is [(successCount, failedCount)]. *)
Fixpoint saveResults (docSlug jobId : string) (onProgress : bool)
         (total : nat) (results : list ScrapeResult) (counts : nat * nat)
  : M (nat * nat) :=
  match results with
  | [] => ret counts
  | result :: rest =>
      counts' <-
        (if success result
         then saveContent result docSlug ;;; ret (S (fst counts), snd counts)
         else ret (fst counts, S (snd counts))) ;;
      let processed := (fst counts' + snd counts')%nat in
      let progress := percentage processed total in
      updateJob jobId [set_urls_processed processed;
                       set_urls_failed (snd counts');
                       set_progress_percentage progress;
                       set_items_scraped (fst counts')] ;;;
      (if onProgress then emit (EvProgress processed total) else ret tt) ;;;
      saveResults docSlug jobId onProgress total rest counts'
  end.

(** The [for (let i = 0; i < entries.length; i += concurrency)] loop,
    from index [i] on.  One unit of fuel pays for one iteration. *)
Fixpoint batches (fuel : nat) (docSlug jobId : string) (onProgress : bool)
         (entries : list DevDocsEntry) (i : Z) (counts : nat * nat)
  : M (nat * nat) :=
  if (i <? Z.of_nat (length entries))%Z
  then
    match fuel with
    | O => fun _ w => (OutOfFuel, w)
    | S fuel' =>
        let batch := Js.slice entries i (i + concurrency config) in
        emit (EvPromiseAll batch) ;;;
        results <- mapM (scrapePage docSlug) batch ;;
        counts' <- saveResults docSlug jobId onProgress (length entries)
                               results counts ;;
        (if (i + concurrency config <? Z.of_nat (length entries))%Z
         then delay (delayMs config) else ret tt) ;;;
        batches fuel' docSlug jobId onProgress entries
                (i + concurrency config) counts'
    end
  else ret counts.

Definition scrapeDoc (fuel : nat) (docSlug jobId : string)
           (onProgress : bool) : M Summary.t :=
  entries <- getDocEntries docSlug ;;
  let total := length entries in
  started <- now ;;
  updateJob jobId [set_total_urls total; set_status Running;
                   set_started_at started] ;;;
  counts <- batches fuel docSlug jobId onProgress entries 0 (0, 0)%nat ;;
  finished <- now ;;
  updateJob jobId [set_status Completed; set_completed_at finished] ;;;
  ret (Summary.make (fst counts) (snd counts) total).

End Scraper.

(* ===================================================================== *)
(** ** Around the crawl *)
(* ===================================================================== *)

(** Modelled from the spec: [createJob(target)] of the Job Tracker.  The
    code that creates the row of [scraping_jobs] is in the trigger layer,
    which is not part of the scraper class: the new Job is [pending], all
    its counters are zero and its total is 0. *)
Definition createJob : ScrapingJob :=
  mkJob Pending 0 0 0 0%Q 0 0 0 0 None None None.

(** The Job rows a reader of the jobs table sees during a run: one after
    every write the run issues to that table. *)
Definition snapshots (l : list Event) : list ScrapingJob :=
  omap (fun e => match e with
                 | EvJob _ _ _ (Some j) => Some j
                 | _ => None
                 end) l.

(** The batches handed to [Promise.all], in order. *)
Definition promise_all_batches (l : list Event) : list (list DevDocsEntry) :=
  omap (fun e => match e with
                 | EvPromiseAll b => Some b
                 | _ => None
                 end) l.

(** Writes to [knowledge_content] the run attempted. *)
Definition is_content_write (e : Event) : bool :=
  match e with
  | EvInsert _ _ | EvUpdate _ _ => true
  | _ => false
  end.

(* ===================================================================== *)
(** ** Definitions used to state the properties *)
(* ===================================================================== *)

(** The result [scrapePage] computes for [entry] when its request is the
    [n]-th one of the run. *)
Definition page_result (cheerio_load : string -> list node) (env : Env)
           (n : nat) (docSlug : string) (entry : DevDocsEntry)
  : ScrapeResult :=
  match page_html env n (Extract.page_url docSlug entry) with
  | Fetched html => Extract.extract (cheerio_load html) docSlug entry
  | Rejected t => Extract.failure docSlug entry (message_of t)
  end.

(** The results for consecutive entries, the first request being the
    [n]-th. *)
Fixpoint page_results (cheerio_load : string -> list node) (env : Env)
         (n : nat) (docSlug : string) (l : list DevDocsEntry)
  : list ScrapeResult :=
  match l with
  | [] => []
  | entry :: l' =>
      page_result cheerio_load env n docSlug entry
        :: page_results cheerio_load env (S n) docSlug l'
  end.

Definition succeeded (results : list ScrapeResult) : nat :=
  length (List.filter success results).

Definition failures (results : list ScrapeResult) : nat :=
  length (List.filter (fun r => negb (success r)) results).

(** The events the run added to the log between two states. *)
Definition events_since (w w' : World) : list Event :=
  drop (length (log w)) (log w').

(** Consecutive groups of [k] items, the last one possibly shorter. *)
Fixpoint chunks_upto {A} (fuel k : nat) (l : list A) : list (list A) :=
  match fuel with
  | O => []
  | S fuel' =>
      match l with
      | [] => []
      | _ => take k l :: chunks_upto fuel' k (drop k l)
      end
  end.

Definition chunks {A} (k : nat) (l : list A) : list (list A) :=
  chunks_upto (length l) k l.

(** [ceil(n / k)] *)
Definition ceil_div (n k : nat) : nat := ((n + k - 1) / k)%nat.

(** Nested induction over pages. *)
Definition node_nested_ind (P : node -> Prop)
           (HText : forall d, P (Text d))
           (HComment : forall d, P (Comment d))
           (HElement : forall t a kids, Forall P kids -> P (Element t a kids))
  : forall n, P n :=
  fix rec (n : node) : P n :=
    match n with
    | Text d => HText d
    | Comment d => HComment d
    | Element t a kids =>
        HElement t a kids
          ((fix all (l : list node) : Forall P l :=
              match l with
              | [] => @List.Forall_nil _ P
              | k :: l' => @List.Forall_cons _ P k l' (rec k) (all l')
              end) kids)
    end.

Definition answered {A} (f : Fetch A) : bool :=
  match f with
  | Fetched _ => true
  | Rejected _ => false
  end.

(** The log entries of the page requests for consecutive entries. *)
Fixpoint page_requests (env : Env) (timeout : Z) (n : nat) (docSlug : string)
         (l : list DevDocsEntry) : list Event :=
  match l with
  | [] => []
  | entry :: l' =>
      EvGet n (Extract.page_url docSlug entry) timeout
            (answered (page_html env n (Extract.page_url docSlug entry)))
        :: page_requests env timeout (S n) docSlug l'
  end.

(** The state after [k] more requests, logged as [evs]. *)
Definition after_requests (k : nat) (evs : list Event) (w : World) : World :=
  mkWorld (jobs w) (knowledge_content w) (knowledge_source w) (sourceId w)
          (k + requests w) (store_ops w) (clock_reads w) (log w ++ evs).

(** The loop of [scrapeDoc] over batches that are already cut: what
    [batches] does once the index arithmetic is resolved. *)
Fixpoint run_chunks (cheerio_load : string -> list node)
         (sha256_hex : string -> string) (config : ScraperConfig)
         (docSlug jobId : string) (onProgress : bool) (total : nat)
         (cs : list (list DevDocsEntry)) (counts : nat * nat)
  : M (nat * nat) :=
  match cs with
  | [] => ret counts
  | batch :: cs' =>
      (emit (EvPromiseAll batch) ;;;
       results <- mapM (scrapePage cheerio_load config docSlug) batch ;;
       counts' <- saveResults sha256_hex docSlug jobId onProgress total
                              results counts ;;
       (match cs' with
        | [] => ret tt
        | _ => delay (delayMs config)
        end) ;;;
       run_chunks cheerio_load sha256_hex config docSlug jobId onProgress
                  total cs' counts')%scraper
  end.

(** The state [saveContent] and [updateJob] leave. *)
Definition saved (sha256_hex : string -> string) (result : ScrapeResult)
           (docSlug : string) (env : Env) (w : World) : World :=
  snd (saveContent sha256_hex result docSlug env w).

Definition updated (jobId : string) (updates : list JobField)
           (env : Env) (w : World) : World :=
  snd (updateJob jobId updates env w).

(** [successCount++] or [failedCount++] *)
Definition tally (result : ScrapeResult) (counts : nat * nat) : nat * nat :=
  if success result then (S (fst counts), snd counts)
  else (fst counts, S (snd counts)).

(** The [updates] object of the progress write. *)
Definition item_updates (total : nat) (counts : nat * nat) : list JobField :=
  [set_urls_processed (fst counts + snd counts);
   set_urls_failed (snd counts);
   set_progress_percentage (percentage (fst counts + snd counts) total);
   set_items_scraped (fst counts)].

(** The state after one turn of the loop over the results of a batch. *)
Definition after_item (sha256_hex : string -> string)
           (docSlug jobId : string) (onProgress : bool) (total : nat)
           (result : ScrapeResult) (counts : nat * nat)
           (env : Env) (w : World) : World :=
  let w1 := if success result then saved sha256_hex result docSlug env w
            else w in
  let w2 := updated jobId (item_updates total (tally result counts)) env w1 in
  if onProgress
  then record (EvProgress (fst (tally result counts) + snd (tally result counts))
                          total) w2
  else w2.

Fixpoint after_items (sha256_hex : string -> string)
         (docSlug jobId : string) (onProgress : bool) (total : nat)
         (results : list ScrapeResult) (counts : nat * nat)
         (env : Env) (w : World) : World :=
  match results with
  | [] => w
  | r :: rest =>
      after_items sha256_hex docSlug jobId onProgress total rest
                  (tally r counts) env
                  (after_item sha256_hex docSlug jobId onProgress total
                              r counts env w)
  end.

Definition tally_all (results : list ScrapeResult) (counts : nat * nat)
  : nat * nat :=
  fold_left (fun c r => tally r c) results counts.

(** The id [saveContent] ends up with: the cached one, or else the one it
    finds in [knowledge_sources]. *)
Definition resolved_source (w : World) : option string :=
  if no_source (sourceId w) then id_or_null (knowledge_source w)
  else sourceId w.

(** Log entries of [saveContent]. *)
Definition is_save_event (e : Event) : bool :=
  match e with
  | EvSelectSource _ | EvSelectContent _ _ | EvInsert _ _ | EvUpdate _ _
  | EvConsoleError _ => true
  | _ => false
  end.

Definition is_job_write (e : Event) : bool :=
  match e with
  | EvJob _ _ _ _ => true
  | _ => false
  end.

(** Log entries that are neither a request nor the start of a batch. *)
Definition is_work_event (e : Event) : bool :=
  match e with
  | EvGet _ _ _ _ | EvPromiseAll _ => false
  | _ => true
  end.

(** The log of [w'] continues the log of [w]. *)
Definition extends (w w' : World) : Prop :=
  exists evs, log w' = log w ++ evs.

(** The log entries of one [updateJob]. *)
Definition update_events (jobId : string) (updates : list JobField)
           (env : Env) (w : World) : list Event :=
  match store_fault env (store_ops w) with
  | None =>
      [EvJob jobId updates false
             (alter (merge updates) jobId (jobs w) !! jobId)]
  | Some _ =>
      [EvJob jobId updates true (jobs w !! jobId);
       EvConsoleError "Error updating job"]
  end.

(** One group in the log: the call of [Promise.all] on the batch, the
    requests for its pages in order, then the work on its results, with
    one write of the job row per page, and no request and no other batch
    in between. *)
Definition group_segment (docSlug : string) (batch : list DevDocsEntry)
           (seg : list Event) : Prop :=
  exists gets work,
    seg = EvPromiseAll batch :: gets ++ work
    /\ Forall2 (fun entry ev =>
                  exists n timeout ok,
                    ev = EvGet n (Extract.page_url docSlug entry) timeout ok)
               batch gets
    /\ Forall (fun e => is_work_event e = true) work
    /\ length (List.filter is_job_write work) = length batch.

Definition fault_free (env : Env) : Prop :=
  forall n, store_fault env n = None.

(** The write [saveContent] issues for a result, given the source id and
    the row found for the address. *)
Definition write_for (sha256_hex : string -> string) (source_id : string)
           (result : ScrapeResult) (existing : option ContentRow)
  : list Event :=
  if same_hash existing (sha256_hex (content result)) then []
  else match existing with
       | Some _ => [EvUpdate (contentData sha256_hex source_id result) false]
       | None => [EvInsert (contentData sha256_hex source_id result) false]
       end.

(** The counters and the state after the loop over batches that are
    already cut. *)
Fixpoint after_chunks (cheerio_load : string -> list node)
         (sha256_hex : string -> string) (config : ScraperConfig)
         (docSlug jobId : string) (onProgress : bool) (total : nat)
         (cs : list (list DevDocsEntry)) (counts : nat * nat)
         (env : Env) (w : World) : (nat * nat) * World :=
  match cs with
  | [] => (counts, w)
  | batch :: cs' =>
      let w1 := record (EvPromiseAll batch) w in
      let results := page_results cheerio_load env (requests w1) docSlug batch in
      let w2 := after_requests (length batch)
                  (page_requests env (timeoutMs config) (requests w1)
                                 docSlug batch) w1 in
      let w3 := after_items sha256_hex docSlug jobId onProgress total
                            results counts env w2 in
      let w4 := match cs' with
                | [] => w3
                | _ => record (EvDelay (delayMs config)) w3
                end in
      after_chunks cheerio_load sha256_hex config docSlug jobId onProgress
                   total cs' (tally_all results counts) env w4
  end.

Definition index_url (docSlug : string) : string :=
  DEVDOCS_BASE +:+ "/docs/" +:+ docSlug +:+ "/index.json".

Definition start_updates (total : nat) (started : string) : list JobField :=
  [set_total_urls total; set_status Running; set_started_at started].

Definition complete_updates (finished : string) : list JobField :=
  [set_status Completed; set_completed_at finished].

(** The state in which the batch loop of [scrapeDoc] starts, when the
    index request returned [entries]. *)
Definition at_loop_start (config : ScraperConfig) (docSlug jobId : string)
           (entries : list DevDocsEntry) (env : Env) (w : World) : World :=
  updated jobId
          (start_updates (length entries) (clock env (clock_reads w))) env
          (next_clock_read
             (record (EvGet (requests w) (index_url docSlug)
                            (timeoutMs config) true)
                     (next_request w))).

(** The state in which [scrapeDoc] returns, from the state in which the
    loop ended. *)
Definition at_return (jobId : string) (env : Env) (w : World) : World :=
  updated jobId (complete_updates (clock env (clock_reads w))) env
          (next_clock_read w).

(** The state after the first stage of one turn of the loop over results:
    the result is saved if it is a success. *)
Definition item_saved (sha256_hex : string -> string) (docSlug : string)
           (r : ScrapeResult) (env : Env) (w : World) : World :=
  if success r then saved sha256_hex r docSlug env w else w.

(** [100 * processed / total], and 0 while there is no total. *)
Definition percent_of (processed total : nat) : Q :=
  if (total =? 0)%nat then 0%Q
  else (100 * inject_Z (Z.of_nat processed) / inject_Z (Z.of_nat total))%Q.

(** What holds of the job row at every point of a run over [total] pages.
    [applied] tells whether the store applied the write that sets the
    total. *)
Definition job_consistent (total : nat) (applied : bool) (j : ScrapingJob)
  : Prop :=
  urls_processed j = (items_scraped j + urls_failed j)%nat
  /\ (urls_processed j <= total)%nat
  /\ (0 <= progress_percentage j <= 100)%Q
  /\ (progress_percentage j == percent_of (urls_processed j) total)%Q
  /\ total_urls j = (if applied then total else 0%nat)
  /\ items_new j = 0%nat /\ items_updated j = 0%nat
  /\ items_unchanged j = 0%nat.

(** A progress write: the one [scrapeDoc] issues after each result. *)
Definition is_progress_write (e : Event) : bool :=
  match e with
  | EvJob _ (set_urls_processed _ :: _) _ _ => true
  | _ => false
  end.

(** The requests among consecutive page requests that are rejected. *)
Fixpoint rejected_pages (env : Env) (n : nat) (docSlug : string)
         (l : list DevDocsEntry) : nat :=
  match l with
  | [] => 0
  | entry :: l' =>
      ((if answered (page_html env n (Extract.page_url docSlug entry))
        then 0 else 1)
       + rejected_pages env (S n) docSlug l')%nat
  end.

(** The job row of the run, when there is one, satisfies [I]. *)
Definition job_holds (jobId : string) (I : ScrapingJob -> Prop) (w : World)
  : Prop :=
  forall j, jobs w !! jobId = Some j -> I j.

(** The content table holds, for the address of [r], a row whose
    fingerprint is that of the body of [r]. *)
Definition stored (sha256_hex : string -> string) (w : World)
           (r : ScrapeResult) : Prop :=
  same_hash (knowledge_content w !! url r) (sha256_hex (content r)) = true.

(** The pages do not change: a request for an address is answered the
    same way whenever it is made. *)
Definition stable_pages (env : Env) : Prop :=
  forall n m target, page_html env n target = page_html env m target.

(** Every successful result of the set [D], among those of [U], is
    stored. *)
Definition all_stored (sha256_hex : string -> string)
           (U D : ScrapeResult -> Prop) (w : World) : Prop :=
  forall r, D r -> U r -> success r = true -> stored sha256_hex w r.

(* ===================================================================== *)
(** ** A small documentation set, used in the examples *)
(* ===================================================================== *)

Module Sample.

Definition hooks_html : string :=
  "<div class='_content'><h1>Hooks</h1><p>Hooks let you use state</p></div>".

Definition hooks_page : list node :=
  [Element "html" []
     [Element "body" []
        [Element "nav" [] [Text "menu"];
         Element "div" [("class", "_content")]
           [Element "h1" [] [Text "Hooks"];
            Element "p" [] [Text "Hooks let you use state"]]]]].

(** A parser that knows one page; any other text is a document with no
    content region. *)
Definition load (html : string) : list node :=
  if String.eqb html hooks_html then hooks_page else [Text html].

(** A stand-in for the digest. *)
Definition digest (s : string) : string := "sha256:" +:+ s.

Definition entries : list DevDocsEntry :=
  [mkEntry "Hooks/State" "hooks-state" "Hooks";
   mkEntry "Hooks/Effect" "hooks-effect" "Hooks";
   mkEntry "Legacy" "legacy" "Reference"].

Definition config : ScraperConfig :=
  new_config (Some 2%Z) None None None None None.

Definition timestamp : string := "2024-01-01T00:00:00.000Z".

(** Every page is served. *)
Definition env : Env :=
  mkEnv (fun _ _ => Fetched entries)
        (fun _ _ => Fetched hooks_html)
        (fun _ => None)
        (fun _ => timestamp).

(** The second page of the set times out. *)
Definition env_one_timeout : Env :=
  mkEnv (fun _ _ => Fetched entries)
        (fun _ target =>
           if String.eqb target "https://devdocs.io/react/hooks-effect"
           then Rejected (JsError "timeout of 30000ms exceeded")
           else Fetched hooks_html)
        (fun _ => None)
        (fun _ => timestamp).

(** The index answers with HTTP 500. *)
Definition env_no_index : Env :=
  mkEnv (fun _ _ => Rejected (JsError "Request failed with status code 500"))
        (fun _ _ => Fetched hooks_html)
        (fun _ => None)
        (fun _ => timestamp).

(** One page, and the store throws on its fourth operation, which is
    the insert of that page. *)
Definition env_insert_throws : Env :=
  mkEnv (fun _ _ => Fetched [mkEntry "Hooks/State" "hooks-state" "Hooks"])
        (fun _ _ => Fetched hooks_html)
        (fun n => if (n =? 3)%nat then Some (JsError "insert failed") else None)
        (fun _ => timestamp).

(** One page, served. *)
Definition env_one_page : Env :=
  mkEnv (fun _ _ => Fetched [mkEntry "Hooks/State" "hooks-state" "Hooks"])
        (fun _ _ => Fetched hooks_html)
        (fun _ => None)
        (fun _ => timestamp).

(** A new job in the jobs table, the DevDocs source registered, nothing
    stored yet. *)
Definition world : World :=
  mkWorld {["job-1" := createJob]} ∅ (Some "source-1") None 0 0 0 [].

(** The same, but the DevDocs source is not registered. *)
Definition world_no_source : World :=
  mkWorld {["job-1" := createJob]} ∅ None None 0 0 0 [].

(** Every store operation throws. *)
Definition env_store_down : Env :=
  mkEnv (fun _ _ => Fetched entries)
        (fun _ _ => Fetched hooks_html)
        (fun _ => Some (JsError "fetch failed"))
        (fun _ => timestamp).

(** The pages are served, but they are not documentation pages. *)
Definition env_malformed : Env :=
  mkEnv (fun _ _ => Fetched entries)
        (fun _ _ => Fetched "<<<not a page")
        (fun _ => None)
        (fun _ => timestamp).

(** The state of [world] once the job has been started: one store
    operation has been issued. *)
Definition world_started : World :=
  mkWorld {["job-1" := merge (start_updates 1 timestamp) createJob]}
          ∅ (Some "source-1") None 1 1 1 [].

Definition state_entry : DevDocsEntry :=
  mkEntry "Hooks/State" "hooks-state" "Hooks".

Definition state_result : ScrapeResult :=
  Extract.extract hooks_page "react" state_entry.

(** A first run over one page, then a second run, with a new job, over
    the same page. *)
Definition first_run : Outcome Summary.t * World :=
  scrapeDoc load digest config 1 "react" "job-1" false env_one_page world.

Definition second_run : Outcome Summary.t * World :=
  scrapeDoc load digest config 1 "react" "job-2" false env_one_page
            (with_jobs (<["job-2" := createJob]>) (snd first_run)).

(** A run over one page whose insert throws. *)
Definition run_insert_throws : Outcome Summary.t * World :=
  scrapeDoc load digest config 1 "react" "job-1" false env_insert_throws
            world.

(** A run whose index request is answered with HTTP 500. *)
Definition run_no_index : Outcome Summary.t * World :=
scrapeDoc load digest config 3 "react" "job-1" false env_no_index world.

(** Saving a new page when the DevDocs source is not registered. *)
Definition save_without_source : Outcome unit * World :=
  saveContent digest state_result "react" env world_no_source.

End Sample.

(* ===================================================================== *)
(** ** Definitions used to state further properties of the code *)
(* ===================================================================== *)

(** The words [extractKeywords] counts: the pieces of the lower-cased
    text between runs of non-word characters that are longer than 3. *)
Definition keyword_tokens (content : string) : list string :=
  List.filter (fun w => (3 <? String.length w)%nat)
              (Js.split_re_plus Js.is_nonword (Js.toLowerCase content)).

(** How often [w] occurs in [words]. *)
Definition occurrences (w : string) (words : list string) : nat :=
  length (List.filter (String.eqb w) words).

(** The count a frequency table holds for [w], 0 when it has none. *)
Fixpoint lookup_count (w : string) (freq : list (string * nat)) : nat :=
  match freq with
  | [] => 0
  | (k, c) :: rest => if String.eqb k w then c else lookup_count w rest
  end.

(** Every element is followed only by elements with a measure that is
    not greater. *)
Fixpoint descending {A} (f : A -> nat) (l : list A) : Prop :=
  match l with
  | [] => True
  | x :: l' => Forall (fun y => (f y <= f x)%nat) l' /\ descending f l'
  end.

(** The sum of the lengths of the pieces. *)
Definition total_length (l : list string) : nat :=
  fold_right (fun s n => (String.length s + n)%nat) 0%nat l.

(** No character of [s] is [c]. *)
Fixpoint free_of (c : ascii) (s : string) : bool :=
  match s with
  | EmptyString => true
  | String a s' => (negb (Ascii.eqb a c) && free_of c s')%bool
  end.

(** The part of the state that holds data: the two tables, the source
    row and the cached source id.  The rest is counters and the log. *)
Definition store_view (w : World)
  : gmap string ScrapingJob * gmap string ContentRow
    * option string * option string :=
  (jobs w, knowledge_content w, knowledge_source w, sourceId w).

(** The three shapes of the [updates] object [scrapeDoc] hands to
    [updateJob]. *)
Definition run_updates (total : nat) (updates : list JobField) : Prop :=
  (exists started, updates = start_updates total started)
  \/ (exists counts, updates = item_updates total counts)
  \/ (exists finished, updates = complete_updates finished).

(** The successive values of the two counters while the results are
    worked through. *)
Fixpoint tallies (results : list ScrapeResult) (counts : nat * nat)
  : list (nat * nat) :=
  match results with
  | [] => []
  | r :: rest => tally r counts :: tallies rest (tally r counts)
  end.

(** The states of one turn of the batch loop: when the requests of the
    batch are answered, when its results are worked through, and when the
    next turn starts. *)
Definition chunk_fetched (config : ScraperConfig) (docSlug : string)
           (batch : list DevDocsEntry) (env : Env) (w : World) : World :=
  after_requests (length batch)
                 (page_requests env (timeoutMs config) (requests w)
                                docSlug batch)
                 (record (EvPromiseAll batch) w).

Definition chunk_saved (cheerio_load : string -> list node)
           (sha256_hex : string -> string) (config : ScraperConfig)
           (docSlug jobId : string) (onProgress : bool) (total : nat)
           (batch : list DevDocsEntry) (counts : nat * nat)
           (env : Env) (w : World) : World :=
  after_items sha256_hex docSlug jobId onProgress total
              (page_results cheerio_load env (requests w) docSlug batch)
              counts env (chunk_fetched config docSlug batch env w).

Definition chunk_pause (config : ScraperConfig) (more : list (list DevDocsEntry))
  : list Event :=
  match more with
  | [] => []
  | _ => [EvDelay (delayMs config)]
  end.

(** The addresses requested, the pauses, the calls of the progress
    callback and the counts of the progress writes, as the log shows
    them. *)
Definition requested (l : list Event) : list (string * Z) :=
  omap (fun e => match e with
                 | EvGet _ target timeout _ => Some (target, timeout)
                 | _ => None
                 end) l.

Definition pauses (l : list Event) : list Z :=
  omap (fun e => match e with
                 | EvDelay ms => Some ms
                 | _ => None
                 end) l.

Definition progress_calls (l : list Event) : list (nat * nat) :=
  omap (fun e => match e with
                 | EvProgress processed total => Some (processed, total)
                 | _ => None
                 end) l.

Definition job_writes (l : list Event) : list (string * list JobField) :=
  omap (fun e => match e with
                 | EvJob id updates _ _ => Some (id, updates)
                 | _ => None
                 end) l.

Definition source_lookups (l : list Event) : nat :=
  length (List.filter (fun e => match e with
                                | EvSelectSource _ => true
                                | _ => false
                                end) l).

(** Kinds of log entries of [saveContent]. *)
Definition is_source_query (e : Event) : bool :=
  match e with
  | EvSelectSource _ => true
  | _ => false
  end.

Definition touches_content (e : Event) : bool :=
  match e with
  | EvSelectContent _ _ | EvInsert _ _ | EvUpdate _ _ => true
  | _ => false
  end.

(** A query or a write of [knowledge_content] in the log is about the
    address [u]. *)
Definition content_event_for (u : string) (e : Event) : Prop :=
  match e with
  | EvSelectContent u' _ => u' = u
  | EvInsert row _ | EvUpdate row _ => row_url row = u
  | _ => True
  end.

(** A row as [saveContent] writes it: filed under its own address, with
    the digest of its own text, and not yet processed. *)
Definition well_formed_row (sha256_hex : string -> string) (u : string)
           (row : ContentRow) : Prop :=
  row_url row = u
  /\ row_content_hash row = Some (sha256_hex (row_content row))
  /\ row_content_type row = "documentation_page"
  /\ row_processed row = false
  /\ Js.truthy (row_source_id row) = true.

(** The columns of a Job row that a run leaves as they are, and the only
    values it gives to [status]. *)
Definition result_columns_kept (before after : ScrapingJob) : Prop :=
  items_new after = items_new before
  /\ items_updated after = items_updated before
  /\ items_unchanged after = items_unchanged before
  /\ error_message after = error_message before
  /\ (status after = status before \/ status after = Running
      \/ status after = Completed).

(** A store call of the log threw. *)
Definition store_call_threw (e : Event) : bool :=
  match e with
  | EvSelectSource thrown | EvSelectContent _ thrown | EvInsert _ thrown
  | EvUpdate _ thrown | EvJob _ _ thrown _ => thrown
  | _ => false
  end.

(** Every character of [s] satisfies [p]. *)
Fixpoint all_chars (p : ascii -> bool) (s : string) : bool :=
  match s with
  | EmptyString => true
  | String c s' => (p c && all_chars p s')%bool
  end.

(** [a-z0-9_]: a word character that is not a capital letter. *)
Definition is_lower_word (c : ascii) : bool :=
  (Js.is_word c && negb (Js.between 65 90 c))%bool.

(** The first and the last character of a string. *)
Definition first_char (s : string) : option ascii :=
  match s with
  | EmptyString => None
  | String c _ => Some c
  end.

Fixpoint last_char (s : string) : option ascii :=
  match s with
  | EmptyString => None
  | String c EmptyString => Some c
  | String _ s' => last_char s'
  end.

(** [s] neither begins nor ends with white space. *)
Definition trimmed (s : string) : Prop :=
  (forall c, first_char s = Some c -> Js.is_space c = false)
  /\ (forall c, last_char s = Some c -> Js.is_space c = false).

(** [x] stands before [y] in [l]. *)
Definition comes_before {A} (x y : A) (l : list A) : Prop :=
  exists l1 l2 l3, l = l1 ++ x :: l2 ++ y :: l3.

(* ===================================================================== *)
(** ** The primitives on examples *)
(* ===================================================================== *)

Example split_ws_1 :
  Js.split_re_plus Js.is_space " a  b " = [""; "a"; "b"; ""].
Proof. reflexivity. Qed.

Example split_ws_empty : Js.split_re_plus Js.is_space "" = [""].
Proof. reflexivity. Qed.

Example split_slash_1 : Js.split_char "/" "a//b" = ["a"; ""; "b"].
Proof. reflexivity. Qed.

Example trim_1 : Js.trim "  a b  " = "a b".
Proof. reflexivity. Qed.

Example remove_first_1 :
  Js.remove_first "language-" "x language-js language-ts" = "x js language-ts".
Proof. reflexivity. Qed.

Example slice_1 : Js.slice [1; 2; 3; 4; 5] 3 6 = [4; 5].
Proof. reflexivity. Qed.

Example slice_2 : Js.slice [1; 2; 3; 4; 5] 0 (-2) = [1; 2; 3].
Proof. reflexivity. Qed.

Example chunks_1 : chunks 2 [1; 2; 3; 4; 5] = [[1; 2]; [3; 4]; [5]].
Proof. reflexivity. Qed.

Example extract_hooks_page :
  let r := Extract.extract Sample.hooks_page "react" Sample.state_entry in
  content r = "HooksHooks let you use state"
  /\ wordCount r = 5%nat /\ characterCount r = 28%nat
  /\ keywords r = ["hookshooks"; "state"]
  /\ topics r = ["react"; "Hooks"; "Hooks"; "State"].
Proof. vm_compute. repeat split. Qed.

Example keywords_order :
  Extract.extractKeywords "zeta 2024 beta zeta alpha-beta 1999 2024 gamma"
  = ["2024"; "zeta"; "beta"; "1999"; "alpha"; "gamma"].
Proof. vm_compute. reflexivity. Qed.

(* ===================================================================== *)
(** ** Selectors *)
(* ===================================================================== *)

Lemma select_in_last p t a kids :
  Dom.select_in [p] (Element t a kids)
  = (if p (Element t a kids) then [Element t a kids] else [])
      ++ flat_map (Dom.select_in [p]) kids.
Proof. reflexivity. Qed.

Lemma select_in_step p q rest t a kids :
  Dom.select_in (p :: q :: rest) (Element t a kids)
  = flat_map (Dom.select_in (if p (Element t a kids) then q :: rest
                             else p :: q :: rest)) kids.
Proof. reflexivity. Qed.

Lemma flat_map_nil {A B} (f : A -> list B) (l : list A) :
  Forall (fun x => f x = []) l -> flat_map f l = [].
Proof.
  induction 1 as [| x l Hx _ IH]; simpl; [done |]. by rewrite Hx, IH.
Qed.

Lemma flat_map_nil_inv {A B} (f : A -> list B) (l : list A) :
  flat_map f l = [] -> Forall (fun x => f x = []) l.
Proof.
  induction l as [| x l IH]; simpl; intros H; [constructor |].
  apply app_eq_nil in H as [Hx Hl]. constructor; auto.
Qed.

(** Nothing is selected below a region that does not occur. *)
Lemma select_in_absent p q rest n :
  Dom.select_in [p] n = [] -> Dom.select_in (p :: q :: rest) n = [].
Proof.
  induction n as [d | d | t a kids IH] using node_nested_ind;
    [done | done |].
  rewrite select_in_last, select_in_step. intros H.
  apply app_eq_nil in H as [Hp Hkids].
  destruct (p (Element t a kids)); [discriminate |].
  apply flat_map_nil. apply flat_map_nil_inv in Hkids.
  rewrite Forall_forall in *. intros k Hk. apply IH; auto.
Qed.

Lemma select_absent p q rest doc :
  Dom.select [p] doc = [] -> Dom.select (p :: q :: rest) doc = [].
Proof.
  unfold Dom.select. intros H. apply flat_map_nil.
  apply flat_map_nil_inv in H. rewrite Forall_forall in *.
  intros n Hn. apply select_in_absent; auto.
Qed.

(* ===================================================================== *)
(** ** scrapePage *)
(* ===================================================================== *)

Lemma scrapePage_run load cfg docSlug entry env w :
  scrapePage load cfg docSlug entry env w
  = (Return (page_result load env (requests w) docSlug entry),
     after_requests 1 (page_requests env (timeoutMs cfg) (requests w)
                                      docSlug [entry]) w).
Proof.
  unfold scrapePage, try_catch, bind, axios_get, page_result; simpl.
  destruct (page_html env (requests w) (Extract.page_url docSlug entry));
    reflexivity.
Qed.

Lemma extract_without_region doc docSlug entry :
  Dom.select [Extract.in_content] doc = [] ->
  let r := Extract.extract doc docSlug entry in
  content r = EmptyString /\ wordCount r = 0 /\ characterCount r = 0
  /\ codeSnippets r = [] /\ keywords r = []
  /\ markdown r = Some EmptyString.
Proof.
  intros H. simpl. unfold Extract.snippets_of, Extract.htmlToMarkdown.
  rewrite !(select_absent _ _ _ _ H), H. simpl. repeat split; reflexivity.
Qed.



(* ===================================================================== *)
(** ** The batch loop and its groups *)
(* ===================================================================== *)

Lemma bind_ext {A B} (m : M A) (k1 k2 : A -> M B) env w :
  (forall a w', k1 a env w' = k2 a env w') ->
  bind m k1 env w = bind m k2 env w.
Proof.
  intros H. unfold bind. destruct (m env w) as [[a | t |] w']; auto.
Qed.

Lemma chunks_upto_nil {A} fuel k : @chunks_upto A fuel k [] = [].
Proof. destruct fuel; reflexivity. Qed.

Lemma chunks_upto_enough {A} k (l : list A) : forall fuel,
  (0 < k)%nat -> (length l <= fuel)%nat -> chunks_upto fuel k l = chunks k l.
Proof.
  unfold chunks. remember (length l) as n eqn:Hn.
  revert l Hn. induction n as [n IH] using lt_wf_ind.
  intros l Hn fuel Hk Hfuel. destruct l as [| x l].
  - rewrite !chunks_upto_nil. reflexivity.
  - simpl in Hn. destruct fuel as [| fuel]; [lia |]. subst n. simpl.
    f_equal. destruct k as [| k]; [lia |]. simpl.
    assert (Hlen : (length (drop k l) <= length l)%nat)
      by (rewrite length_drop; lia).
    rewrite (IH (length (drop k l)) ltac:(simpl; lia) (drop k l) eq_refl fuel)
      by (simpl in Hfuel; lia).
    rewrite (IH (length (drop k l)) ltac:(simpl; lia) (drop k l) eq_refl
               (length l)) by lia.
    reflexivity.
Qed.

Lemma chunks_cons {A} k (l : list A) :
  (0 < k)%nat -> l <> [] -> chunks k l = take k l :: chunks k (drop k l).
Proof.
  intros Hk Hl. destruct l as [| x l]; [done |].
  unfold chunks at 1. simpl length. cbn [chunks_upto].
  f_equal. apply chunks_upto_enough; [done |].
  rewrite length_drop. simpl. lia.
Qed.

Lemma chunks_eq_nil {A} k (l : list A) :
  (0 < k)%nat -> chunks k l = [] -> l = [].
Proof.
  intros Hk H. destruct l as [| x l]; [done |].
  rewrite chunks_cons in H by done. discriminate.
Qed.

Lemma chunks_length_le {A} k (l : list A) :
  (0 < k)%nat -> (length (chunks k l) <= length l)%nat.
Proof.
  intros Hk. remember (length l) as n eqn:Hn. revert l Hn.
  induction n as [n IH] using lt_wf_ind. intros l Hn.
  destruct l as [| x l]; [simpl; lia |].
  rewrite chunks_cons by done. simpl length at 1.
  assert (Hd : (length (drop k (x :: l)) < n)%nat).
  { rewrite length_drop. subst n. simpl. lia. }
  specialize (IH _ Hd _ eq_refl). lia.
Qed.

(** [entries.slice(i, i + k)] is the next group of [k]. *)
Lemma slice_is_take_drop {A} (l : list A) (i k : Z) :
  (0 <= i < Z.of_nat (length l))%Z -> (0 < k)%Z ->
  Js.slice l i (i + k) = take (Z.to_nat k) (drop (Z.to_nat i) l).
Proof.
  intros Hi Hk. unfold Js.slice, Js.clamp_index.
  destruct (Z.ltb_spec i 0); [lia |].
  destruct (Z.ltb_spec (i + k) 0); [lia |].
  rewrite (Z.min_l i) by lia.
  destruct (Z.le_ge_cases (i + k) (Z.of_nat (length l))) as [Hle | Hge].
  - rewrite Z.min_l by lia. f_equal. lia.
  - rewrite Z.min_r by lia.
    rewrite !take_ge; [done | |]; rewrite length_drop; lia.
Qed.

Lemma batches_run_chunks load sha cfg docSlug jobId onProgress entries env :
  (0 < concurrency cfg)%Z ->
  forall fuel i counts w,
    (0 <= i)%Z ->
    (length (chunks (Z.to_nat (concurrency cfg))
                    (drop (Z.to_nat i) entries)) <= fuel)%nat ->
    batches load sha cfg fuel docSlug jobId onProgress entries i counts env w
    = run_chunks load sha cfg docSlug jobId onProgress (length entries)
                 (chunks (Z.to_nat (concurrency cfg))
                         (drop (Z.to_nat i) entries))
                 counts env w.
Proof.
  intros Hk. set (k := Z.to_nat (concurrency cfg)).
  assert (Hk' : (0 < k)%nat) by (subst k; lia).
  induction fuel as [| fuel IH]; intros i counts w Hi Hfuel.
  - assert (Hnil : drop (Z.to_nat i) entries = []).
    { apply (chunks_eq_nil k); [done |].
      destruct (chunks k (drop (Z.to_nat i) entries)); [done | simpl in Hfuel; lia]. }
    rewrite Hnil. simpl.
    destruct (Z.ltb_spec i (Z.of_nat (length entries))); [| done].
    apply (f_equal length) in Hnil. rewrite length_drop in Hnil.
    simpl in Hnil. lia.
  - cbn [batches].
    destruct (Z.ltb_spec i (Z.of_nat (length entries))) as [Hlt | Hge].
    + assert (Hne : drop (Z.to_nat i) entries <> []).
      { intros Hnil. apply (f_equal length) in Hnil.
        rewrite length_drop in Hnil. simpl in Hnil. lia. }
      rewrite (chunks_cons k _ Hk' Hne) in Hfuel |- *.
      rewrite drop_drop in Hfuel |- *.
      replace (Z.to_nat i + k)%nat with (Z.to_nat (i + concurrency cfg))
        in Hfuel |- * by (subst k; lia).
      cbn [run_chunks].
      rewrite slice_is_take_drop by lia. fold k.
      assert (Hdelay :
        (if (i + concurrency cfg <? Z.of_nat (length entries))%Z
         then delay (delayMs cfg) else ret tt)
        = match chunks k (drop (Z.to_nat (i + concurrency cfg)) entries) with
          | [] => ret tt
          | _ :: _ => delay (delayMs cfg)
          end).
      { destruct (Z.ltb_spec (i + concurrency cfg) (Z.of_nat (length entries)))
          as [Hlt' | Hge'].
        - destruct (chunks k (drop (Z.to_nat (i + concurrency cfg)) entries))
            eqn:Hc; [| done].
          apply chunks_eq_nil in Hc; [| done].
          apply (f_equal length) in Hc. rewrite length_drop in Hc.
          simpl in Hc. lia.
        - rewrite drop_ge by lia. reflexivity. }
      rewrite Hdelay.
      apply bind_ext; intros _ w1. apply bind_ext; intros results w2.
      apply bind_ext; intros counts' w3. apply bind_ext; intros _ w4.
      apply IH; [lia |]. simpl in Hfuel. lia.
    + rewrite drop_ge by lia. reflexivity.
Qed.

(* ===================================================================== *)
(** ** updateJob and saveContent *)
(* ===================================================================== *)

Lemma updateJob_returns jobId updates env w :
  fst (updateJob jobId updates env w) = Return tt.
Proof.
  unfold updateJob, try_catch, store_call, emit.
  destruct (store_fault env (store_ops w)); reflexivity.
Qed.

Lemma updated_eq jobId updates env w :
  updated jobId updates env w
  = match store_fault env (store_ops w) with
    | None =>
        let w' := with_jobs (alter (merge updates) jobId) (next_store_op w) in
        record (EvJob jobId updates false (jobs w' !! jobId)) w'
    | Some _ =>
        record (EvConsoleError "Error updating job")
               (record (EvJob jobId updates true (jobs w !! jobId))
                       (next_store_op w))
    end.
Proof.
  unfold updated, updateJob, try_catch, store_call, emit.
  destruct (store_fault env (store_ops w)); reflexivity.
Qed.

Lemma saveContent_returns sha result docSlug env w :
  fst (saveContent sha result docSlug env w) = Return tt.
Proof.
  unfold saveContent, try_catch, bind, store_call, get_world, emit, ret.
  simpl. repeat (case_match; simpl in *; simplify_eq; try reflexivity).
Qed.

Lemma events_since_app w w' evs :
  log w' = log w ++ evs -> events_since w w' = evs.
Proof.
  intros H. unfold events_since. rewrite H. apply drop_app_length.
Qed.

Ltac log_tail :=
  rewrite <- ?app_assoc; simpl;
  eexists; split; [reflexivity |]; repeat constructor.

Lemma saved_frame sha result docSlug env w :
  let w' := saved sha result docSlug env w in
  jobs w' = jobs w /\ requests w' = requests w
  /\ clock_reads w' = clock_reads w
  /\ knowledge_source w' = knowledge_source w
  /\ resolved_source w' = resolved_source w
  /\ exists evs, log w' = log w ++ evs
                 /\ Forall (fun e => is_save_event e = true) evs.
Proof.
  unfold saved, saveContent, try_catch, bind, store_call, get_world, emit, ret,
    resolved_source.
  destruct w as [js kc ks sid rq ops clk lg]. simpl.
  repeat (case_match; simpl in *; simplify_eq);
    repeat split; try reflexivity; try congruence;
    try (exists []; rewrite app_nil_r; split; [reflexivity | constructor]);
    try log_tail.
Qed.

Lemma saved_fault_free sha result docSlug env w :
  fault_free env ->
  let w' := saved sha result docSlug env w in
  let kc := knowledge_content w in
  exists evs,
    log w' = log w ++ evs
    /\ match resolved_source w with
       | Some source_id =>
           knowledge_content w'
           = (if same_hash (kc !! url result) (sha (content result)) then kc
              else <[url result := contentData sha source_id result]> kc)
           /\ List.filter is_content_write evs
              = write_for sha source_id result (kc !! url result)
       | None =>
           knowledge_content w' = kc /\ List.filter is_content_write evs = []
       end.
Proof.
  intros Hff.
  unfold saved, saveContent, try_catch, bind, store_call, get_world, emit, ret,
    resolved_source, write_for, same_hash, no_source, id_or_null.
  destruct w as [js kc ks sid rq ops clk lg]. simpl.
  repeat (rewrite ?Hff in *; simpl in *; case_match; simplify_eq);
    rewrite ?Hff; simpl; rewrite <- ?app_assoc; simpl;
    (eexists; split; [reflexivity |]); split; try reflexivity;
    try congruence;
    exfalso;
    repeat match goal with
           | H : Js.truthy ?x = _, H' : negb (Js.truthy ?x) = _ |- _ =>
               rewrite H in H'; simpl in H'
           end; congruence.
Qed.

(* ===================================================================== *)
(** ** The loops as state transformers *)
(* ===================================================================== *)

Lemma run_pair {A} (m : M A) env w : m env w = (fst (m env w), snd (m env w)).
Proof. destruct (m env w); reflexivity. Qed.

Lemma saveResults_run sha docSlug jobId onProgress total results :
  forall counts env w,
    saveResults sha docSlug jobId onProgress total results counts env w
    = (Return (tally_all results counts),
       after_items sha docSlug jobId onProgress total results counts env w).
Proof.
  induction results as [| r rest IH]; intros counts env w; [reflexivity |].
  cbn [saveResults after_items tally_all fold_left].
  unfold after_item, tally, updated, saved.
  destruct (success r); unfold bind at 1.
  - unfold bind at 1.
    rewrite (run_pair (saveContent sha r docSlug)), saveContent_returns.
    cbn [ret fst snd]. unfold bind at 1.
    rewrite (run_pair (updateJob jobId _)), updateJob_returns.
    destruct onProgress; unfold bind, emit, ret; apply IH.
  - cbn [ret fst snd]. unfold bind at 1.
    rewrite (run_pair (updateJob jobId _)), updateJob_returns.
    destruct onProgress; unfold bind, emit, ret; apply IH.
Qed.

Lemma after_requests_app k1 k2 evs1 evs2 w :
  after_requests k2 evs2 (after_requests k1 evs1 w)
  = after_requests (k1 + k2) (evs1 ++ evs2) w.
Proof.
  unfold after_requests. simpl. f_equal; [lia | by rewrite app_assoc].
Qed.

Lemma scrapePages_run load cfg docSlug env batch : forall w,
  mapM (scrapePage load cfg docSlug) batch env w
  = (Return (page_results load env (requests w) docSlug batch),
     after_requests (length batch)
                    (page_requests env (timeoutMs cfg) (requests w)
                                   docSlug batch) w).
Proof.
  induction batch as [| entry batch IH]; intros w.
  - simpl. unfold ret, after_requests. destruct w; simpl.
    by rewrite app_nil_r.
  - cbn [mapM]. unfold bind at 1. rewrite scrapePage_run.
    unfold bind at 1. rewrite IH. unfold ret.
    rewrite after_requests_app. simpl. reflexivity.
Qed.

Lemma run_chunks_run load sha cfg docSlug jobId onProgress total cs :
  forall counts env w,
    run_chunks load sha cfg docSlug jobId onProgress total cs counts env w
    = (Return (fst (after_chunks load sha cfg docSlug jobId onProgress total
                                 cs counts env w)),
       snd (after_chunks load sha cfg docSlug jobId onProgress total
                         cs counts env w)).
Proof.
  induction cs as [| batch cs IH]; intros counts env w; [reflexivity |].
  cbn [run_chunks after_chunks]. unfold bind at 1, emit at 1.
  unfold bind at 1. rewrite scrapePages_run.
  unfold bind at 1. rewrite saveResults_run.
  unfold bind at 1. destruct cs as [| b' cs']; unfold ret, delay, emit;
    apply IH.
Qed.

(** A run whose index request is answered returns, with the counters of
    the loop, in the state the three stages leave. *)
Lemma scrapeDoc_run load sha cfg fuel docSlug jobId onProgress env w entries :
  (0 < concurrency cfg)%Z ->
  (length entries <= fuel)%nat ->
  index_json env (requests w) (index_url docSlug) = Fetched entries ->
  let loop :=
    after_chunks load sha cfg docSlug jobId onProgress (length entries)
                 (chunks (Z.to_nat (concurrency cfg)) entries) (0, 0)%nat env
                 (at_loop_start cfg docSlug jobId entries env w) in
  scrapeDoc load sha cfg fuel docSlug jobId onProgress env w
  = (Return (Summary.make (fst (fst loop)) (snd (fst loop)) (length entries)),
     at_return jobId env (snd loop)).
Proof.
  intros Hk Hfuel Hidx loop. unfold scrapeDoc.
  unfold bind at 1. unfold getDocEntries, try_catch, axios_get.
  fold (index_url docSlug). rewrite Hidx.
  unfold bind at 1. unfold now at 1.
  unfold bind at 1. rewrite (run_pair (updateJob jobId _)), updateJob_returns.
  unfold bind at 1.
  rewrite batches_run_chunks; [| done | done |].
  2: { simpl. rewrite drop_0.
       etrans; [apply chunks_length_le; lia | done]. }
  change (Z.to_nat 0) with 0%nat. rewrite drop_0.
  rewrite run_chunks_run. unfold bind at 1, now at 1.
  unfold bind at 1. rewrite (run_pair (updateJob jobId _)), updateJob_returns.
  reflexivity.
Qed.

(* ===================================================================== *)
(** ** What the loops leave alone, and what they count *)
(* ===================================================================== *)

Lemma tally_all_counts results : forall counts,
  tally_all results counts
  = (fst counts + succeeded results, snd counts + failures results)%nat.
Proof.
  unfold tally_all, succeeded, failures.
  induction results as [| r rest IH]; intros [s f]; simpl.
  - f_equal; lia.
  - rewrite IH. unfold tally. destruct (success r); simpl; f_equal; lia.
Qed.

Lemma succeeded_failures results :
  (succeeded results + failures results = length results)%nat.
Proof.
  unfold succeeded, failures.
  induction results as [| r rest IH]; simpl; [done |].
  destruct (success r); simpl; lia.
Qed.

Lemma page_results_app load env docSlug l1 : forall n l2,
  page_results load env n docSlug (l1 ++ l2)
  = page_results load env n docSlug l1
      ++ page_results load env (length l1 + n) docSlug l2.
Proof.
  induction l1 as [| e l1 IH]; intros n l2; simpl; [done |].
  rewrite IH. do 3 f_equal. lia.
Qed.

Lemma page_results_length load env docSlug l : forall n,
  length (page_results load env n docSlug l) = length l.
Proof. induction l as [| e l IH]; intros n; simpl; [done |]. by rewrite IH. Qed.

Lemma updated_requests jobId updates env w :
  requests (updated jobId updates env w) = requests w.
Proof.
  rewrite updated_eq. destruct (store_fault env (store_ops w)); reflexivity.
Qed.

Lemma after_item_requests sha docSlug jobId onProgress total r counts env w :
  requests (after_item sha docSlug jobId onProgress total r counts env w)
  = requests w.
Proof.
  unfold after_item.
  assert (H : requests (if success r then saved sha r docSlug env w else w)
              = requests w).
  { destruct (success r); [| done]. apply saved_frame. }
  destruct onProgress; simpl; rewrite updated_requests; exact H.
Qed.

Lemma after_items_requests sha docSlug jobId onProgress total results :
  forall counts env w,
    requests (after_items sha docSlug jobId onProgress total results
                          counts env w) = requests w.
Proof.
  induction results as [| r rest IH]; intros counts env w; simpl; [done |].
  rewrite IH. apply after_item_requests.
Qed.

(** The loop processes the pages in the order of the index: its counters
    are those of the results of consecutive requests, whatever the stores
    did. *)
Lemma after_chunks_counts load sha cfg docSlug jobId onProgress total cs :
  forall counts env w,
    let out := after_chunks load sha cfg docSlug jobId onProgress total
                            cs counts env w in
    fst out = tally_all (page_results load env (requests w) docSlug
                                      (concat cs)) counts
    /\ requests (snd out) = (length (concat cs) + requests w)%nat.
Proof.
  induction cs as [| batch cs IH]; intros counts env w; [done |].
  cbn [after_chunks concat]. cbv zeta.
  set (w3 := after_items _ _ _ _ _ _ _ _ _).
  set (w4 := match cs with [] => w3 | _ => record _ w3 end).
  assert (Hreq : requests w4 = (length batch + requests w)%nat).
  { assert (Hw3 : requests w3 = (length batch + requests w)%nat).
    { subst w3. rewrite after_items_requests. reflexivity. }
    subst w4. destruct cs; simpl; exact Hw3. }
  destruct (IH (tally_all (page_results load env (requests w) docSlug batch)
                          counts) env w4) as [Hc Hr].
  simpl in Hc, Hr. split.
  - simpl. rewrite Hc, Hreq, page_results_app.
    unfold tally_all. by rewrite fold_left_app.
  - simpl. rewrite Hr, Hreq, length_app. lia.
Qed.

Lemma concat_chunks {A} k (l : list A) :
  (0 < k)%nat -> concat (chunks k l) = l.
Proof.
  intros Hk. remember (length l) as n eqn:Hn. revert l Hn.
  induction n as [n IH] using lt_wf_ind. intros l Hn.
  destruct l as [| x l]; [done |].
  rewrite chunks_cons by done. cbn [concat].
  assert (Hd : (length (drop k (x :: l)) < n)%nat).
  { rewrite length_drop. subst n. simpl. lia. }
  rewrite (IH _ Hd _ eq_refl). apply take_drop.
Qed.

Lemma at_loop_start_requests cfg docSlug jobId entries env w :
  requests (at_loop_start cfg docSlug jobId entries env w) = S (requests w).
Proof. unfold at_loop_start. rewrite updated_requests. reflexivity. Qed.

(** The value [scrapeDoc] returns. *)
Lemma scrapeDoc_summary load sha cfg fuel docSlug jobId onProgress env w
      entries :
  (0 < concurrency cfg)%Z ->
  (length entries <= fuel)%nat ->
  index_json env (requests w) (index_url docSlug) = Fetched entries ->
  let results := page_results load env (S (requests w)) docSlug entries in
  fst (scrapeDoc load sha cfg fuel docSlug jobId onProgress env w)
  = Return (Summary.make (succeeded results) (failures results)
                         (length entries)).
Proof.
  intros Hk Hfuel Hidx results.
  rewrite (scrapeDoc_run _ _ _ _ _ _ _ _ _ entries) by done.
  cbn [fst].
  destruct (after_chunks_counts load sha cfg docSlug jobId onProgress
              (length entries) (chunks (Z.to_nat (concurrency cfg)) entries)
              (0, 0)%nat env (at_loop_start cfg docSlug jobId entries env w))
    as [Hc _].
  simpl in Hc. rewrite Hc, concat_chunks by lia.
  rewrite at_loop_start_requests, tally_all_counts. reflexivity.
Qed.

(* ===================================================================== *)
(** ** The log *)
(* ===================================================================== *)

Lemma extends_refl w : extends w w.
Proof. exists []. by rewrite app_nil_r. Qed.

Lemma extends_trans w1 w2 w3 : extends w1 w2 -> extends w2 w3 -> extends w1 w3.
Proof.
  intros [e1 H1] [e2 H2]. exists (e1 ++ e2). by rewrite H2, H1, app_assoc.
Qed.

Lemma extends_events w w' : extends w w' -> log w' = log w ++ events_since w w'.
Proof. intros [evs H]. by rewrite (events_since_app _ _ _ H). Qed.

Lemma events_since_trans w1 w2 w3 :
  extends w1 w2 -> extends w2 w3 ->
  events_since w1 w3 = events_since w1 w2 ++ events_since w2 w3.
Proof.
  intros H12 H23. apply events_since_app.
  rewrite (extends_events _ _ H23), (extends_events _ _ H12).
  by rewrite app_assoc.
Qed.

Lemma events_since_refl w : events_since w w = [].
Proof. apply events_since_app. by rewrite app_nil_r. Qed.

Lemma record_extends e w : extends w (record e w).
Proof. by exists [e]. Qed.

Lemma record_events e w : events_since w (record e w) = [e].
Proof. by apply events_since_app. Qed.

Lemma updated_log jobId updates env w :
  log (updated jobId updates env w)
  = log w ++ update_events jobId updates env w.
Proof.
  rewrite updated_eq. unfold update_events.
  destruct (store_fault env (store_ops w)); simpl; [| done].
  by rewrite <- app_assoc.
Qed.

Lemma updated_extends jobId updates env w :
  extends w (updated jobId updates env w).
Proof. eexists. apply updated_log. Qed.

Lemma saved_extends sha r docSlug env w : extends w (saved sha r docSlug env w).
Proof.
  destruct (saved_frame sha r docSlug env w) as (_ & _ & _ & _ & _ & evs & H & _).
  by exists evs.
Qed.

Lemma saved_events sha r docSlug env w :
  Forall (fun e => is_save_event e = true)
         (events_since w (saved sha r docSlug env w)).
Proof.
  destruct (saved_frame sha r docSlug env w) as (_ & _ & _ & _ & _ & evs & H & HF).
  by rewrite (events_since_app _ _ _ H).
Qed.

Lemma item_saved_extends sha docSlug r env w :
  extends w (item_saved sha docSlug r env w).
Proof.
  unfold item_saved. destruct (success r);
    [apply saved_extends | apply extends_refl].
Qed.

Lemma after_item_log sha docSlug jobId onProgress total r counts env w :
  let w1 := item_saved sha docSlug r env w in
  let counts' := tally r counts in
  log (after_item sha docSlug jobId onProgress total r counts env w)
  = log w ++ events_since w w1
      ++ update_events jobId (item_updates total counts') env w1
      ++ (if onProgress
          then [EvProgress (fst counts' + snd counts') total] else []).
Proof.
  intros w1 counts'. unfold after_item. fold (item_saved sha docSlug r env w).
  fold w1. fold counts'.
  rewrite app_assoc, <- (extends_events w w1)
    by apply item_saved_extends.
  destruct onProgress; simpl; rewrite updated_log;
    [by rewrite <- app_assoc | by rewrite app_nil_r].
Qed.

Lemma after_item_extends sha docSlug jobId onProgress total r counts env w :
  extends w (after_item sha docSlug jobId onProgress total r counts env w).
Proof. eexists. apply after_item_log. Qed.

Lemma after_items_extends sha docSlug jobId onProgress total results :
  forall counts env w,
    extends w (after_items sha docSlug jobId onProgress total results
                           counts env w).
Proof.
  induction results as [| r rest IH]; intros counts env w; simpl.
  - apply extends_refl.
  - eapply extends_trans; [apply after_item_extends | apply IH].
Qed.

Lemma after_requests_extends k evs w : extends w (after_requests k evs w).
Proof. by exists evs. Qed.

Lemma after_chunks_extends load sha cfg docSlug jobId onProgress total cs :
  forall counts env w,
    extends w (snd (after_chunks load sha cfg docSlug jobId onProgress total
                                 cs counts env w)).
Proof.
  induction cs as [| batch cs IH]; intros counts env w.
  - apply extends_refl.
  - cbn [after_chunks]. cbv zeta.
    eapply extends_trans; [| apply IH].
    eapply extends_trans; [apply (record_extends (EvPromiseAll batch)) |].
    eapply extends_trans; [apply after_requests_extends |].
    eapply extends_trans; [apply after_items_extends |].
    destruct cs; [apply extends_refl | apply record_extends].
Qed.

(* ===================================================================== *)
(** ** Groups *)
(* ===================================================================== *)

Lemma ceil_div_step n k :
  (0 < k)%nat -> (0 < n)%nat -> ceil_div n k = S (ceil_div (n - k) k).
Proof.
  intros Hk Hn. unfold ceil_div.
  destruct (Nat.le_gt_cases k n) as [Hle | Hgt].
  - replace (n + k - 1)%nat with ((n - k + k - 1) + 1 * k)%nat by lia.
    rewrite Nat.div_add by lia. lia.
  - replace (n - k)%nat with 0%nat by lia.
    replace (n + k - 1)%nat with ((n - 1) + 1 * k)%nat by lia.
    rewrite Nat.div_add by lia.
    rewrite !Nat.div_small by lia. reflexivity.
Qed.

Lemma ceil_div_bounds n k :
  (0 < k)%nat -> (0 < n)%nat ->
  ((ceil_div n k - 1) * k < n <= ceil_div n k * k)%nat.
Proof.
  intros Hk Hn. unfold ceil_div.
  pose proof (Nat.div_mod (n + k - 1) k ltac:(lia)) as Hdm.
  pose proof (Nat.mod_upper_bound (n + k - 1) k ltac:(lia)) as Hr.
  set (c := ((n + k - 1) / k)%nat) in *.
  set (r := ((n + k - 1) mod k)%nat) in *.
  assert (Hc : (0 < c)%nat) by (destruct c; [lia | lia]).
  nia.
Qed.

Lemma chunks_length {A} k (l : list A) :
  (0 < k)%nat -> length (chunks k l) = ceil_div (length l) k.
Proof.
  intros Hk. remember (length l) as n eqn:Hn. revert l Hn.
  induction n as [n IH] using lt_wf_ind. intros l Hn.
  destruct l as [| x l].
  - subst n. simpl. unfold ceil_div. simpl.
    rewrite Nat.div_small by lia. reflexivity.
  - rewrite chunks_cons by done. cbn [length].
    assert (Hd : (length (drop k (x :: l)) < n)%nat).
    { rewrite length_drop. subst n. simpl. lia. }
    rewrite (IH _ Hd _ eq_refl), length_drop.
    rewrite (ceil_div_step n k) by (subst n; simpl; lia).
    subst n. reflexivity.
Qed.

(** Group [j] is made of the [k] items that follow the first [j * k]. *)
Lemma chunks_lookup {A} k : forall j (l : list A),
  (0 < k)%nat -> (j < length (chunks k l))%nat ->
  chunks k l !! j = Some (take k (drop (j * k) l)).
Proof.
  induction j as [| j IH]; intros l Hk Hj.
  - destruct l as [| x l]; [simpl in Hj; lia |].
    rewrite chunks_cons by done. reflexivity.
  - destruct l as [| x l]; [simpl in Hj; lia |].
    rewrite chunks_cons in Hj |- * by done. cbn [length] in Hj.
    cbn [lookup list_lookup]. rewrite IH; [| done | lia].
    rewrite drop_drop. do 2 f_equal; lia.
Qed.

Lemma chunk_sizes {A} k (l : list A) j c :
  (0 < k)%nat -> chunks k l !! j = Some c ->
  (S j < length (chunks k l) -> length c = k)
  /\ (S j = length (chunks k l) ->
      length c = (length l - j * k)%nat /\ (0 < length c <= k)%nat).
Proof.
  intros Hk Hc.
  assert (Hj : (j < length (chunks k l))%nat) by (eapply lookup_lt_Some; eauto).
  rewrite chunks_lookup in Hc by done. injection Hc as <-.
  rewrite length_take, length_drop.
  rewrite chunks_length in * by done.
  destruct (Nat.eq_dec (length l) 0) as [H0 | H0].
  { rewrite H0 in Hj. unfold ceil_div in Hj. simpl in Hj.
    rewrite Nat.div_small in Hj by lia. lia. }
  pose proof (ceil_div_bounds (length l) k Hk ltac:(lia)) as [Hlo Hhi].
  split; intros Hlast.
  - assert ((S j) * k <= (ceil_div (length l) k - 1) * k)%nat
      by (apply Nat.mul_le_mono_r; lia).
    lia.
  - assert (Heq : (j = ceil_div (length l) k - 1)%nat) by lia.
    rewrite <- Heq in Hlo. rewrite <- Hlast in Hhi. lia.
Qed.

Lemma promise_all_batches_app l1 l2 :
  promise_all_batches (l1 ++ l2)
  = promise_all_batches l1 ++ promise_all_batches l2.
Proof. unfold promise_all_batches. apply omap_app. Qed.

Lemma work_has_no_batch work :
  Forall (fun e => is_work_event e = true) work ->
  promise_all_batches work = [].
Proof.
  induction 1 as [| e work He _ IH]; [done |].
  destruct e; simpl in He; try discriminate; exact IH.
Qed.

Lemma group_segment_batches docSlug batch seg :
  group_segment docSlug batch seg -> promise_all_batches seg = [batch].
Proof.
  intros (gets & work & -> & Hgets & Hwork & _).
  change (EvPromiseAll batch :: gets ++ work)
    with ([EvPromiseAll batch] ++ gets ++ work).
  rewrite !promise_all_batches_app, (work_has_no_batch _ Hwork).
  assert (Hg : promise_all_batches gets = []).
  { clear Hwork. induction Hgets as [| e ev b g (n & t & ok & ->) _ IH];
      [done | exact IH]. }
  rewrite Hg. reflexivity.
Qed.

Lemma segments_batches docSlug cs segs :
  Forall2 (group_segment docSlug) cs segs ->
  promise_all_batches (concat segs) = cs.
Proof.
  induction 1 as [| b seg cs segs Hseg _ IH]; [done |].
  cbn [concat]. rewrite promise_all_batches_app, IH.
  by rewrite (group_segment_batches _ _ _ Hseg).
Qed.

Lemma update_events_work jobId updates env w :
  Forall (fun e => is_work_event e = true) (update_events jobId updates env w)
  /\ length (List.filter is_job_write (update_events jobId updates env w)) = 1%nat.
Proof.
  unfold update_events. destruct (store_fault env (store_ops w));
    split; repeat constructor.
Qed.

Lemma save_events_work evs :
  Forall (fun e => is_save_event e = true) evs ->
  Forall (fun e => is_work_event e = true) evs
  /\ List.filter is_job_write evs = [].
Proof.
  induction 1 as [| e evs He _ [IH1 IH2]]; [by split |].
  split; [constructor; [| done] | simpl; rewrite IH2];
    destruct e; simpl in *; done.
Qed.

Lemma item_saved_events sha docSlug r env w :
  Forall (fun e => is_save_event e = true)
         (events_since w (item_saved sha docSlug r env w)).
Proof.
  unfold item_saved. destruct (success r); [apply saved_events |].
  rewrite events_since_refl. constructor.
Qed.

Lemma after_item_work sha docSlug jobId onProgress total r counts env w :
  let evs := events_since w (after_item sha docSlug jobId onProgress total
                                        r counts env w) in
  Forall (fun e => is_work_event e = true) evs
  /\ length (List.filter is_job_write evs) = 1%nat.
Proof.
  intros evs. subst evs.
  rewrite (events_since_app _ _ _ (after_item_log _ _ _ _ _ _ _ _ _)).
  destruct (save_events_work _ (item_saved_events sha docSlug r env w))
    as [Hs1 Hs2].
  destruct (update_events_work jobId (item_updates total (tally r counts)) env
              (item_saved sha docSlug r env w)) as [Hu1 Hu2].
  split.
  - rewrite !Forall_app. repeat split; [done | done |].
    destruct onProgress; repeat constructor.
  - rewrite !List.filter_app, !length_app, Hs2, Hu2.
    destruct onProgress; reflexivity.
Qed.

Lemma after_items_work sha docSlug jobId onProgress total results :
  forall counts env w,
    let evs := events_since w (after_items sha docSlug jobId onProgress total
                                           results counts env w) in
    Forall (fun e => is_work_event e = true) evs
    /\ length (List.filter is_job_write evs) = length results.
Proof.
  induction results as [| r rest IH]; intros counts env w; cbn [after_items].
  - cbv zeta. rewrite events_since_refl. by split.
  - cbv zeta.
    rewrite (events_since_trans w
               (after_item sha docSlug jobId onProgress total r counts env w))
      by (apply after_item_extends || apply after_items_extends).
    destruct (after_item_work sha docSlug jobId onProgress total r counts env w)
      as [H1 H2].
    destruct (IH (tally r counts) env
                 (after_item sha docSlug jobId onProgress total r counts env w))
      as [H3 H4].
    split; [by rewrite Forall_app |].
    rewrite List.filter_app, length_app, H2, H4. reflexivity.
Qed.

Lemma page_requests_gets env timeout docSlug batch : forall n,
  Forall2 (fun entry ev =>
             exists n timeout ok,
               ev = EvGet n (Extract.page_url docSlug entry) timeout ok)
          batch (page_requests env timeout n docSlug batch).
Proof.
  induction batch as [| e batch IH]; intros n; simpl; constructor; eauto.
Qed.

(** The log of the loop is the sequence of its groups, one after the
    other. *)
Lemma after_chunks_segments load sha cfg docSlug jobId onProgress total cs :
  forall counts env w,
  exists segs,
    events_since w (snd (after_chunks load sha cfg docSlug jobId onProgress
                                      total cs counts env w))
    = concat segs
    /\ Forall2 (group_segment docSlug) cs segs.
Proof.
  induction cs as [| batch cs IH]; intros counts env w.
  - exists []. split; [apply events_since_refl | constructor].
  - cbn [after_chunks]. cbv zeta.
    set (w1 := record (EvPromiseAll batch) w).
    set (gets := page_requests env (timeoutMs cfg) (requests w1) docSlug batch).
    set (w2 := after_requests (length batch) gets w1).
    set (results := page_results load env (requests w1) docSlug batch).
    set (w3 := after_items sha docSlug jobId onProgress total results counts
                           env w2).
    set (pause := match cs with
                  | [] => []
                  | _ => [EvDelay (delayMs cfg)]
                  end).
    set (w4 := match cs with
               | [] => w3
               | _ => record (EvDelay (delayMs cfg)) w3
               end).
    destruct (IH (tally_all results counts) env w4) as (segs & Hsegs & HF).
    assert (H23 : extends w2 w3) by apply after_items_extends.
    assert (Hlog4 : log w4 = log w ++ EvPromiseAll batch
                              :: gets ++ events_since w2 w3 ++ pause).
    { assert (Hlog3 : log w3 = log w ++ EvPromiseAll batch
                                :: gets ++ events_since w2 w3).
      { rewrite (extends_events _ _ H23). subst w2 w1. simpl.
        rewrite <- !app_assoc. reflexivity. }
      subst w4 pause. destruct cs; simpl; rewrite Hlog3.
      - by rewrite !app_nil_r.
      - rewrite <- !app_assoc. simpl. by rewrite <- !app_assoc. }
    exists ((EvPromiseAll batch :: gets ++ events_since w2 w3 ++ pause) :: segs).
    split.
    + cbn [concat]. rewrite <- Hsegs.
      rewrite (events_since_trans w w4);
        [| by eexists | apply after_chunks_extends].
      by rewrite (events_since_app _ _ _ Hlog4).
    + constructor; [| exact HF].
      exists gets, (events_since w2 w3 ++ pause).
      destruct (after_items_work sha docSlug jobId onProgress total results
                                 counts env w2) as [Hw Hn].
      fold w3 in Hw, Hn. repeat split.
      * apply page_requests_gets.
      * rewrite Forall_app. split; [done |].
        subst pause. destruct cs; repeat constructor.
      * rewrite List.filter_app, length_app, Hn.
        subst results pause. rewrite page_results_length.
        destruct cs; simpl; lia.
Qed.

Lemma at_loop_start_log cfg docSlug jobId entries env w :
  exists evs,
    log (at_loop_start cfg docSlug jobId entries env w) = log w ++ evs
    /\ promise_all_batches evs = []
    /\ snapshots evs
       = snapshots
           (update_events jobId
              (start_updates (length entries) (clock env (clock_reads w))) env
              (next_clock_read
                 (record (EvGet (requests w) (index_url docSlug)
                                (timeoutMs cfg) true)
                         (next_request w)))).
Proof.
  unfold at_loop_start. rewrite updated_log. simpl.
  rewrite <- app_assoc. eexists. split; [reflexivity |].
  split; [| reflexivity].
  change (promise_all_batches (update_events jobId
            (start_updates (length entries) (clock env (clock_reads w))) env
            (next_clock_read
               (record (EvGet (requests w) (index_url docSlug)
                              (timeoutMs cfg) true)
                       (next_request w)))) = []).
  apply work_has_no_batch, update_events_work.
Qed.

(** C4.  For [n] work items and a concurrency [k > 0] the loop hands
    exactly [ceil(n / k)] groups to [Promise.all]; group [j] is made of
    the [k] items that follow the first [j * k], so every group has [k]
    items except possibly the last, which has the remaining ones, and
    together they are the whole list in order.  In the log each group is a
    segment of its own: its requests and the work on its results, with one
    job write per item, are all recorded before the next group starts. *)
Theorem batch_loop_groups load sha cfg fuel docSlug jobId onProgress env w
        entries :
  (0 < concurrency cfg)%Z ->
  (length entries <= fuel)%nat ->
  index_json env (requests w) (index_url docSlug) = Fetched entries ->
  let k := Z.to_nat (concurrency cfg) in
  let w' := snd (scrapeDoc load sha cfg fuel docSlug jobId onProgress env w) in
  let groups := promise_all_batches (events_since w w') in
  length groups = ceil_div (length entries) k
  /\ (forall j, (j < length groups)%nat ->
                groups !! j = Some (take k (drop (j * k) entries)))
  /\ (forall j c, groups !! j = Some c ->
        (S j < length groups -> length c = k)
        /\ (S j = length groups ->
            length c = (length entries - j * k)%nat
            /\ (0 < length c <= k)%nat))
  /\ concat groups = entries
  /\ exists pre segs post,
      events_since w w' = pre ++ concat segs ++ post
      /\ promise_all_batches pre = []
      /\ promise_all_batches post = []
      /\ Forall2 (group_segment docSlug) groups segs.
Proof.
  intros Hk Hfuel Hidx k w' groups.
  assert (Hk' : (0 < k)%nat) by (subst k; lia).
  assert (Hshape : exists pre segs post,
             events_since w w' = pre ++ concat segs ++ post
             /\ promise_all_batches pre = []
             /\ promise_all_batches post = []
             /\ Forall2 (group_segment docSlug) (chunks k entries) segs).
  { subst w'. rewrite (scrapeDoc_run _ _ _ _ _ _ _ _ _ entries) by done.
    cbn [snd]. fold k.
    set (w1 := at_loop_start cfg docSlug jobId entries env w).
    set (w2 := snd (after_chunks load sha cfg docSlug jobId onProgress
                                 (length entries) (chunks k entries)
                                 (0, 0)%nat env w1)).
    destruct (at_loop_start_log cfg docSlug jobId entries env w)
      as (pre & Hpre & Hpre_b & _). fold w1 in Hpre.
    destruct (after_chunks_segments load sha cfg docSlug jobId onProgress
                (length entries) (chunks k entries) (0, 0)%nat env w1)
      as (segs & Hsegs & HF). fold w2 in Hsegs.
    exists pre, segs,
      (update_events jobId (complete_updates (clock env (clock_reads w2))) env
                     (next_clock_read w2)).
    split; [| split; [done | split; [| done]]].
    - apply events_since_app. unfold at_return. rewrite updated_log. simpl.
      assert (H12 : extends w1 w2) by apply after_chunks_extends.
      rewrite (extends_events _ _ H12), Hsegs, Hpre.
      by rewrite <- !app_assoc.
    - apply work_has_no_batch, update_events_work. }
  assert (Hgroups : groups = chunks k entries).
  { destruct Hshape as (pre & segs & post & Hev & Hpre & Hpost & HF).
    subst groups. rewrite Hev, !promise_all_batches_app, Hpre, Hpost.
    rewrite (segments_batches _ _ _ HF). by rewrite app_nil_r. }
  rewrite Hgroups. split; [| split; [| split; [| split]]].
  - by apply chunks_length.
  - intros j Hj. by apply chunks_lookup.
  - intros j c Hc. by apply (chunk_sizes k entries j c Hk').
  - by apply concat_chunks.
  - exact Hshape.
Qed.

(* ===================================================================== *)
(** ** The job row *)
(* ===================================================================== *)

Lemma percentage_percent_of p n :
  n <> 0%nat -> (percentage p n == percent_of p n)%Q.
Proof.
  intros Hn. unfold percentage, percent_of.
  destruct (Nat.eqb_spec n 0); [done |]. unfold Qdiv. ring.
Qed.

Lemma percentage_bounds p n :
  (p <= n)%nat -> (0 < n)%nat -> (0 <= percentage p n <= 100)%Q.
Proof.
  intros Hp Hn. unfold percentage.
  assert (H0p : (0 <= inject_Z (Z.of_nat p))%Q).
  { change 0%Q with (inject_Z 0). rewrite <- Zle_Qle. lia. }
  assert (H0n : (0 < inject_Z (Z.of_nat n))%Q).
  { change 0%Q with (inject_Z 0). rewrite <- Zlt_Qlt. lia. }
  split.
  - apply Qmult_le_0_compat; [| done].
    apply Qle_shift_div_l; [done |]. by rewrite Qmult_0_l.
  - change 100%Q with (1 * 100)%Q at 2.
    apply Qmult_le_compat_r; [| done].
    apply Qle_shift_div_r; [done |]. rewrite Qmult_1_l.
    rewrite <- Zle_Qle. lia.
Qed.

Lemma percent_of_zero n : (percent_of 0 n == 0)%Q.
Proof.
  unfold percent_of. destruct (n =? 0)%nat; [reflexivity |].
  unfold Qdiv. simpl. ring.
Qed.

Lemma createJob_consistent total : job_consistent total false createJob.
Proof.
  unfold job_consistent, createJob. simpl.
  repeat split; try done; try lia.
  symmetry. apply percent_of_zero.
Qed.

Lemma start_consistent total t :
  job_consistent total true (merge (start_updates total t) createJob).
Proof.
  unfold job_consistent, createJob. simpl.
  repeat split; try done; try lia.
  symmetry. apply percent_of_zero.
Qed.

Lemma item_consistent total applied counts j :
  job_consistent total applied j ->
  (0 < fst counts + snd counts <= total)%nat ->
  job_consistent total applied (merge (item_updates total counts) j).
Proof.
  intros (_ & _ & _ & _ & Ht & Hn & Hu & Hc) [Hpos Hle].
  unfold job_consistent. simpl. repeat split; try done.
  - apply percentage_bounds; lia.
  - apply percentage_bounds; lia.
  - apply percentage_percent_of. lia.
Qed.

Lemma snapshots_app l1 l2 : snapshots (l1 ++ l2) = snapshots l1 ++ snapshots l2.
Proof. unfold snapshots. apply omap_app. Qed.

Lemma save_events_no_snapshot evs :
  Forall (fun e => is_save_event e = true) evs -> snapshots evs = [].
Proof.
  induction 1 as [| e evs He _ IH]; [done |].
  destruct e; simpl in He; try discriminate; exact IH.
Qed.

(** What one [updateJob] does to the job row, and what it shows. *)
Lemma updated_job jobId updates env w :
  let w' := updated jobId updates env w in
  jobs w' = (match store_fault env (store_ops w) with
             | None => alter (merge updates) jobId (jobs w)
             | Some _ => jobs w
             end)
  /\ snapshots (update_events jobId updates env w)
     = match jobs w' !! jobId with Some j => [j] | None => [] end
  /\ store_ops w' = S (store_ops w)
  /\ knowledge_content w' = knowledge_content w
  /\ resolved_source w' = resolved_source w.
Proof.
  cbv zeta. rewrite updated_eq. unfold update_events.
  destruct (store_fault env (store_ops w)); simpl; repeat split;
    by destruct (_ !! jobId).
Qed.

(** A property of the job row that every write of the loop preserves
    holds of every row the run shows. *)
Section JobInvariant.

Variable total : nat.
Variable jobId : string.
Variable I : ScrapingJob -> Prop.
Hypothesis I_item : forall counts j,
    I j -> (0 < fst counts + snd counts <= total)%nat ->
    I (merge (item_updates total counts) j).

Local Abbreviation job_holds := (job_holds jobId I).

Lemma updated_holds updates env w :
  job_holds w ->
  (forall j, I j -> I (merge updates j)) ->
  job_holds (updated jobId updates env w)
  /\ Forall I (snapshots (update_events jobId updates env w)).
Proof.
  intros Hw Hupd.
  destruct (updated_job jobId updates env w) as (Hj & Hs & _).
  assert (Hholds : job_holds (updated jobId updates env w)).
  { intros j. rewrite Hj. destruct (store_fault env (store_ops w)).
    - apply Hw.
    - rewrite lookup_alter_eq. destruct (jobs w !! jobId) as [j0 |] eqn:E;
        simpl; [| done].
      intros [= <-]. apply Hupd, Hw, E. }
  split; [done |]. rewrite Hs.
  destruct (jobs (updated jobId updates env w) !! jobId) as [j |] eqn:E;
    [| constructor].
  constructor; [| constructor]. by apply Hholds.
Qed.

Lemma after_item_holds sha docSlug onProgress r counts env w :
  job_holds w ->
  (fst counts + snd counts < total)%nat ->
  let w' := after_item sha docSlug jobId onProgress total r counts env w in
  job_holds w' /\ Forall I (snapshots (events_since w w')).
Proof.
  intros Hw Hlt w'. subst w'.
  rewrite (events_since_app _ _ _ (after_item_log _ _ _ _ _ _ _ _ _)).
  set (w1 := item_saved sha docSlug r env w).
  assert (H1 : job_holds w1).
  { intros j. subst w1. unfold item_saved. destruct (success r); [| apply Hw].
    destruct (saved_frame sha r docSlug env w) as (-> & _). apply Hw. }
  assert (Hc : (0 < fst (tally r counts) + snd (tally r counts) <= total)%nat).
  { unfold tally. destruct (success r); simpl; lia. }
  destruct (updated_holds (item_updates total (tally r counts)) env w1 H1)
    as [H2 H3].
  { intros j Hj. by apply I_item. }
  split.
  - unfold after_item. fold (item_saved sha docSlug r env w). fold w1.
    destruct onProgress; exact H2.
  - rewrite !snapshots_app.
    pose proof (item_saved_events sha docSlug r env w) as Hs. fold w1 in Hs.
    rewrite (save_events_no_snapshot _ Hs). simpl. rewrite Forall_app. split; [done |].
    destruct onProgress; constructor.
Qed.

Lemma after_items_holds sha docSlug onProgress results :
  forall counts env w,
    job_holds w ->
    (fst counts + snd counts + length results <= total)%nat ->
    let w' := after_items sha docSlug jobId onProgress total results
                          counts env w in
    job_holds w' /\ Forall I (snapshots (events_since w w')).
Proof.
  induction results as [| r rest IH]; intros counts env w Hw Hle;
    cbn [after_items]; cbv zeta.
  - rewrite events_since_refl. split; [done | constructor].
  - simpl in Hle.
    destruct (after_item_holds sha docSlug onProgress r counts env w Hw)
      as [H1 H2]; [lia |].
    destruct (IH (tally r counts) env _ H1) as [H3 H4].
    { unfold tally. destruct (success r); simpl; lia. }
    split; [done |].
    rewrite (events_since_trans w
               (after_item sha docSlug jobId onProgress total r counts env w))
      by (apply after_item_extends || apply after_items_extends).
    rewrite snapshots_app, Forall_app. by split.
Qed.

Lemma after_chunks_holds load sha cfg docSlug onProgress cs :
  forall counts env w,
    job_holds w ->
    (fst counts + snd counts + length (concat cs) <= total)%nat ->
    let w' := snd (after_chunks load sha cfg docSlug jobId onProgress total
                                cs counts env w) in
    job_holds w' /\ Forall I (snapshots (events_since w w')).
Proof.
  induction cs as [| batch cs IH]; intros counts env w Hw Hle;
    cbn [after_chunks]; cbv zeta.
  - simpl. rewrite events_since_refl. split; [done | constructor].
  - cbn [concat] in Hle. rewrite length_app in Hle.
    set (w1 := record (EvPromiseAll batch) w).
    set (gets := page_requests env (timeoutMs cfg) (requests w1) docSlug batch).
    set (w2 := after_requests (length batch) gets w1).
    set (results := page_results load env (requests w1) docSlug batch).
    set (w3 := after_items sha docSlug jobId onProgress total results counts
                           env w2).
    set (w4 := match cs with
               | [] => w3
               | _ => record (EvDelay (delayMs cfg)) w3
               end).
    assert (Hlen : length results = length batch)
      by apply page_results_length.
    destruct (after_items_holds sha docSlug onProgress results counts env w2)
      as [H3 H3s]; [exact Hw | lia |]. fold w3 in H3, H3s.
    assert (H4 : job_holds w4) by (subst w4; destruct cs; exact H3).
    destruct (IH (tally_all results counts) env w4 H4) as [H5 H5s].
    { rewrite tally_all_counts. simpl.
      pose proof (succeeded_failures results). lia. }
    split; [done |].
    assert (E02 : extends w w2).
    { eapply extends_trans; [apply (record_extends (EvPromiseAll batch)) |].
      apply after_requests_extends. }
    assert (E23 : extends w2 w3) by apply after_items_extends.
    assert (E34 : extends w3 w4).
    { subst w4. destruct cs; [apply extends_refl | apply record_extends]. }
    rewrite (events_since_trans w w4);
      [| eauto using extends_trans | apply after_chunks_extends].
    rewrite (events_since_trans w w3) by eauto using extends_trans.
    rewrite (events_since_trans w w2) by done.
    rewrite !snapshots_app, !Forall_app. repeat split; try done.
    + assert (Hev : events_since w w2 = EvPromiseAll batch :: gets).
      { apply events_since_app. subst w2 w1. simpl.
        by rewrite <- app_assoc. }
      rewrite Hev. simpl. clear. subst gets. generalize (requests w1).
      induction batch as [| e b IHb]; intros n; [constructor | apply IHb].
    + subst w4. destruct cs; [rewrite events_since_refl; constructor |].
      rewrite record_events. constructor.
Qed.

End JobInvariant.

Lemma at_loop_start_events cfg docSlug jobId entries env w :
  let w0 := next_clock_read
              (record (EvGet (requests w) (index_url docSlug)
                             (timeoutMs cfg) true)
                      (next_request w)) in
  events_since w (at_loop_start cfg docSlug jobId entries env w)
  = EvGet (requests w) (index_url docSlug) (timeoutMs cfg) true
      :: update_events jobId
           (start_updates (length entries) (clock env (clock_reads w))) env w0.
Proof.
  intros w0. apply events_since_app. unfold at_loop_start.
  rewrite updated_log. simpl. by rewrite <- app_assoc.
Qed.

Lemma at_loop_start_extends cfg docSlug jobId entries env w :
  extends w (at_loop_start cfg docSlug jobId entries env w).
Proof.
  unfold at_loop_start. eapply extends_trans; [| apply updated_extends].
  by eexists [_].
Qed.

Lemma at_return_extends jobId env w : extends w (at_return jobId env w).
Proof.
  unfold at_return. eapply extends_trans; [| apply updated_extends].
  exists []. simpl. by rewrite app_nil_r.
Qed.

Lemma at_return_events jobId env w :
  events_since w (at_return jobId env w)
  = update_events jobId (complete_updates (clock env (clock_reads w))) env
                  (next_clock_read w).
Proof. apply events_since_app. unfold at_return. by rewrite updated_log. Qed.

(** The events of a whole run, stage by stage. *)
Lemma scrapeDoc_events load sha cfg fuel docSlug jobId onProgress env w entries :
  (0 < concurrency cfg)%Z ->
  (length entries <= fuel)%nat ->
  index_json env (requests w) (index_url docSlug) = Fetched entries ->
  let w1 := at_loop_start cfg docSlug jobId entries env w in
  let w2 := snd (after_chunks load sha cfg docSlug jobId onProgress
                              (length entries)
                              (chunks (Z.to_nat (concurrency cfg)) entries)
                              (0, 0)%nat env w1) in
  let w' := snd (scrapeDoc load sha cfg fuel docSlug jobId onProgress env w) in
  w' = at_return jobId env w2
  /\ events_since w w'
     = events_since w w1 ++ events_since w1 w2 ++ events_since w2 w'.
Proof.
  intros Hk Hfuel Hidx w1 w2 w'. subst w'.
  rewrite (scrapeDoc_run _ _ _ _ _ _ _ _ _ entries) by done. cbn [snd].
  fold w1. fold w2. split; [done |].
  assert (E1 : extends w w1) by apply at_loop_start_extends.
  assert (E2 : extends w1 w2) by apply after_chunks_extends.
  assert (E3 : extends w2 (at_return jobId env w2)) by apply at_return_extends.
  rewrite (events_since_trans w w2) by eauto using extends_trans.
  rewrite (events_since_trans w w1) by done.
  by rewrite <- app_assoc.
Qed.

Lemma job_consistent_run load sha cfg fuel docSlug jobId onProgress env w
      entries :
  (0 < concurrency cfg)%Z ->
  (length entries <= fuel)%nat ->
  index_json env (requests w) (index_url docSlug) = Fetched entries ->
  jobs w !! jobId = Some createJob ->
  let applied := match store_fault env (store_ops w) with
                 | None => true
                 | Some _ => false
                 end in
  let w' := snd (scrapeDoc load sha cfg fuel docSlug jobId onProgress env w) in
  job_holds jobId (job_consistent (length entries) applied) w'
  /\ Forall (job_consistent (length entries) applied)
            (snapshots (events_since w w')).
Proof.
  intros Hk Hfuel Hidx Hjob applied w'.
  destruct (scrapeDoc_events load sha cfg fuel docSlug jobId onProgress env w
              entries Hk Hfuel Hidx) as [Hw' Hev].
  fold w' in Hw', Hev.
  set (w1 := at_loop_start cfg docSlug jobId entries env w) in *.
  set (w2 := snd (after_chunks load sha cfg docSlug jobId onProgress
                               (length entries)
                               (chunks (Z.to_nat (concurrency cfg)) entries)
                               (0, 0)%nat env w1)) in *.
  set (I := job_consistent (length entries) applied).
  set (w0 := next_clock_read
               (record (EvGet (requests w) (index_url docSlug)
                              (timeoutMs cfg) true)
                       (next_request w))).
  (* the write that sets the total *)
  assert (H1 : job_holds jobId I w1
               /\ Forall I (snapshots (events_since w w1))).
  { unfold w1. rewrite at_loop_start_events. fold w0.
    change (snapshots (EvGet _ _ _ _ :: ?l)) with (snapshots l).
    unfold at_loop_start. fold w0.
    destruct (updated_job jobId
                (start_updates (length entries) (clock env (clock_reads w)))
                env w0) as (Hj & Hs & _).
    change (store_ops w0) with (store_ops w) in Hj.
    change (jobs w0) with (jobs w) in Hj.
    assert (Hrow : jobs (updated jobId
                           (start_updates (length entries)
                                          (clock env (clock_reads w))) env w0)
                   !! jobId
                   = Some (if applied
                           then merge (start_updates (length entries)
                                                     (clock env (clock_reads w)))
                                      createJob
                           else createJob)).
    { rewrite Hj. subst applied. destruct (store_fault env (store_ops w)).
      - exact Hjob.
      - rewrite lookup_alter_eq, Hjob. reflexivity. }
    assert (HI : I (if applied
                    then merge (start_updates (length entries)
                                              (clock env (clock_reads w)))
                               createJob
                    else createJob)).
    { subst I. destruct applied;
        [apply start_consistent | apply createJob_consistent]. }
    split.
    - intros j. rewrite Hrow. by intros [= <-].
    - rewrite Hs, Hrow. apply List.Forall_cons; [exact HI | apply List.Forall_nil]. }
  destruct H1 as [H1 H1s].
  (* the loop *)
  destruct (after_chunks_holds (length entries) jobId I
              ltac:(intros; by apply item_consistent)
              load sha cfg docSlug onProgress
              (chunks (Z.to_nat (concurrency cfg)) entries) (0, 0)%nat env w1 H1)
    as [H2 H2s].
  { rewrite concat_chunks by lia. simpl. lia. }
  fold w2 in H2, H2s.
  (* the write that completes the job *)
  destruct (updated_holds jobId I
              (complete_updates (clock env (clock_reads w2))) env
              (next_clock_read w2)) as [H3 H3s]; [exact H2 | done |].
  split.
  - rewrite Hw'. exact H3.
  - rewrite Hev, !snapshots_app, !Forall_app. repeat split; try done.
    rewrite Hw', at_return_events. exact H3s.
Qed.


(* ===================================================================== *)
(** ** The job row when the store applies every write *)
(* ===================================================================== *)

Lemma alter_item_updates_twice total c1 c2 jobId (m : gmap string ScrapingJob) :
  alter (merge (item_updates total c2)) jobId
        (alter (merge (item_updates total c1)) jobId m)
  = alter (merge (item_updates total c2)) jobId m.
Proof.
  apply map_eq. intros i. destruct (decide (i = jobId)) as [-> | Hne].
  - rewrite !lookup_alter_eq. by destruct (m !! jobId).
  - by rewrite !lookup_alter_ne.
Qed.

Lemma after_item_jobs sha docSlug jobId onProgress total r counts env w :
  fault_free env ->
  jobs (after_item sha docSlug jobId onProgress total r counts env w)
  = alter (merge (item_updates total (tally r counts))) jobId (jobs w).
Proof.
  intros Hff. unfold after_item.
  set (w1 := if success r then saved sha r docSlug env w else w).
  assert (H1 : jobs w1 = jobs w).
  { subst w1. destruct (success r); [apply saved_frame | done]. }
  destruct (updated_job jobId (item_updates total (tally r counts)) env w1)
    as (Hj & _).
  rewrite Hff, H1 in Hj. by destruct onProgress.
Qed.

Lemma after_items_jobs sha docSlug jobId onProgress total results :
  forall counts env w,
    fault_free env ->
    jobs (after_items sha docSlug jobId onProgress total results counts env w)
    = match results with
      | [] => jobs w
      | _ => alter (merge (item_updates total (tally_all results counts)))
                   jobId (jobs w)
      end.
Proof.
  induction results as [| r rest IH]; intros counts env w Hff; [done |].
  cbn [after_items]. rewrite IH by done.
  rewrite after_item_jobs by done.
  destruct rest as [| r' rest']; [done |].
  apply alter_item_updates_twice.
Qed.

Lemma after_chunks_jobs load sha cfg docSlug jobId onProgress total cs :
  forall counts env w,
    fault_free env ->
    let out := after_chunks load sha cfg docSlug jobId onProgress total
                            cs counts env w in
    jobs (snd out)
    = match concat cs with
      | [] => jobs w
      | _ => alter (merge (item_updates total (fst out))) jobId (jobs w)
      end.
Proof.
  induction cs as [| batch cs IH]; intros counts env w Hff; [done |].
  cbn [after_chunks concat]. cbv zeta.
  set (w1 := record (EvPromiseAll batch) w).
  remember (page_results load env (requests w1) docSlug batch) as results
    eqn:Hres.
  assert (Hlen : length results = length batch).
  { subst results. apply page_results_length. }
  set (w2 := after_requests (length batch) _ w1).
  set (w3 := after_items sha docSlug jobId onProgress total results counts
                         env w2).
  set (w4 := match cs with [] => w3 | _ => record _ w3 end).
  specialize (IH (tally_all results counts) env w4 Hff). cbv zeta in IH.
  rewrite IH.
  assert (H4 : jobs w4 = jobs w3) by (subst w4; destruct cs; done).
  assert (H3 : jobs w3 = match results with
                         | [] => jobs w
                         | _ => alter (merge (item_updates total
                                                (tally_all results counts)))
                                      jobId (jobs w)
                         end).
  { subst w3. rewrite after_items_jobs by done. done. }
  rewrite H4, H3. clear Hres.
  destruct batch as [| e batch]; destruct results as [| r rs];
    try discriminate Hlen.
  - reflexivity.
  - cbn [app].
    destruct (concat cs) eqn:Hcs.
    + assert (Hout : fst (after_chunks load sha cfg docSlug jobId onProgress
                            total cs (tally_all (r :: rs) counts) env w4)
                     = tally_all (r :: rs) counts).
      { destruct (after_chunks_counts load sha cfg docSlug jobId onProgress
                    total cs (tally_all (r :: rs) counts) env w4)
          as [Hc _].
        cbv zeta in Hc. rewrite Hc, Hcs. reflexivity. }
      rewrite Hout. reflexivity.
    + apply alter_item_updates_twice.
Qed.

(** The row a run leaves, when it started from a new row and no write
    was lost. *)
Lemma final_job_row load sha cfg fuel docSlug jobId onProgress env w entries :
  (0 < concurrency cfg)%Z ->
  (length entries <= fuel)%nat ->
  index_json env (requests w) (index_url docSlug) = Fetched entries ->
  jobs w !! jobId = Some createJob ->
  fault_free env ->
  let results := page_results load env (S (requests w)) docSlug entries in
  let w' := snd (scrapeDoc load sha cfg fuel docSlug jobId onProgress env w) in
  exists j,
    jobs w' !! jobId = Some j
    /\ status j = Completed
    /\ total_urls j = length entries
    /\ urls_processed j = length entries
    /\ urls_failed j = failures results
    /\ items_scraped j = succeeded results
    /\ items_new j = 0%nat /\ items_updated j = 0%nat
    /\ items_unchanged j = 0%nat
    /\ error_message j = None.
Proof.
  intros Hk Hfuel Hidx Hjob Hff results w'.
  destruct (scrapeDoc_events load sha cfg fuel docSlug jobId onProgress env w
              entries Hk Hfuel Hidx) as [Hw' _].
  fold w' in Hw'. rewrite Hw'.
  set (k := Z.to_nat (concurrency cfg)) in *.
  set (w1 := at_loop_start cfg docSlug jobId entries env w) in *.
  set (out := after_chunks load sha cfg docSlug jobId onProgress
                           (length entries) (chunks k entries) (0, 0)%nat
                           env w1) in *.
  assert (Hcounts : fst out = (succeeded results, failures results)).
  { destruct (after_chunks_counts load sha cfg docSlug jobId onProgress
                (length entries) (chunks k entries) (0, 0)%nat env w1)
      as [Hc _].
    fold out in Hc. rewrite Hc, concat_chunks by (subst k; lia).
    unfold w1. rewrite at_loop_start_requests, tally_all_counts. done. }
  assert (H1 : jobs w1 !! jobId
               = Some (merge (start_updates (length entries)
                                            (clock env (clock_reads w)))
                             createJob)).
  { unfold w1, at_loop_start.
    match goal with
    | |- jobs (updated ?i ?u ?e ?w0) !! _ = _ =>
        destruct (updated_job i u e w0) as (Hj & _); rewrite Hj, Hff
    end.
    simpl. rewrite lookup_alter_eq, Hjob. reflexivity. }
  pose proof (after_chunks_jobs load sha cfg docSlug jobId onProgress
                (length entries) (chunks k entries) (0, 0)%nat env w1 Hff)
    as H2.
  cbv zeta in H2. fold out in H2.
  rewrite concat_chunks in H2 by (subst k; lia). rewrite Hcounts in H2.
  unfold at_return.
  match goal with
  | |- exists j, jobs (updated ?i ?u ?e ?w0) !! _ = _ /\ _ =>
      destruct (updated_job i u e w0) as (Hj & _); rewrite Hj, Hff
  end.
  simpl. rewrite lookup_alter_eq, H2.
  pose proof (succeeded_failures results) as Hsf.
  assert (Hlen : length results = length entries).
  { subst results. apply page_results_length. }
  destruct entries as [| e entries'] eqn:He.
  - rewrite H1. eexists. split; [reflexivity |]. simpl. repeat split.
  - rewrite lookup_alter_eq, H1. eexists. split; [reflexivity |].
    simpl in *. repeat split; lia.
Qed.

(* ===================================================================== *)
(** ** Failures: of a page, of a store operation, of the index *)
(* ===================================================================== *)

Lemma failures_rejected load env docSlug l : forall n,
  failures (page_results load env n docSlug l) = rejected_pages env n docSlug l.
Proof.
  unfold failures. induction l as [| e l IH]; intros n; [done |].
  cbn [page_results rejected_pages]. unfold page_result.
  destruct (page_html env n (Extract.page_url docSlug e)); simpl;
    by rewrite IH.
Qed.

Lemma save_events_no_progress evs :
  Forall (fun e => is_save_event e = true) evs ->
  List.filter is_progress_write evs = [].
Proof.
  induction 1 as [| e evs He _ IH]; [done |].
  destruct e; simpl in He; try discriminate; exact IH.
Qed.

Lemma after_item_progress sha docSlug jobId onProgress total r counts env w :
  length (List.filter is_progress_write
            (events_since w (after_item sha docSlug jobId onProgress total
                                        r counts env w))) = 1%nat.
Proof.
  rewrite (events_since_app _ _ _ (after_item_log _ _ _ _ _ _ _ _ _)).
  rewrite !List.filter_app, !length_app.
  rewrite (save_events_no_progress _ (item_saved_events sha docSlug r env w)).
  unfold update_events.
  destruct (store_fault env _), onProgress; reflexivity.
Qed.

Lemma after_items_progress sha docSlug jobId onProgress total results :
  forall counts env w,
    length (List.filter is_progress_write
              (events_since w (after_items sha docSlug jobId onProgress total
                                           results counts env w)))
    = length results.
Proof.
  induction results as [| r rest IH]; intros counts env w; cbn [after_items].
  - by rewrite events_since_refl.
  - rewrite (events_since_trans w
               (after_item sha docSlug jobId onProgress total r counts env w))
      by (apply after_item_extends || apply after_items_extends).
    rewrite List.filter_app, length_app, after_item_progress, IH. done.
Qed.

Lemma page_requests_no_progress env timeout docSlug l : forall n,
  List.filter is_progress_write (page_requests env timeout n docSlug l) = [].
Proof. induction l as [| e l IH]; intros n; [done |]. apply IH. Qed.

Lemma after_chunks_progress load sha cfg docSlug jobId onProgress total cs :
  forall counts env w,
    length (List.filter is_progress_write
              (events_since w (snd (after_chunks load sha cfg docSlug jobId
                                       onProgress total cs counts env w))))
    = length (concat cs).
Proof.
  induction cs as [| batch cs IH]; intros counts env w.
  - simpl. by rewrite events_since_refl.
  - cbn [after_chunks concat]. cbv zeta.
    set (w1 := record (EvPromiseAll batch) w).
    set (gets := page_requests env (timeoutMs cfg) (requests w1) docSlug batch).
    set (w2 := after_requests (length batch) gets w1).
    set (results := page_results load env (requests w1) docSlug batch).
    set (w3 := after_items sha docSlug jobId onProgress total results counts
                           env w2).
    set (w4 := match cs with
               | [] => w3
               | _ => record (EvDelay (delayMs cfg)) w3
               end).
    assert (E02 : extends w w2).
    { eapply extends_trans; [apply (record_extends (EvPromiseAll batch)) |].
      apply after_requests_extends. }
    assert (E23 : extends w2 w3) by apply after_items_extends.
    assert (E34 : extends w3 w4).
    { subst w4. destruct cs; [apply extends_refl | apply record_extends]. }
    rewrite (events_since_trans w w4);
      [| eauto using extends_trans | apply after_chunks_extends].
    rewrite (events_since_trans w w3) by eauto using extends_trans.
    rewrite (events_since_trans w w2) by done.
    rewrite !List.filter_app, !length_app, IH.
    unfold w3 at 1. rewrite after_items_progress.
    assert (Hev : events_since w w2 = EvPromiseAll batch :: gets).
    { apply events_since_app. subst w2 w1. simpl. by rewrite <- app_assoc. }
    rewrite Hev. cbn [List.filter is_progress_write].
    unfold gets. rewrite page_requests_no_progress.
    assert (H34 : List.filter is_progress_write (events_since w3 w4) = []).
    { subst w4. destruct cs; [by rewrite events_since_refl |].
      by rewrite record_events. }
    rewrite H34. unfold results. rewrite page_results_length. simpl. lia.
Qed.

Lemma update_events_shape jobId updates env w :
  exists thrown after,
    update_events jobId updates env w
    = EvJob jobId updates thrown after
        :: (if thrown then [EvConsoleError "Error updating job"] else []).
Proof.
  unfold update_events. destruct (store_fault env (store_ops w));
    [by exists true, (jobs w !! jobId) | by eexists false, _].
Qed.

(** A run whose index request is answered ends with the write that marks
    the job completed, and has written the progress once per page. *)
Lemma scrapeDoc_outcomes load sha cfg fuel docSlug jobId onProgress env w
      entries :
  (0 < concurrency cfg)%Z ->
  (length entries <= fuel)%nat ->
  index_json env (requests w) (index_url docSlug) = Fetched entries ->
  let w' := snd (scrapeDoc load sha cfg fuel docSlug jobId onProgress env w) in
  length (List.filter is_progress_write (events_since w w')) = length entries
  /\ exists before finished thrown after,
      events_since w w'
      = before ++ EvJob jobId (complete_updates finished) thrown after
          :: (if thrown then [EvConsoleError "Error updating job"] else []).
Proof.
  intros Hk Hfuel Hidx w'.
  destruct (scrapeDoc_events load sha cfg fuel docSlug jobId onProgress env w
              entries Hk Hfuel Hidx) as [Hw' Hev].
  fold w' in Hw', Hev. rewrite Hev.
  set (w1 := at_loop_start cfg docSlug jobId entries env w) in *.
  set (w2 := snd (after_chunks load sha cfg docSlug jobId onProgress
                               (length entries)
                               (chunks (Z.to_nat (concurrency cfg)) entries)
                               (0, 0)%nat env w1)) in *.
  rewrite Hw'. rewrite at_return_events.
  destruct (update_events_shape jobId
              (complete_updates (clock env (clock_reads w2))) env
              (next_clock_read w2)) as (thrown & after & Hlast).
  split.
  - rewrite !List.filter_app, !length_app.
    unfold w2 at 1. rewrite after_chunks_progress, concat_chunks by lia.
    unfold w1 at 1. rewrite at_loop_start_events. rewrite Hlast.
    destruct (update_events_shape jobId
                (start_updates (length entries) (clock env (clock_reads w))) env
                (next_clock_read
                   (record (EvGet (requests w) (index_url docSlug)
                                  (timeoutMs cfg) true) (next_request w))))
      as (thrown0 & after0 & ->).
    destruct thrown, thrown0; simpl; lia.
  - exists (events_since w w1 ++ events_since w1 w2),
      (clock env (clock_reads w2)), thrown, after.
    by rewrite Hlast, <- app_assoc.
Qed.

(** C10.  Writes to the two stores are best-effort: [updateJob] and
    [saveContent] return normally whatever the store does, so that a run
    whose index request is answered always returns - with the number of
    pages fetched, the number of pages not fetched and the number of
    pages as its counts, none of which depends on the store - and the last
    thing it does is the write that marks the job completed. *)
Theorem store_outage_never_escapes load sha cfg fuel docSlug jobId onProgress
        env w entries :
  (0 < concurrency cfg)%Z ->
  (length entries <= fuel)%nat ->
  index_json env (requests w) (index_url docSlug) = Fetched entries ->
  let results := page_results load env (S (requests w)) docSlug entries in
  let run := scrapeDoc load sha cfg fuel docSlug jobId onProgress env w in
  (forall jobId' updates env' w0,
      fst (updateJob jobId' updates env' w0) = Return tt)
  /\ (forall r docSlug' env' w0,
         fst (saveContent sha r docSlug' env' w0) = Return tt)
  /\ fst run = Return (Summary.make (succeeded results) (failures results)
                                    (length entries))
  /\ exists before finished thrown after,
      events_since w (snd run)
      = before ++ EvJob jobId (complete_updates finished) thrown after
          :: (if thrown then [EvConsoleError "Error updating job"] else []).
Proof.
  intros Hk Hfuel Hidx results run. split; [| split; [| split]].
  - intros. apply updateJob_returns.
  - intros. apply saveContent_returns.
  - by apply scrapeDoc_summary.
  - by apply (scrapeDoc_outcomes load sha cfg fuel docSlug jobId onProgress
                                 env w entries).
Qed.


(** C6, as the code has it.  A page that was fetched counts as a success
    whatever happens to its write: [saveContent] swallows the error, the
    success counter is incremented, the failed counter is not, and the
    loop goes on with the other results. *)
Theorem failed_write_counts_as_success sha docSlug jobId onProgress total
        r rest counts env w :
  success r = true ->
  let w1 := after_item sha docSlug jobId onProgress total r counts env w in
  fst (saveContent sha r docSlug env w) = Return tt
  /\ saveResults sha docSlug jobId onProgress total (r :: rest) counts env w
     = saveResults sha docSlug jobId onProgress total rest
                   (S (fst counts), snd counts) env w1
  /\ fst (saveResults sha docSlug jobId onProgress total (r :: rest)
                      counts env w)
     = Return (S (fst counts) + succeeded rest, snd counts + failures rest)%nat.
Proof.
  intros Hr w1. split; [apply saveContent_returns |].
  rewrite !saveResults_run. cbn [after_items tally_all fold_left fst].
  fold (tally_all rest (tally r counts)). unfold tally. rewrite Hr.
  split; [reflexivity |]. by rewrite tally_all_counts.
Qed.

(** C2, as the code has it.  When the request for the index is rejected,
    [getDocEntries] logs and rethrows and [scrapeDoc] throws the same error
    on to its caller before it has done anything else: the jobs table and
    the content table are as they were (the job is still as it was
    created: [pending], total 0, no error message), no store operation was
    issued and no page was requested. *)
Theorem rejected_index_is_rethrown load sha cfg fuel docSlug jobId onProgress
        env w t :
  index_json env (requests w) (index_url docSlug) = Rejected t ->
  let run := scrapeDoc load sha cfg fuel docSlug jobId onProgress env w in
  fst run = Throw t
  /\ jobs (snd run) = jobs w
  /\ knowledge_content (snd run) = knowledge_content w
  /\ store_ops (snd run) = store_ops w
  /\ events_since w (snd run)
     = [EvGet (requests w) (index_url docSlug) (timeoutMs cfg) false;
        EvConsoleError ("Error fetching entries for " +:+ docSlug)].
Proof.
  intros Hidx run.
  assert (Hrun : run
                 = (Throw t,
                    record (EvConsoleError
                              ("Error fetching entries for " +:+ docSlug))
                           (record (EvGet (requests w) (index_url docSlug)
                                          (timeoutMs cfg) false)
                                   (next_request w)))).
  { unfold run, scrapeDoc, bind at 1, getDocEntries, try_catch, axios_get.
    fold (index_url docSlug). rewrite Hidx. reflexivity. }
  rewrite Hrun. repeat split.
  apply events_since_app. simpl. by rewrite <- app_assoc.
Qed.

(* ===================================================================== *)
(** ** The dedup decision *)
(* ===================================================================== *)

Lemma same_hash_spec existing h :
  same_hash existing h = true
  <-> exists row, existing = Some row /\ row_content_hash row = Some h.
Proof.
  unfold same_hash. split.
  - destruct existing as [row |]; [| done].
    destruct (row_content_hash row) as [h' |] eqn:E; [| done].
    intros Heq. apply String.eqb_eq in Heq. subst. eauto.
  - intros (row & -> & ->). apply String.eqb_refl.
Qed.


(* ===================================================================== *)
(** ** A second run over unchanged pages *)
(* ===================================================================== *)

Lemma updated_store jobId updates env w :
  knowledge_content (updated jobId updates env w) = knowledge_content w
  /\ resolved_source (updated jobId updates env w) = resolved_source w
  /\ List.filter is_content_write (update_events jobId updates env w) = [].
Proof.
  destruct (updated_job jobId updates env w) as (_ & _ & _ & Hkc & Hrs).
  repeat split; try done.
  unfold update_events. by destruct (store_fault env (store_ops w)).
Qed.

Lemma stored_ext sha w w' r :
  knowledge_content w' = knowledge_content w -> stored sha w r -> stored sha w' r.
Proof. unfold stored. by intros ->. Qed.

(** Saving a result stores it, and keeps what was stored for results
    that have another address or the same body. *)
Lemma saved_stores sha r docSlug env w source_id :
  fault_free env ->
  resolved_source w = Some source_id ->
  let w' := saved sha r docSlug env w in
  stored sha w' r
  /\ forall r', stored sha w r' ->
                (url r' = url r -> content r' = content r) ->
                stored sha w' r'.
Proof.
  intros Hff Hsrc w'.
  destruct (saved_fault_free sha r docSlug env w Hff) as (evs & _ & Hdec).
  rewrite Hsrc in Hdec. destruct Hdec as [Hkc _]. fold w' in Hkc.
  unfold stored. rewrite Hkc.
  destruct (same_hash (knowledge_content w !! url r) (sha (content r))) eqn:Hs.
  - split; [exact Hs | auto].
  - split.
    + rewrite lookup_insert_eq. simpl. apply String.eqb_refl.
    + intros r' Hr' Hsame. destruct (decide (url r' = url r)) as [Heq | Hne].
      * rewrite Heq, lookup_insert_eq, (Hsame Heq). simpl.
        apply String.eqb_refl.
      * by rewrite lookup_insert_ne.
Qed.

(** Saving a stored result, or saving without a source id, writes
    nothing. *)
Lemma saved_idle sha r docSlug env w :
  fault_free env ->
  resolved_source w = None \/ stored sha w r ->
  let w' := saved sha r docSlug env w in
  knowledge_content w' = knowledge_content w
  /\ List.filter is_content_write (events_since w w') = [].
Proof.
  intros Hff Hcase w'.
  destruct (saved_fault_free sha r docSlug env w Hff) as (evs & Hlog & Hdec).
  fold w' in Hlog, Hdec. rewrite (events_since_app _ _ _ Hlog).
  destruct (resolved_source w) as [source_id |] eqn:Hsrc; [| done].
  destruct Hcase as [| Hst]; [done |].
  unfold stored in Hst. unfold write_for in Hdec. by rewrite Hst in Hdec.
Qed.

Lemma maybe_record_frame (b : bool) e w :
  knowledge_content (if b then record e w else w) = knowledge_content w
  /\ resolved_source (if b then record e w else w) = resolved_source w
  /\ jobs (if b then record e w else w) = jobs w.
Proof. by destruct b. Qed.

Section Universe.

(** [U] is a set of results in which the address determines the body. *)
Variable sha : string -> string.
Variable U : ScrapeResult -> Prop.
Hypothesis U_consistent : forall r r',
    U r -> U r' -> url r = url r' -> content r = content r'.

Variable env : Env.
Hypothesis Hff : fault_free env.

Local Abbreviation all_stored := (all_stored sha U).

Lemma after_item_stores docSlug jobId onProgress total r counts w source_id
      (D : ScrapeResult -> Prop) :
  resolved_source w = Some source_id ->
  U r ->
  all_stored D w ->
  let w' := after_item sha docSlug jobId onProgress total r counts env w in
  resolved_source w' = Some source_id
  /\ all_stored (fun x => D x \/ x = r) w'.
Proof.
  intros Hsrc Hr HD w'.
  set (w1 := item_saved sha docSlug r env w).
  destruct (updated_store jobId (item_updates total (tally r counts)) env w1)
    as (Hkc & Hrs & _).
  assert (Hkc' : knowledge_content w' = knowledge_content w1).
  { subst w'. unfold after_item. fold (item_saved sha docSlug r env w).
    fold w1. by destruct onProgress. }
  assert (Hrs' : resolved_source w' = resolved_source w1).
  { subst w'. unfold after_item. fold (item_saved sha docSlug r env w).
    fold w1. by destruct onProgress. }
  assert (H1 : resolved_source w1 = Some source_id
               /\ all_stored (fun x => D x \/ x = r) w1).
  { subst w1. unfold item_saved. destruct (success r) eqn:Hs.
    - destruct (saved_stores sha r docSlug env w source_id Hff Hsrc)
        as [Hnew Hold].
      split.
      + destruct (saved_frame sha r docSlug env w)
          as (_ & _ & _ & _ & -> & _). done.
      + intros x [Hx | ->] HU Hsx; [| done].
        apply Hold; [by apply HD |]. intros Hu. by apply U_consistent.
    - split; [done |]. intros x [Hx | ->] HU Hsx; [by apply HD | congruence]. }
  destruct H1 as [H1 H2]. split; [congruence |].
  intros x Hx HU Hsx. eapply stored_ext; [exact Hkc' | by apply H2].
Qed.

Lemma after_items_stores docSlug jobId onProgress total source_id results :
  forall counts w (D : ScrapeResult -> Prop),
    resolved_source w = Some source_id ->
    Forall U results ->
    all_stored D w ->
    let w' := after_items sha docSlug jobId onProgress total results
                          counts env w in
    resolved_source w' = Some source_id
    /\ all_stored (fun x => D x \/ x ∈ results) w'.
Proof.
  induction results as [| r rest IH]; intros counts w D Hsrc HU HD;
    cbn [after_items]; cbv zeta.
  - split; [done |]. intros x [Hx | Hx]; [by apply HD | by inversion Hx].
  - inversion HU as [| ? ? Hr Hrest]; subst.
    destruct (after_item_stores docSlug jobId onProgress total r counts w
                source_id D Hsrc Hr HD) as [H1 H2].
    destruct (IH (tally r counts) _ _ H1 Hrest H2) as [H3 H4].
    split; [done |]. intros x Hx. apply H4.
    destruct Hx as [Hx | Hx]; [by left; left |].
    apply elem_of_cons in Hx as [-> | Hx]; [by left; right | by right].
Qed.

Lemma after_item_idle docSlug jobId onProgress total r counts w :
  resolved_source w = None \/ (success r = true -> stored sha w r) ->
  let w' := after_item sha docSlug jobId onProgress total r counts env w in
  knowledge_content w' = knowledge_content w
  /\ resolved_source w' = resolved_source w
  /\ List.filter is_content_write (events_since w w') = [].
Proof.
  intros Hcase w'. subst w'.
  rewrite (events_since_app _ _ _ (after_item_log _ _ _ _ _ _ _ _ _)).
  set (w1 := item_saved sha docSlug r env w).
  destruct (updated_store jobId (item_updates total (tally r counts)) env w1)
    as (Hkc & Hrs & Hwr).
  assert (H1 : knowledge_content w1 = knowledge_content w
               /\ resolved_source w1 = resolved_source w
               /\ List.filter is_content_write (events_since w w1) = []).
  { subst w1. unfold item_saved. destruct (success r) eqn:Hs.
    - destruct (saved_idle sha r docSlug env w Hff) as [Ha Hb].
      { destruct Hcase as [| Hst]; [by left | right; by apply Hst]. }
      destruct (saved_frame sha r docSlug env w)
        as (_ & _ & _ & _ & Hc & _). done.
    - by rewrite events_since_refl. }
  destruct H1 as (Ha & Hb & Hc).
  unfold after_item. fold (item_saved sha docSlug r env w). fold w1.
  rewrite !List.filter_app, Hc, Hwr.
  match goal with
  | |- context [if onProgress then record ?e ?x else ?x] =>
      destruct (maybe_record_frame onProgress e x) as (-> & -> & _)
  end.
  split; [congruence | split; [congruence |]].
  by destruct onProgress.
Qed.

Lemma after_items_idle docSlug jobId onProgress total results :
  forall counts w,
    resolved_source w = None
    \/ (forall r, r ∈ results -> success r = true -> stored sha w r) ->
    let w' := after_items sha docSlug jobId onProgress total results
                          counts env w in
    knowledge_content w' = knowledge_content w
    /\ resolved_source w' = resolved_source w
    /\ List.filter is_content_write (events_since w w') = [].
Proof.
  induction results as [| r rest IH]; intros counts w Hcase;
    cbn [after_items]; cbv zeta.
  - by rewrite events_since_refl.
  - destruct (after_item_idle docSlug jobId onProgress total r counts w)
      as (Ha & Hb & Hc).
    { destruct Hcase as [| Hst]; [by left | right].
      apply Hst. by left. }
    destruct (IH (tally r counts)
                 (after_item sha docSlug jobId onProgress total r counts env w))
      as (Hd & He & Hf).
    { destruct Hcase as [Hn | Hst]; [left; congruence | right].
      intros x Hx Hsx. eapply stored_ext; [exact Ha |].
      apply Hst; [by right | done]. }
    rewrite (events_since_trans w
               (after_item sha docSlug jobId onProgress total r counts env w))
      by (apply after_item_extends || apply after_items_extends).
    rewrite List.filter_app, Hc, Hf. repeat split; congruence.
Qed.

End Universe.

Lemma page_result_url load env n docSlug e :
  url (page_result load env n docSlug e) = Extract.page_url docSlug e.
Proof.
  unfold page_result.
  by destruct (page_html env n (Extract.page_url docSlug e)).
Qed.

Lemma page_result_stable load env docSlug e n m :
  stable_pages env ->
  page_result load env n docSlug e = page_result load env m docSlug e.
Proof. intros Hst. unfold page_result. by rewrite (Hst n m). Qed.

Lemma page_results_stable load env docSlug l : forall n,
  stable_pages env ->
  page_results load env n docSlug l = map (page_result load env 0 docSlug) l.
Proof.
  induction l as [| e l IH]; intros n Hst; [done |].
  cbn [page_results map]. rewrite IH by done.
  by rewrite (page_result_stable load env docSlug e n 0).
Qed.

(** With stable pages the address of a result determines its body. *)
Lemma page_results_consistent load env docSlug n n' e e' :
  stable_pages env ->
  url (page_result load env n docSlug e)
  = url (page_result load env n' docSlug e') ->
  content (page_result load env n docSlug e)
  = content (page_result load env n' docSlug e').
Proof.
  intros Hst. rewrite !page_result_url. intros Hurl.
  unfold page_result. rewrite Hurl, (Hst n n').
  by destruct (page_html env n' (Extract.page_url docSlug e')).
Qed.

Section TwoRuns.

Variable load : string -> list node.
Variable sha : string -> string.
Variable cfg : ScraperConfig.
Variable docSlug : string.
Variable env : Env.
Hypothesis Hff : fault_free env.
Hypothesis Hstable : stable_pages env.

Local Abbreviation result_of := (page_result load env 0 docSlug).
Local Abbreviation U := (fun r => exists e, r = result_of e).
Local Abbreviation all_stored := (all_stored sha U).

Lemma U_consistent r r' :
  U r -> U r' -> url r = url r' -> content r = content r'.
Proof.
  intros [e ->] [e' ->]. by apply page_results_consistent.
Qed.

Lemma after_chunks_stores jobId onProgress total source_id cs :
  forall counts w (D : ScrapeResult -> Prop),
    resolved_source w = Some source_id ->
    all_stored D w ->
    let w' := snd (after_chunks load sha cfg docSlug jobId onProgress total
                                cs counts env w) in
    resolved_source w' = Some source_id
    /\ all_stored (fun x => D x \/ x ∈ map result_of (concat cs)) w'.
Proof.
  induction cs as [| batch cs IH]; intros counts w D Hsrc HD;
    cbn [after_chunks concat]; cbv zeta.
  - split; [done |]. intros x [Hx | Hx]; [by apply HD | by inversion Hx].
  - set (w1 := record (EvPromiseAll batch) w).
    rewrite (page_results_stable load env docSlug batch (requests w1))
      by done.
    set (results := map result_of batch).
    set (w2 := after_requests (length batch) _ w1).
    set (w3 := after_items sha docSlug jobId onProgress total results counts
                           env w2).
    set (w4 := match cs with [] => w3 | _ => record _ w3 end).
    destruct (after_items_stores sha U U_consistent env Hff docSlug jobId
                onProgress total source_id results counts w2 D)
      as [H3 H3s]; [exact Hsrc | | exact HD |].
    { subst results. apply Forall_forall. intros x Hx.
      apply list_elem_of_fmap in Hx as (e & -> & _). by exists e. }
    fold w3 in H3, H3s.
    assert (H4 : resolved_source w4 = Some source_id
                 /\ all_stored (fun x => D x \/ x ∈ results) w4).
    { subst w4. destruct cs; [done |]. split; [exact H3 |].
      intros x Hx HU Hs. eapply stored_ext; [| by apply H3s]. done. }
    destruct H4 as [H4 H4s].
    destruct (IH (tally_all results counts) w4 _ H4 H4s) as [H5 H5s].
    split; [exact H5 |].
    intros x Hx. apply H5s. destruct Hx as [Hx | Hx]; [by left; left |].
    rewrite map_app in Hx. apply elem_of_app in Hx as [Hx | Hx];
      [by left; right | by right].
Qed.

Lemma after_chunks_idle jobId onProgress total cs :
  forall counts w,
    resolved_source w = None
    \/ (forall r, r ∈ map result_of (concat cs) ->
                  success r = true -> stored sha w r) ->
    let w' := snd (after_chunks load sha cfg docSlug jobId onProgress total
                                cs counts env w) in
    knowledge_content w' = knowledge_content w
    /\ resolved_source w' = resolved_source w
    /\ List.filter is_content_write (events_since w w') = [].
Proof.
  induction cs as [| batch cs IH]; intros counts w Hcase;
    cbn [after_chunks concat]; cbv zeta.
  - simpl. by rewrite events_since_refl.
  - set (w1 := record (EvPromiseAll batch) w).
    rewrite (page_results_stable load env docSlug batch (requests w1))
      by done.
    set (results := map result_of batch).
    set (gets := page_requests env (timeoutMs cfg) (requests w1) docSlug batch).
    set (w2 := after_requests (length batch) gets w1).
    set (w3 := after_items sha docSlug jobId onProgress total results counts
                           env w2).
    set (w4 := match cs with
               | [] => w3
               | _ => record (EvDelay (delayMs cfg)) w3
               end).
    cbn [concat] in Hcase. rewrite map_app in Hcase.
    destruct (after_items_idle sha env Hff docSlug jobId onProgress total
                results counts w2) as (H3a & H3b & H3c).
    { destruct Hcase as [Hn | Hst]; [by left | right].
      intros r Hr Hs. apply (stored_ext sha w); [done |].
      apply Hst; [| done]. apply elem_of_app. by left. }
    fold w3 in H3a, H3b, H3c.
    assert (H4 : knowledge_content w4 = knowledge_content w
                 /\ resolved_source w4 = resolved_source w).
    { subst w4. destruct cs; split; first [exact H3a | exact H3b]. }
    destruct H4 as [H4a H4b].
    destruct (IH (tally_all results counts) w4) as (H5a & H5b & H5c).
    { destruct Hcase as [Hn | Hst]; [left; congruence | right].
      intros r Hr Hs. apply (stored_ext sha w); [done |].
      apply Hst; [| done]. apply elem_of_app. by right. }
    split; [congruence | split; [congruence |]].
    assert (E02 : extends w w2).
    { eapply extends_trans; [apply (record_extends (EvPromiseAll batch)) |].
      apply after_requests_extends. }
    assert (E23 : extends w2 w3) by apply after_items_extends.
    assert (E34 : extends w3 w4).
    { subst w4. destruct cs; [apply extends_refl | apply record_extends]. }
    rewrite (events_since_trans w w4);
      [| eauto using extends_trans | apply after_chunks_extends].
    rewrite (events_since_trans w w3) by eauto using extends_trans.
    rewrite (events_since_trans w w2) by done.
    rewrite !List.filter_app, H5c, H3c.
    assert (Hev : events_since w w2 = EvPromiseAll batch :: gets).
    { apply events_since_app. subst w2 w1. simpl. by rewrite <- app_assoc. }
    assert (Hgets : List.filter is_content_write gets = []).
    { subst gets. generalize (requests w1). clear.
      induction batch as [| e b IHb]; intros n; [done | apply IHb]. }
    rewrite Hev. cbn [List.filter is_content_write]. rewrite Hgets.
    subst w4. destruct cs; [by rewrite events_since_refl |].
    by rewrite record_events.
Qed.

End TwoRuns.

Lemma at_loop_start_store cfg docSlug jobId entries env w :
  let w' := at_loop_start cfg docSlug jobId entries env w in
  knowledge_content w' = knowledge_content w
  /\ resolved_source w' = resolved_source w
  /\ List.filter is_content_write (events_since w w') = [].
Proof.
  cbv zeta. rewrite at_loop_start_events. unfold at_loop_start.
  match goal with
  | |- context [updated ?i ?u ?e ?w0] =>
      destruct (updated_store i u e w0) as (-> & -> & Hwr)
  end.
  cbn [List.filter is_content_write]. by rewrite Hwr.
Qed.

Lemma at_return_store jobId env w :
  let w' := at_return jobId env w in
  knowledge_content w' = knowledge_content w
  /\ resolved_source w' = resolved_source w
  /\ List.filter is_content_write (events_since w w') = [].
Proof.
  cbv zeta. rewrite at_return_events. unfold at_return.
  match goal with
  | |- context [updated ?i ?u ?e ?w0] =>
      destruct (updated_store i u e w0) as (-> & -> & Hwr)
  end.
  by rewrite Hwr.
Qed.

(** C3, as the code has it.  When the pages do not change and the store
    applies every operation, a second run over the same index writes
    nothing to the content table: every page that is fetched is found
    unchanged and skipped, and the table stays as the first run left it.
    The job row of the second run ends [completed] with the total and the
    number of pages scraped; [scrapeDoc] never writes [items_new],
    [items_updated] or [items_unchanged], which stay 0. *)
Theorem second_run_writes_nothing load sha cfg fuel docSlug job1 job2
        onProgress env w entries :
  (0 < concurrency cfg)%Z ->
  (length entries <= fuel)%nat ->
  fault_free env ->
  stable_pages env ->
  (forall n, index_json env n (index_url docSlug) = Fetched entries) ->
  let w1 := snd (scrapeDoc load sha cfg fuel docSlug job1 onProgress env w) in
  let w1' := with_jobs (<[job2 := createJob]>) w1 in
  let run2 := scrapeDoc load sha cfg fuel docSlug job2 onProgress env w1' in
  let results := map (page_result load env 0 docSlug) entries in
  fst run2 = Return (Summary.make (succeeded results) (failures results)
                                  (length entries))
  /\ knowledge_content (snd run2) = knowledge_content w1
  /\ List.filter is_content_write (events_since w1' (snd run2)) = []
  /\ exists j,
      jobs (snd run2) !! job2 = Some j
      /\ status j = Completed
      /\ total_urls j = length entries
      /\ items_scraped j = succeeded results
      /\ items_new j = 0%nat /\ items_updated j = 0%nat
      /\ items_unchanged j = 0%nat.
Proof.
  intros Hk Hfuel Hff Hst Hidx w1 w1' run2 results.
  set (k := Z.to_nat (concurrency cfg)).
  assert (Hk' : (0 < k)%nat) by (subst k; lia).
  (* the first run *)
  destruct (scrapeDoc_events load sha cfg fuel docSlug job1 onProgress env w
              entries Hk Hfuel (Hidx _)) as [Hw1 _].
  fold w1 in Hw1. fold k in Hw1.
  set (s1 := at_loop_start cfg docSlug job1 entries env w) in *.
  set (l1 := snd (after_chunks load sha cfg docSlug job1 onProgress
                               (length entries) (chunks k entries)
                               (0, 0)%nat env s1)) in *.
  destruct (at_loop_start_store cfg docSlug job1 entries env w)
    as (_ & Hs1 & _). fold s1 in Hs1.
  destruct (at_return_store job1 env l1) as (Hr1a & Hr1b & _).
  rewrite <- Hw1 in Hr1a, Hr1b.
  assert (Hcase : resolved_source w1 = None
                  \/ (forall r, r ∈ results -> success r = true ->
                                stored sha w1 r)).
  { destruct (resolved_source w) as [source_id |] eqn:Hsrc.
    - right.
      destruct (after_chunks_stores load sha cfg docSlug env Hff Hst job1
                  onProgress (length entries) source_id (chunks k entries)
                  (0, 0)%nat s1 (fun _ => False))
        as [_ Hall]; [congruence | by intros ? [] |].
      fold l1 in Hall. rewrite concat_chunks in Hall by done.
      intros r Hr Hs. apply (stored_ext sha l1); [done |].
      apply Hall; [by right | | done].
      apply list_elem_of_fmap in Hr as (e & -> & _). by exists e.
    - left.
      destruct (after_chunks_idle load sha cfg docSlug env Hff Hst job1
                  onProgress (length entries) (chunks k entries)
                  (0, 0)%nat s1) as (_ & Hn & _); [left; congruence |].
      fold l1 in Hn. congruence. }
  (* the second run *)
  assert (Hidx2 : index_json env (requests w1') (index_url docSlug)
                  = Fetched entries) by apply Hidx.
  destruct (scrapeDoc_events load sha cfg fuel docSlug job2 onProgress env w1'
              entries Hk Hfuel Hidx2) as [Hw2 Hev2].
  fold run2 in Hw2, Hev2. fold k in Hw2, Hev2.
  set (s2 := at_loop_start cfg docSlug job2 entries env w1') in *.
  set (l2 := snd (after_chunks load sha cfg docSlug job2 onProgress
                               (length entries) (chunks k entries)
                               (0, 0)%nat env s2)) in *.
  destruct (at_loop_start_store cfg docSlug job2 entries env w1')
    as (Hs2a & Hs2b & Hs2c). fold s2 in Hs2a, Hs2b, Hs2c.
  change (knowledge_content w1') with (knowledge_content w1) in Hs2a.
  change (resolved_source w1') with (resolved_source w1) in Hs2b.
  destruct (after_chunks_idle load sha cfg docSlug env Hff Hst job2
              onProgress (length entries) (chunks k entries) (0, 0)%nat s2)
    as (Hl2a & Hl2b & Hl2c).
  { rewrite concat_chunks by done. fold results.
    destruct Hcase as [Hn | Hall]; [left; congruence | right].
    intros r Hr Hs. apply (stored_ext sha w1); [done | by apply Hall]. }
  fold l2 in Hl2a, Hl2b, Hl2c.
  destruct (at_return_store job2 env l2) as (Hr2a & _ & Hr2c).
  rewrite <- Hw2 in Hr2a, Hr2c.
  split; [| split; [| split]].
  - unfold run2.
    rewrite (scrapeDoc_summary _ _ _ _ _ _ _ _ _ entries) by done.
    by rewrite page_results_stable.
  - congruence.
  - rewrite Hev2, !List.filter_app, Hs2c, Hl2c, Hr2c. done.
  - destruct (final_job_row load sha cfg fuel docSlug job2 onProgress env w1'
                entries Hk Hfuel Hidx2) as (j & Hj & Hrest); [| done |].
    { simpl. apply lookup_insert_eq. }
    rewrite page_results_stable in Hrest by done. fold results in Hrest.
    exists j. fold run2 in Hj. tauto.
Qed.

(* ===================================================================== *)
(** ** The sample set: what the code does where a claim differs *)
(* ===================================================================== *)

(** C2 as stated fails: the index answers with HTTP 500, [scrapeDoc] throws,
    and the job row is still [pending] with no error message: nothing in
    the scraper moves it to [failed]. *)
Lemma rejected_index_leaves_the_job_pending :
  fst Sample.run_no_index
  = Throw (JsError "Request failed with status code 500")
  /\ exists j,
      jobs (snd Sample.run_no_index) !! "job-1" = Some j
      /\ status j = Pending
      /\ error_message j = None
      /\ total_urls j = 0%nat
      /\ status j <> Failed.
Proof.
  split; [vm_compute; reflexivity |].
  eexists. split; [vm_compute; reflexivity |].
  repeat split; try reflexivity. discriminate.
Qed.

(** C3 as stated fails: after a second run over an unchanged page the job
    row has a total of 1 but [items_unchanged] is still 0, because
    [scrapeDoc] never writes that column. *)
Lemma second_run_leaves_items_unchanged_at_zero :
  fst Sample.second_run = Return (Summary.make 1 0 1)
  /\ exists j,
      jobs (snd Sample.second_run) !! "job-2" = Some j
      /\ status j = Completed
      /\ total_urls j = 1%nat
      /\ items_new j = 0%nat
      /\ items_unchanged j = 0%nat
      /\ items_unchanged j <> total_urls j.
Proof.
  split; [vm_compute; reflexivity |].
  eexists. split; [vm_compute; reflexivity |].
  repeat split; try reflexivity. discriminate.
Qed.

(** C6 as stated fails: the insert of the only page throws, and the run
    counts the page as a success: the failed counter stays 0 in the value
    returned and in the job row, while nothing was stored. *)
Lemma failed_insert_is_counted_as_success :
  (exists row,
      List.filter is_content_write (log (snd Sample.run_insert_throws))
      = [EvInsert row true])
  /\ knowledge_content (snd Sample.run_insert_throws)
       !! "https://devdocs.io/react/hooks-state" = None
  /\ fst Sample.run_insert_throws = Return (Summary.make 1 0 1)
  /\ exists j,
      jobs (snd Sample.run_insert_throws) !! "job-1" = Some j
      /\ urls_failed j = 0%nat
      /\ items_scraped j = 1%nat
      /\ urls_failed j <> 1%nat.
Proof.
  split; [eexists; vm_compute; reflexivity |].
  split; [vm_compute; reflexivity |].
  split; [vm_compute; reflexivity |].
  eexists. split; [vm_compute; reflexivity |].
  repeat split; try reflexivity. discriminate.
Qed.


(* ===================================================================== *)
(** ** The sample set: the theorems at work *)
(* ===================================================================== *)

(** Each lemma below instantiates one of the theorems above on the sample
    set, with its hypotheses checked by computation. *)


Lemma rejected_index_is_rethrown_witness :
  index_json Sample.env_no_index (requests Sample.world) (index_url "react")
  = Rejected (JsError "Request failed with status code 500")
  /\ fst (scrapeDoc Sample.load Sample.digest Sample.config 3 "react" "job-1"
                    false Sample.env_no_index Sample.world)
     = Throw (JsError "Request failed with status code 500")
  /\ jobs (snd (scrapeDoc Sample.load Sample.digest Sample.config 3 "react"
                          "job-1" false Sample.env_no_index Sample.world))
     = jobs Sample.world.
Proof.
  assert (H1 : index_json Sample.env_no_index (requests Sample.world)
                          (index_url "react")
               = Rejected (JsError "Request failed with status code 500"))
    by reflexivity.
  split; [assumption |].
  destruct (rejected_index_is_rethrown Sample.load Sample.digest
              Sample.config 3 "react" "job-1" false Sample.env_no_index
              Sample.world _ H1) as (Ha & Hb & _).
  exact (conj Ha Hb).
Defined.

Lemma second_run_writes_nothing_witness :
  (0 < concurrency Sample.config)%Z
  /\ (length Sample.entries <= 3)%nat
  /\ fault_free Sample.env
  /\ stable_pages Sample.env
  /\ (forall n, index_json Sample.env n (index_url "react")
                = Fetched Sample.entries)
  /\ List.filter is_content_write
       (events_since
          (with_jobs (<["job-2" := createJob]>)
             (snd (scrapeDoc Sample.load Sample.digest Sample.config 3 "react"
                             "job-1" false Sample.env Sample.world)))
          (snd (scrapeDoc Sample.load Sample.digest Sample.config 3 "react"
                  "job-2" false Sample.env
                  (with_jobs (<["job-2" := createJob]>)
                     (snd (scrapeDoc Sample.load Sample.digest Sample.config 3
                                     "react" "job-1" false Sample.env
                                     Sample.world))))))
     = [].
Proof.
  assert (H1 : (0 < concurrency Sample.config)%Z) by (vm_compute; reflexivity).
  assert (H2 : (length Sample.entries <= 3)%nat) by (simpl; lia).
  assert (H3 : fault_free Sample.env) by (intros n; reflexivity).
  assert (H4 : stable_pages Sample.env) by (intros n m target; reflexivity).
  assert (H5 : forall n, index_json Sample.env n (index_url "react")
                         = Fetched Sample.entries) by (intros n; reflexivity).
  repeat (split; [assumption |]).
  exact (proj1 (proj2 (proj2
           (second_run_writes_nothing Sample.load Sample.digest Sample.config 3
              "react" "job-1" "job-2" false Sample.env Sample.world
              Sample.entries H1 H2 H3 H4 H5)))).
Defined.

Lemma batch_loop_groups_witness :
  (0 < concurrency Sample.config)%Z
  /\ (length Sample.entries <= 3)%nat
  /\ index_json Sample.env (requests Sample.world) (index_url "react")
     = Fetched Sample.entries
  /\ length (promise_all_batches
               (events_since Sample.world
                  (snd (scrapeDoc Sample.load Sample.digest Sample.config 3
                                  "react" "job-1" false Sample.env
                                  Sample.world))))
     = ceil_div (length Sample.entries)
                (Z.to_nat (concurrency Sample.config)).
Proof.
  assert (H1 : (0 < concurrency Sample.config)%Z) by (vm_compute; reflexivity).
  assert (H2 : (length Sample.entries <= 3)%nat) by (simpl; lia).
  assert (H3 : index_json Sample.env (requests Sample.world) (index_url "react")
               = Fetched Sample.entries) by reflexivity.
  repeat (split; [assumption |]).
  exact (proj1 (batch_loop_groups Sample.load Sample.digest Sample.config 3
                  "react" "job-1" false Sample.env Sample.world Sample.entries
                  H1 H2 H3)).
Defined.


Lemma failed_write_counts_as_success_witness :
  success Sample.state_result = true
  /\ fst (saveResults Sample.digest "react" "job-1" false 1
                      [Sample.state_result] (0, 0)%nat
                      Sample.env_insert_throws Sample.world_started)
     = Return (1, 0)%nat.
Proof.
  assert (H1 : success Sample.state_result = true) by reflexivity.
  split; [assumption |].
  exact (proj2 (proj2
           (failed_write_counts_as_success Sample.digest "react" "job-1" false
              1 Sample.state_result [] (0, 0)%nat Sample.env_insert_throws
              Sample.world_started H1))).
Defined.




Lemma store_outage_never_escapes_witness :
  (0 < concurrency Sample.config)%Z
  /\ (length Sample.entries <= 3)%nat
  /\ index_json Sample.env_store_down (requests Sample.world)
                (index_url "react") = Fetched Sample.entries
  /\ fst (scrapeDoc Sample.load Sample.digest Sample.config 3 "react" "job-1"
                    false Sample.env_store_down Sample.world)
     = Return (Summary.make
                 (succeeded (page_results Sample.load Sample.env_store_down
                                          (S (requests Sample.world)) "react"
                                          Sample.entries))
                 (failures (page_results Sample.load Sample.env_store_down
                                         (S (requests Sample.world)) "react"
                                         Sample.entries))
                 (length Sample.entries)).
Proof.
  assert (H1 : (0 < concurrency Sample.config)%Z) by (vm_compute; reflexivity).
  assert (H2 : (length Sample.entries <= 3)%nat) by (simpl; lia).
  assert (H3 : index_json Sample.env_store_down (requests Sample.world)
                          (index_url "react") = Fetched Sample.entries)
    by reflexivity.
  repeat (split; [assumption |]).
  exact (proj1 (proj2 (proj2
           (store_outage_never_escapes Sample.load Sample.digest Sample.config
              3 "react" "job-1" false Sample.env_store_down Sample.world
              Sample.entries H1 H2 H3)))).
Defined.

(* ===================================================================== *)
(** ** extractKeywords *)
(* ===================================================================== *)

Lemma insert_by_perm {A} (before : A -> A -> bool) x l :
  Extract.insert_by before x l ≡ₚ x :: l.
Proof.
  induction l as [| y l IH]; simpl; [done |].
  destruct (before x y); [done |]. rewrite IH. apply Permutation_swap.
Qed.

Lemma stable_sort_perm {A} (before : A -> A -> bool) l :
  Extract.stable_sort before l ≡ₚ l.
Proof.
  unfold Extract.stable_sort. induction l as [| x l IH]; simpl; [done |].
  by rewrite insert_by_perm, IH.
Qed.

Lemma insert_by_descending {A} (f : A -> nat) x l :
  descending f l ->
  descending f (Extract.insert_by (fun a b => (f b <=? f a)%nat) x l).
Proof.
  induction l as [| y l IH]; intros Hl; simpl; [by split |].
  destruct Hl as [Hy Hl]. destruct (Nat.leb_spec (f y) (f x)) as [Hle | Hgt].
  - split; [| by split]. constructor; [done |].
    eapply Forall_impl; [exact Hy |]. simpl. intros z Hz. lia.
  - split; [| by apply IH].
    rewrite insert_by_perm. constructor; [lia | done].
Qed.

Lemma stable_sort_descending {A} (f : A -> nat) l :
  descending f (Extract.stable_sort (fun a b => (f b <=? f a)%nat) l).
Proof.
  unfold Extract.stable_sort. induction l as [| x l IH]; simpl; [done |].
  by apply insert_by_descending.
Qed.

Lemma descending_take {A} (f : A -> nat) l : forall n,
  descending f l -> descending f (take n l).
Proof.
  induction l as [| x l IH]; intros [| n] Hl; simpl; try done.
  destruct Hl as [Hx Hl]. split; [| by apply IH].
  eapply Forall_forall. intros y Hy. rewrite Forall_forall in Hx.
  apply Hx. eapply elem_of_take in Hy as (i & Hy & _).
  by eapply list_elem_of_lookup_2.
Qed.

Lemma descending_lookup {A} (f : A -> nat) l : forall i j a b,
  descending f l -> (i < j)%nat -> l !! i = Some a -> l !! j = Some b ->
  (f b <= f a)%nat.
Proof.
  induction l as [| x l IH]; intros i j a b Hl Hij Hi Hj; [done |].
  destruct Hl as [Hx Hl]. destruct j as [| j]; [lia |]. simpl in Hj.
  destruct i as [| i].
  - simpl in Hi. injection Hi as <-. rewrite Forall_forall in Hx.
    apply Hx. by eapply list_elem_of_lookup_2.
  - simpl in Hi. eapply (IH i j); eauto. lia.
Qed.

Lemma descending_app {A} (f : A -> nat) l1 l2 a b :
  descending f (l1 ++ l2) -> a ∈ l1 -> b ∈ l2 -> (f b <= f a)%nat.
Proof.
  induction l1 as [| x l1 IH]; intros Hl Ha Hb; [by inversion Ha |].
  destruct Hl as [Hx Hl]. apply elem_of_cons in Ha as [-> | Ha].
  - rewrite Forall_forall in Hx. apply Hx. apply elem_of_app. by right.
  - by apply IH.
Qed.

Lemma entries_perm freq : Extract.entries freq ≡ₚ freq.
Proof.
  unfold Extract.entries.
  rewrite (Permutation_map snd (stable_sort_perm _ (Extract.index_entries freq))).
  unfold Extract.index_entries.
  induction freq as [| e freq IH]; [done |].
  rewrite filter_cons. cbn [omap list_omap].
  destruct (Js.array_index (fst e)) as [n |] eqn:He.
  - rewrite decide_False by done. cbn [map snd app]. by rewrite IH.
  - rewrite decide_True by done. rewrite <- Permutation_middle. by rewrite IH.
Qed.

Lemma lookup_count_bump w x freq :
  lookup_count w (Extract.bump x freq)
  = (lookup_count w freq + (if String.eqb x w then 1 else 0))%nat.
Proof.
  induction freq as [| [k c] freq IH]; simpl.
  - destruct (String.eqb x w); lia.
  - destruct (String.eqb_spec k x) as [-> | Hkx]; simpl.
    + destruct (String.eqb x w); lia.
    + destruct (String.eqb_spec k w) as [-> | _]; [| exact IH].
      destruct (String.eqb_spec x w) as [-> | _]; [done | lia].
Qed.

Lemma keys_bump x freq :
  map fst (Extract.bump x freq)
  = if decide (x ∈ map fst freq) then map fst freq else map fst freq ++ [x].
Proof.
  induction freq as [| [k c] freq IH].
  - cbn [Extract.bump map fst app].
    destruct (decide (x ∈ [])) as [H | _]; [by inversion H | done].
  - cbn [Extract.bump map fst].
    destruct (String.eqb_spec k x) as [-> | Hkx]; cbn [map fst].
    + destruct (decide (x ∈ x :: map fst freq)) as [_ | H]; [done |].
      exfalso. apply H. by left.
    + rewrite IH.
      destruct (decide (x ∈ map fst freq)) as [Hin | Hout];
        destruct (decide (x ∈ k :: map fst freq)) as [Hin' | Hout'];
        try done.
      * exfalso. apply Hout'. by right.
      * apply elem_of_cons in Hin' as [-> | Hin']; done.
Qed.

Lemma occurrences_cons w x words :
  occurrences w (x :: words)
  = ((if String.eqb x w then 1 else 0) + occurrences w words)%nat.
Proof.
  unfold occurrences. simpl. rewrite (String.eqb_sym w x).
  by destruct (String.eqb x w).
Qed.

(** The table after counting [words] into [freq]. *)
Lemma count_words_from words : forall freq,
  NoDup (map fst freq) ->
  let freq' := fold_left (fun fr w => Extract.bump w fr) words freq in
  NoDup (map fst freq')
  /\ (forall w, w ∈ map fst freq' <-> w ∈ map fst freq \/ w ∈ words)
  /\ (forall w, lookup_count w freq'
                = (lookup_count w freq + occurrences w words)%nat).
Proof.
  induction words as [| x words IH]; intros freq Hnd; simpl.
  - split; [done |]. split.
    + intros w. split; [by left |]. intros [H | H]; [done | by inversion H].
    + intros w. unfold occurrences. simpl. lia.
  - assert (Hnd' : NoDup (map fst (Extract.bump x freq))).
    { rewrite keys_bump. destruct (decide (x ∈ map fst freq)); [done |].
      apply NoDup_app. split; [done |]. split; [| apply NoDup_singleton].
      intros y Hy Hy'. apply list_elem_of_singleton in Hy'. by subst. }
    destruct (IH (Extract.bump x freq) Hnd') as (H1 & H2 & H3).
    split; [done |]. split.
    + intros w. rewrite H2, keys_bump.
      destruct (decide (x ∈ map fst freq)) as [Hin | Hout].
      * split; [intros [H | H]; [by left | right; by right] |].
        intros [H | H]; [by left |].
        apply elem_of_cons in H as [-> | H]; [by left | by right].
      * rewrite elem_of_app, list_elem_of_singleton, elem_of_cons. tauto.
    + intros w. rewrite H3, lookup_count_bump, occurrences_cons. lia.
Qed.

Lemma lookup_count_entry freq w c :
  NoDup (map fst freq) -> (w, c) ∈ freq -> lookup_count w freq = c.
Proof.
  induction freq as [| [k c'] freq IH]; intros Hnd Hin; [by inversion Hin |].
  simpl in Hnd. apply NoDup_cons in Hnd as [Hk Hnd].
  apply elem_of_cons in Hin as [[= <- <-] | Hin]; simpl.
  - by rewrite String.eqb_refl.
  - destruct (String.eqb_spec k w) as [-> | _]; [| by apply IH].
    exfalso. apply Hk. apply list_elem_of_In, in_map_iff.
    exists (w, c). split; [done |]. by apply list_elem_of_In.
Qed.

Lemma lookup_map {A B} (f : A -> B) l : forall i,
  map f l !! i = f <$> (l !! i).
Proof. induction l as [| x l IH]; intros [| i]; simpl; auto. Qed.

Lemma elem_of_map {A B} (f : A -> B) l y :
  y ∈ map f l <-> exists x, y = f x /\ x ∈ l.
Proof.
  rewrite list_elem_of_In, in_map_iff. split.
  - intros (x & <- & Hx). exists x. by rewrite list_elem_of_In.
  - intros (x & -> & Hx). exists x. by rewrite <- list_elem_of_In.
Qed.

(** The sorted table behind the keywords of [content]. *)
Lemma keyword_table content :
  let words := keyword_tokens content in
  let table := Extract.by_count_desc
                 (Extract.entries (Extract.count_words words)) in
  Extract.extractKeywords content = map fst (take 10 table)
  /\ NoDup (map fst table)
  /\ descending snd table
  /\ (forall w, w ∈ map fst table <-> w ∈ words)
  /\ (forall e, e ∈ table -> snd e = occurrences (fst e) words).
Proof.
  intros words table. split; [reflexivity |].
  destruct (count_words_from words [] (NoDup_nil_2)) as (Hnd & Hkeys & Hcount).
  fold (Extract.count_words words) in Hnd, Hkeys, Hcount.
  assert (Hperm : table ≡ₚ Extract.count_words words).
  { subst table. unfold Extract.by_count_desc.
    by rewrite stable_sort_perm, entries_perm. }
  split; [by rewrite (Permutation_map fst Hperm) |].
  split; [apply stable_sort_descending |].
  split.
  - intros w. rewrite (Permutation_map fst Hperm), Hkeys.
    split; [intros [H | H]; [by inversion H | done] | by right].
  - intros [w c] He. rewrite Hperm in He. simpl.
    rewrite <- (lookup_count_entry _ _ _ Hnd He), Hcount. simpl. lia.
Qed.



(* ===================================================================== *)
(** ** The record scrapePage builds *)
(* ===================================================================== *)

Lemma rev_app_length s : forall t,
  String.length (String.rev_app s t) = (String.length s + String.length t)%nat.
Proof.
  induction s as [| a s IH]; intros t; simpl; [done |].
  rewrite IH. simpl. lia.
Qed.

Lemma rev_length s : String.length (String.rev s) = String.length s.
Proof. unfold String.rev. rewrite rev_app_length. simpl. lia. Qed.

Lemma rev_app_rev_app s : forall t u,
  String.rev_app (String.rev_app s t) u = String.rev_app t (s +:+ u).
Proof.
  induction s as [| a s IH]; intros t u; [done |].
  change (String.rev_app (String.rev_app s (String a t)) u
          = String.rev_app t (String a (s +:+ u))).
  by rewrite IH.
Qed.

Lemma string_app_nil_r s : s +:+ EmptyString = s.
Proof.
  induction s as [| a s IH]; [done |].
  change (String a s +:+ EmptyString) with (String a (s +:+ EmptyString)).
  by rewrite IH.
Qed.

Lemma rev_involutive s : String.rev (String.rev s) = s.
Proof.
  unfold String.rev. rewrite rev_app_rev_app.
  change (String.rev_app EmptyString (s +:+ EmptyString))
    with (s +:+ EmptyString).
  apply string_app_nil_r.
Qed.

Lemma truthy_length s : Js.truthy s = true <-> (0 < String.length s)%nat.
Proof. destruct s; simpl; split; (done || lia). Qed.

Lemma truthy_count_le l :
  (length (List.filter Js.truthy l) <= total_length l)%nat.
Proof.
  induction l as [| s l IH]; simpl; [done |].
  destruct s; simpl; lia.
Qed.

Lemma split_run_total_length sep s : forall cur in_run,
  (total_length (Js.split_run sep s cur in_run)
   <= String.length s + String.length cur)%nat.
Proof.
  induction s as [| c s IH]; intros cur in_run; simpl.
  - rewrite rev_length. lia.
  - destruct (sep c).
    + destruct in_run; simpl.
      * specialize (IH EmptyString true). simpl in IH. lia.
      * specialize (IH EmptyString true). simpl in IH.
        rewrite rev_length. lia.
    + specialize (IH (String c cur) false). simpl in IH. lia.
Qed.

Lemma split_run_has_word sep s : forall cur,
  cur <> EmptyString ->
  (0 < length (List.filter Js.truthy (Js.split_run sep s cur false)))%nat.
Proof.
  assert (Hrev : forall cur, cur <> EmptyString ->
                             Js.truthy (String.rev cur) = true).
  { intros cur Hcur. apply truthy_length. rewrite rev_length.
    destruct cur; [done | simpl; lia]. }
  induction s as [| c s IH]; intros cur Hcur; cbn [Js.split_run].
  - cbn [List.filter]. rewrite (Hrev cur Hcur). simpl. lia.
  - destruct (sep c).
    + cbn [List.filter]. rewrite (Hrev cur Hcur). simpl. lia.
    + by apply IH.
Qed.

Lemma trimStart_head s c t :
  Js.trimStart s = String c t -> Js.is_space c = false.
Proof.
  induction s as [| a s IH]; simpl; [done |].
  destruct (Js.is_space a) eqn:Ha; [exact IH |]. by intros [= <- <-].
Qed.

Lemma trimEnd_head c s :
  Js.is_space c = false -> exists t, Js.trimEnd (String c s) = String c t.
Proof.
  intros Hc. simpl. destruct (Js.trimEnd s); rewrite ?Hc; eauto.
Qed.

Lemma trim_head s c t : Js.trim s = String c t -> Js.is_space c = false.
Proof.
  unfold Js.trim. destruct (Js.trimStart s) as [| a u] eqn:Hs; [done |].
  pose proof (trimStart_head _ _ _ Hs) as Ha.
  destruct (trimEnd_head a u Ha) as (t' & ->). by intros [= <- _].
Qed.

(** X3.  The word count of a record is at most its character count, and
    it is 0 exactly when the body is empty. *)
Theorem word_count_bounds doc docSlug entry :
  let r := Extract.extract doc docSlug entry in
  (wordCount r <= characterCount r)%nat
  /\ characterCount r = String.length (content r)
  /\ (wordCount r = 0%nat <-> content r = EmptyString).
Proof.
  cbn [Extract.extract wordCount characterCount content]. cbv zeta.
  set (text := Js.trim _).
  split; [| split; [done |]].
  - etrans; [apply truthy_count_le |].
    unfold Js.split_re_plus.
    etrans; [apply split_run_total_length |]. simpl. lia.
  - split.
    + destruct text as [| c t] eqn:Ht; [done |].
      intros H0. exfalso.
      pose proof (trim_head _ _ _ Ht) as Hc.
      unfold Js.split_re_plus in H0. simpl in H0. rewrite Hc in H0.
      pose proof (split_run_has_word Js.is_space t (String c EmptyString)
                    ltac:(done)).
      lia.
    + by intros ->.
Qed.

Lemma split_on_nonempty sep s : forall cur, Js.split_on sep s cur <> [].
Proof.
  induction s as [| c s IH]; intros cur; simpl; [done |].
  destruct (Ascii.eqb c sep); [done | apply IH].
Qed.

Lemma split_on_free sep s : forall cur,
  free_of sep s = true ->
  Js.split_on sep s cur = [String.rev (String.rev_app s cur)].
Proof.
  induction s as [| c s IH]; intros cur Hfree; simpl; [done |].
  simpl in Hfree. apply andb_prop in Hfree as [Hc Hs].
  destruct (Ascii.eqb c sep); [done |]. by apply IH.
Qed.

(** X4.  The topics of a record are the documentation set, the type of
    the entry and the first one or two pieces of its name cut at the
    slashes: three or four topics in all, and exactly the name itself as
    third and last topic when the name has no slash. *)
Theorem topics_shape doc docSlug entry :
  let r := Extract.extract doc docSlug entry in
  (exists rest,
      topics r = docSlug :: entry_type entry :: rest
      /\ rest = take 2 (Js.split_char "/" (entry_name entry))
      /\ (1 <= length rest <= 2)%nat)
  /\ (free_of "/" (entry_name entry) = true ->
      topics r = [docSlug; entry_type entry; entry_name entry]).
Proof.
  cbn [Extract.extract topics]. split.
  - eexists. split; [reflexivity |]. split; [reflexivity |].
    rewrite length_take. unfold Js.split_char.
    pose proof (split_on_nonempty "/" (entry_name entry) EmptyString) as Hne.
    destruct (Js.split_on "/" (entry_name entry) EmptyString); [done |].
    cbn [length]. lia.
  - intros Hfree. unfold Js.split_char. rewrite split_on_free by done.
    simpl. fold (String.rev (entry_name entry)).
    by rewrite rev_involutive.
Qed.

Lemma remove_first_prefix pat : forall l,
  Js.remove_first pat (pat +:+ l) = l.
Proof.
  assert (Hdrop : forall p l, Js.drop_prefix p (p +:+ l) = Some l).
  { induction p as [| a p IH]; intros l; simpl; [by destruct l |].
    by rewrite Ascii.eqb_refl. }
  intros l. specialize (Hdrop pat l).
  destruct (pat +:+ l) as [| c s]; simpl; by rewrite Hdrop.
Qed.

(** X5.  Every snippet of a record has a code that is not empty and a
    language that is not empty; there are at most as many snippets as
    there are [code] elements below a [pre] in the content region.  A
    [code] element whose class is [language-X] gets the language [X], one
    without a class gets [plaintext]. *)
Theorem snippets_shape doc docSlug entry :
  let r := Extract.extract doc docSlug entry in
  let blocks := Dom.select [Extract.in_content; Dom.is_tag "pre";
                            Dom.is_tag "code"] doc in
  (length (codeSnippets r) <= length blocks)%nat
  /\ (forall s, s ∈ codeSnippets r ->
                exists elem,
                  elem ∈ blocks
                  /\ code s = Js.trim (Dom.textContent elem)
                  /\ code s <> EmptyString
                  /\ language s = Extract.language_of "plaintext" elem
                  /\ language s <> EmptyString)
  /\ (forall elem name,
         name <> EmptyString ->
         Dom.attr_of "class" elem = Some ("language-" +:+ name) ->
         Extract.language_of "plaintext" elem = name)
  /\ (forall elem,
         Dom.attr_of "class" elem = None ->
         Extract.language_of "plaintext" elem = "plaintext").
Proof.
  cbn [Extract.extract codeSnippets]. cbv zeta. unfold Extract.snippets_of.
  set (blocks := Dom.select _ doc).
  assert (Hlang : forall elem,
             Extract.language_of "plaintext" elem <> EmptyString).
  { intros elem. unfold Extract.language_of.
    destruct (Dom.attr_of "class" elem) as [c |]; [| done].
    destruct (Js.remove_first "language-" c); simpl; done. }
  split; [| split; [| split]].
  - generalize blocks. intros l. induction l as [| x l IH]; [done |].
    cbn [omap list_omap].
    destruct (Js.truthy (Js.trim (Dom.textContent x))); simpl; lia.
  - intros s Hs. apply list_elem_of_omap in Hs as (elem & Helem & Hs).
    destruct (Js.truthy (Js.trim (Dom.textContent elem))) eqn:Ht; [| done].
    injection Hs as <-. exists elem. simpl.
    repeat split; try done.
    intros Hc. by rewrite Hc in Ht.
  - intros elem name Hname Hclass. unfold Extract.language_of.
    rewrite Hclass, remove_first_prefix. by destruct name.
  - intros elem Hclass. unfold Extract.language_of. by rewrite Hclass.
Qed.

(** X6.  A page request that is rejected does not make [scrapePage]
    throw: it returns a record flagged as a failure for the same address
    and title, with an empty body, no snippet, keyword or topic, and the
    message of the error, or [Unknown error] when what was thrown is not
    an [Error]; the request is the only thing it did. *)
Theorem rejected_page_becomes_failure load cfg docSlug entry env w t :
  page_html env (requests w) (Extract.page_url docSlug entry) = Rejected t ->
  let run := scrapePage load cfg docSlug entry env w in
  exists r,
    fst run = Return r
    /\ success r = false
    /\ url r = Extract.page_url docSlug entry
    /\ title r = entry_name entry
    /\ content r = EmptyString /\ markdown r = None
    /\ codeSnippets r = [] /\ keywords r = [] /\ topics r = []
    /\ wordCount r = 0%nat /\ characterCount r = 0%nat
    /\ error r = Some (match t with
                       | JsError m => m
                       | NotAnError => "Unknown error"
                       end)
    /\ jobs (snd run) = jobs w
    /\ knowledge_content (snd run) = knowledge_content w
    /\ store_ops (snd run) = store_ops w
    /\ requests (snd run) = S (requests w)
    /\ events_since w (snd run)
       = [EvGet (requests w) (Extract.page_url docSlug entry)
                (timeoutMs cfg) false].
Proof.
  intros Hget run. subst run. rewrite scrapePage_run. unfold page_result.
  rewrite Hget. eexists. split; [reflexivity |].
  simpl. repeat split; try done.
  apply events_since_app. simpl. by rewrite Hget.
Qed.

Lemma rejected_page_becomes_failure_witness :
  let entry := mkEntry "Hooks/Effect" "hooks-effect" "Hooks" in
  let run := scrapePage Sample.load Sample.config "react" entry
                        Sample.env_one_timeout Sample.world in
  exists r,
    fst run = Return r
    /\ success r = false
    /\ url r = Extract.page_url "react" entry
    /\ title r = entry_name entry
    /\ content r = EmptyString /\ markdown r = None
    /\ codeSnippets r = [] /\ keywords r = [] /\ topics r = []
    /\ wordCount r = 0%nat /\ characterCount r = 0%nat
    /\ error r = Some "timeout of 30000ms exceeded"
    /\ jobs (snd run) = jobs Sample.world
    /\ knowledge_content (snd run) = knowledge_content Sample.world
    /\ store_ops (snd run) = store_ops Sample.world
    /\ requests (snd run) = S (requests Sample.world)
    /\ events_since Sample.world (snd run)
       = [EvGet (requests Sample.world) (Extract.page_url "react" entry)
                (timeoutMs Sample.config) false].
Proof.
  apply (rejected_page_becomes_failure
           Sample.load Sample.config "react"
           (mkEntry "Hooks/Effect" "hooks-effect" "Hooks")
           Sample.env_one_timeout Sample.world
           (JsError "timeout of 30000ms exceeded")).
  reflexivity.
Defined.

(* ===================================================================== *)
(** ** One turn of the batch loop *)
(* ===================================================================== *)

Lemma after_chunks_cons load sha cfg docSlug jobId onProgress total batch cs
      counts env w :
  after_chunks load sha cfg docSlug jobId onProgress total (batch :: cs)
               counts env w
  = after_chunks load sha cfg docSlug jobId onProgress total cs
      (tally_all (page_results load env (requests w) docSlug batch) counts) env
      (match cs with
       | [] => chunk_saved load sha cfg docSlug jobId onProgress total batch
                           counts env w
       | _ => record (EvDelay (delayMs cfg))
                     (chunk_saved load sha cfg docSlug jobId onProgress total
                                  batch counts env w)
       end).
Proof. reflexivity. Qed.

Lemma chunk_fetched_frame cfg docSlug batch env w :
  store_view (chunk_fetched cfg docSlug batch env w) = store_view w
  /\ requests (chunk_fetched cfg docSlug batch env w)
     = (length batch + requests w)%nat
  /\ store_ops (chunk_fetched cfg docSlug batch env w) = store_ops w
  /\ log (chunk_fetched cfg docSlug batch env w)
     = log w ++ EvPromiseAll batch
         :: page_requests env (timeoutMs cfg) (requests w) docSlug batch.
Proof.
  unfold chunk_fetched. simpl. repeat split. by rewrite <- app_assoc.
Qed.

(** The events of one turn, then those of the turns that follow. *)
Lemma after_chunks_cons_events load sha cfg docSlug jobId onProgress total
      batch cs counts env w :
  let w2 := chunk_fetched cfg docSlug batch env w in
  let w3 := chunk_saved load sha cfg docSlug jobId onProgress total batch
                        counts env w in
  let w4 := match cs with
            | [] => w3
            | _ => record (EvDelay (delayMs cfg)) w3
            end in
  events_since w
    (snd (after_chunks load sha cfg docSlug jobId onProgress total
                       (batch :: cs) counts env w))
  = EvPromiseAll batch
      :: page_requests env (timeoutMs cfg) (requests w) docSlug batch
      ++ events_since w2 w3 ++ chunk_pause cfg cs
      ++ events_since w4
           (snd (after_chunks load sha cfg docSlug jobId onProgress total cs
                   (tally_all (page_results load env (requests w) docSlug batch)
                              counts) env w4)).
Proof.
  intros w2 w3 w4. rewrite after_chunks_cons. fold w3. fold w4.
  assert (E2 : log w2 = log w ++ EvPromiseAll batch
                 :: page_requests env (timeoutMs cfg) (requests w) docSlug batch)
    by apply chunk_fetched_frame.
  assert (E23 : extends w2 w3) by apply after_items_extends.
  assert (E4 : log w4 = log w3 ++ chunk_pause cfg cs).
  { subst w4. destruct cs; simpl; [by rewrite app_nil_r | done]. }
  assert (E45 : extends w4 (snd (after_chunks load sha cfg docSlug jobId
                                   onProgress total cs
                                   (tally_all (page_results load env (requests w)
                                                 docSlug batch) counts) env w4)))
    by apply after_chunks_extends.
  apply events_since_app.
  rewrite (extends_events _ _ E45), E4, (extends_events _ _ E23), E2.
  rewrite <- !app_assoc. reflexivity.
Qed.

(* ===================================================================== *)
(** ** What a run keeps, and what it never logs *)
(* ===================================================================== *)

Section RunInvariant.

Variable load : string -> list node.
Variable sha : string -> string.
Variable cfg : ScraperConfig.
Variable docSlug jobId : string.
Variable onProgress : bool.
Variable total : nat.
Variable env : Env.

(** [Inv] is a property of the data of the state, [Pev] a property of
    log entries, and [E] one of index entries; every save of the result
    of an entry in [E] and every job write of the run keep [Inv] and log
    only entries in [Pev]. *)
Variable Inv : World -> Prop.
Variable Pev : Event -> Prop.
Variable E : DevDocsEntry -> Prop.

Hypothesis Inv_view :
  forall w w', store_view w = store_view w' -> Inv w -> Inv w'.
Hypothesis Inv_saved : forall n entry w,
    E entry -> Inv w ->
    Inv (saved sha (page_result load env n docSlug entry) docSlug env w)
    /\ Forall Pev (events_since w
                     (saved sha (page_result load env n docSlug entry)
                            docSlug env w)).
Hypothesis Inv_updated : forall updates w,
    run_updates total updates -> Inv w ->
    Inv (updated jobId updates env w)
    /\ Forall Pev (update_events jobId updates env w).
Hypothesis Pev_get : forall n target timeout ok,
    Pev (EvGet n target timeout ok).
Hypothesis Pev_batch : forall batch, Pev (EvPromiseAll batch).
Hypothesis Pev_delay : forall ms, Pev (EvDelay ms).
Hypothesis Pev_progress : forall p t, Pev (EvProgress p t).

Lemma kept_by_items batch : forall n counts w,
  Forall E batch -> Inv w ->
  let w' := after_items sha docSlug jobId onProgress total
                        (page_results load env n docSlug batch) counts env w in
  Inv w' /\ Forall Pev (events_since w w').
Proof.
  induction batch as [| entry batch IH]; intros n counts w HE Hw;
    cbn [page_results after_items]; cbv zeta.
  - rewrite events_since_refl. by split.
  - inversion HE as [| ? ? He Hrest]; subst.
    set (r := page_result load env n docSlug entry).
    set (w1 := after_item sha docSlug jobId onProgress total r counts env w).
    assert (H1 : Inv w1 /\ Forall Pev (events_since w w1)).
    { subst w1.
      rewrite (events_since_app _ _ _ (after_item_log _ _ _ _ _ _ _ _ _)).
      unfold after_item. fold (item_saved sha docSlug r env w).
      assert (Hs : Inv (item_saved sha docSlug r env w)
                   /\ Forall Pev (events_since w (item_saved sha docSlug r env w))).
      { unfold item_saved. destruct (success r).
        - by apply Inv_saved.
        - rewrite events_since_refl. by split. }
      destruct Hs as [Hs Hse].
      destruct (Inv_updated (item_updates total (tally r counts))
                            (item_saved sha docSlug r env w)) as [Hu Hue];
        [right; left; by eexists | done |].
      split.
      - destruct onProgress; [| done].
        eapply Inv_view; [| exact Hu]. reflexivity.
      - rewrite !Forall_app. repeat split; try done.
        destruct onProgress; repeat constructor. apply Pev_progress. }
    destruct H1 as [H1 H1e].
    destruct (IH (S n) (tally r counts) w1 Hrest H1) as [H2 H2e].
    split; [done |].
    rewrite (events_since_trans w w1)
      by (apply after_item_extends || apply after_items_extends).
    by rewrite Forall_app.
Qed.

Lemma page_requests_Pev timeout batch : forall n,
  Forall Pev (page_requests env timeout n docSlug batch).
Proof.
  induction batch as [| e batch IH]; intros n; simpl; constructor; auto.
Qed.

Lemma kept_by_chunks cs : forall counts w,
  Forall E (concat cs) -> Inv w ->
  let w' := snd (after_chunks load sha cfg docSlug jobId onProgress total cs
                              counts env w) in
  Inv w' /\ Forall Pev (events_since w w').
Proof.
  induction cs as [| batch cs IH]; intros counts w HE Hw.
  - simpl. rewrite events_since_refl. by split.
  - cbn [concat] in HE. apply Forall_app in HE as [HEb HEcs].
    cbv zeta. rewrite after_chunks_cons_events. rewrite after_chunks_cons.
    set (w2 := chunk_fetched cfg docSlug batch env w).
    set (w3 := chunk_saved load sha cfg docSlug jobId onProgress total batch
                           counts env w).
    set (w4 := match cs with
               | [] => w3
               | _ => record (EvDelay (delayMs cfg)) w3
               end).
    assert (H2 : Inv w2).
    { eapply Inv_view; [| exact Hw]. symmetry. apply chunk_fetched_frame. }
    destruct (kept_by_items batch (requests w) counts w2 HEb H2) as [H3 H3e].
    fold (chunk_saved load sha cfg docSlug jobId onProgress total batch counts
                      env w) in H3, H3e.
    fold w3 in H3, H3e.
    assert (H4 : Inv w4).
    { subst w4. destruct cs; [done |]. eapply Inv_view; [| exact H3]. done. }
    destruct (IH (tally_all (page_results load env (requests w) docSlug batch)
                            counts) w4 HEcs H4) as [H5 H5e].
    split; [done |].
    constructor; [apply Pev_batch |].
    rewrite !Forall_app. repeat split; try done.
    + apply page_requests_Pev.
    + unfold chunk_pause. destruct cs; repeat constructor. apply Pev_delay.
Qed.

End RunInvariant.

(** The same for a whole run. *)
Lemma kept_by_run load sha cfg fuel docSlug jobId onProgress env w entries
      (Inv : World -> Prop) (Pev : Event -> Prop) (E : DevDocsEntry -> Prop) :
  (0 < concurrency cfg)%Z ->
  (length entries <= fuel)%nat ->
  index_json env (requests w) (index_url docSlug) = Fetched entries ->
  (forall w w', store_view w = store_view w' -> Inv w -> Inv w') ->
  (forall n entry w,
      E entry -> Inv w ->
      Inv (saved sha (page_result load env n docSlug entry) docSlug env w)
      /\ Forall Pev (events_since w
                       (saved sha (page_result load env n docSlug entry)
                              docSlug env w))) ->
  (forall updates w,
      run_updates (length entries) updates -> Inv w ->
      Inv (updated jobId updates env w)
      /\ Forall Pev (update_events jobId updates env w)) ->
  (forall e, is_save_event e = false -> is_job_write e = false -> Pev e) ->
  Forall E entries ->
  Inv w ->
  let w' := snd (scrapeDoc load sha cfg fuel docSlug jobId onProgress env w) in
  Inv w' /\ Forall Pev (events_since w w').
Proof.
  intros Hk Hfuel Hidx Hview Hsaved Hupdated Hother HE Hw w'.
  destruct (scrapeDoc_events load sha cfg fuel docSlug jobId onProgress env w
              entries Hk Hfuel Hidx) as [Hw' Hev].
  fold w' in Hw', Hev.
  set (w1 := at_loop_start cfg docSlug jobId entries env w) in *.
  set (w2 := snd (after_chunks load sha cfg docSlug jobId onProgress
                               (length entries)
                               (chunks (Z.to_nat (concurrency cfg)) entries)
                               (0, 0)%nat env w1)) in *.
  assert (H1 : Inv w1 /\ Forall Pev (events_since w w1)).
  { unfold w1. rewrite at_loop_start_events. unfold at_loop_start.
    match goal with
    | |- Inv (updated ?i ?u ?e ?w0) /\ _ =>
        destruct (Hupdated u w0) as [Ha Hb];
          [left; by eexists | eapply Hview; [| exact Hw]; reflexivity |]
    end.
    split; [done |]. constructor; [by apply Hother | done]. }
  destruct H1 as [H1 H1e].
  destruct (kept_by_chunks load sha cfg docSlug jobId onProgress
              (length entries) env Inv Pev E Hview Hsaved Hupdated
              ltac:(intros; by apply Hother) ltac:(intros; by apply Hother)
              ltac:(intros; by apply Hother) ltac:(intros; by apply Hother)
              (chunks (Z.to_nat (concurrency cfg)) entries) (0, 0)%nat w1)
    as [H2 H2e]; [by rewrite concat_chunks by lia | done |].
  fold w2 in H2, H2e.
  assert (H3 : Inv w' /\ Forall Pev (events_since w2 w')).
  { rewrite Hw', at_return_events. unfold at_return.
    match goal with
    | |- Inv (updated ?i ?u ?e ?w0) /\ _ =>
        destruct (Hupdated u w0) as [Ha Hb];
          [right; right; by eexists | eapply Hview; [| exact H2]; reflexivity |]
    end.
    by split. }
  destruct H3 as [H3 H3e]. split; [done |].
  rewrite Hev, !Forall_app. by repeat split.
Qed.

(* ===================================================================== *)
(** ** Reading the log of a run *)
(* ===================================================================== *)

Lemma omap_none {A B} (f : A -> option B) l :
  Forall (fun x => f x = None) l -> omap f l = [].
Proof.
  induction 1 as [| x l Hx _ IH]; [done |]. cbn [omap list_omap].
  by rewrite Hx.
Qed.

Lemma tallies_app l1 : forall l2 counts,
  tallies (l1 ++ l2) counts
  = tallies l1 counts ++ tallies l2 (tally_all l1 counts).
Proof.
  induction l1 as [| r l1 IH]; intros l2 counts; [done |].
  cbn [app tallies tally_all]. by rewrite IH.
Qed.

Lemma tallies_length rs : forall counts,
  length (tallies rs counts) = length rs.
Proof. induction rs as [| r rs IH]; intros c; simpl; [done | by rewrite IH]. Qed.

(** The two counters together count the results worked through. *)
Lemma tallies_processed rs : forall counts,
  map (fun c => (fst c + snd c)%nat) (tallies rs counts)
  = seq (S (fst counts + snd counts)) (length rs).
Proof.
  induction rs as [| r rs IH]; intros counts; [done |].
  cbn [tallies map length seq]. rewrite IH. f_equal.
  - unfold tally. destruct (success r); simpl; lia.
  - f_equal. unfold tally. destruct (success r); simpl; lia.
Qed.

Section Projection.

Context {B : Type}.
Variable proj : Event -> option B.
Variable load : string -> list node.
Variable sha : string -> string.
Variable cfg : ScraperConfig.
Variable docSlug jobId : string.
Variable onProgress : bool.
Variable total : nat.

(** What the job write and the callback of one result contribute. *)
Variable g : nat * nat -> list B.

Hypothesis proj_save : forall e, is_save_event e = true -> proj e = None.
Hypothesis proj_item : forall c env w,
    omap proj (update_events jobId (item_updates total c) env w
               ++ (if onProgress
                   then [EvProgress (fst c + snd c) total] else []))
    = g c.

Lemma items_projection rs : forall counts env w,
  omap proj (events_since w (after_items sha docSlug jobId onProgress total
                                         rs counts env w))
  = flat_map g (tallies rs counts).
Proof.
  induction rs as [| r rs IH]; intros counts env w;
    cbn [after_items tallies flat_map].
  - by rewrite events_since_refl.
  - rewrite (events_since_trans w
               (after_item sha docSlug jobId onProgress total r counts env w))
      by (apply after_item_extends || apply after_items_extends).
    rewrite omap_app, IH. f_equal.
    rewrite (events_since_app _ _ _ (after_item_log _ _ _ _ _ _ _ _ _)).
    rewrite omap_app, proj_item.
    rewrite omap_none; [done |].
    eapply Forall_impl; [apply item_saved_events |]. apply proj_save.
Qed.

Hypothesis proj_get : forall n target timeout ok,
    proj (EvGet n target timeout ok) = None.
Hypothesis proj_batch : forall batch, proj (EvPromiseAll batch) = None.
Hypothesis proj_delay : forall ms, proj (EvDelay ms) = None.

Lemma chunks_projection cs : forall counts env w,
  omap proj (events_since w
               (snd (after_chunks load sha cfg docSlug jobId onProgress total
                                  cs counts env w)))
  = flat_map g (tallies (page_results load env (requests w) docSlug (concat cs))
                        counts).
Proof.
  induction cs as [| batch cs IH]; intros counts env w.
  - simpl. by rewrite events_since_refl.
  - rewrite after_chunks_cons_events. cbv zeta.
    cbn [concat omap list_omap]. rewrite proj_batch, !omap_app.
    rewrite IH.
    fold (chunk_saved load sha cfg docSlug jobId onProgress total batch counts
                      env w).
    unfold chunk_saved at 1. rewrite items_projection.
    rewrite page_results_app, tallies_app, flat_map_app.
    rewrite (omap_none proj (page_requests _ _ _ _ _)).
    2:{ generalize (requests w).
        induction batch as [| e b IHb]; intros n; simpl; constructor; auto. }
    rewrite (omap_none proj (chunk_pause cfg cs)).
    2:{ unfold chunk_pause. destruct cs; repeat constructor. apply proj_delay. }
    assert (Hrq : requests (chunk_saved load sha cfg docSlug jobId onProgress
                                        total batch counts env w)
                  = (length batch + requests w)%nat).
    { unfold chunk_saved. rewrite after_items_requests.
      apply chunk_fetched_frame. }
    simpl. do 3 f_equal.
    destruct cs; [done |].
    change (requests (record ?e ?x)) with (requests x). by rewrite Hrq.
Qed.

End Projection.

Lemma flat_map_const_nil {A B} (l : list A) : flat_map (fun _ => @nil B) l = [].
Proof. induction l; simpl; auto. Qed.

Lemma flat_map_single {A B} (f : A -> B) l :
  flat_map (fun x => [f x]) l = map f l.
Proof. induction l as [| x l IH]; simpl; [done | by rewrite IH]. Qed.

Lemma updated_clock jobId updates env w :
  clock_reads (updated jobId updates env w) = clock_reads w.
Proof. rewrite updated_eq. by destruct (store_fault env (store_ops w)). Qed.

Lemma after_items_clock sha docSlug jobId onProgress total rs :
  forall counts env w,
    clock_reads (after_items sha docSlug jobId onProgress total rs counts env w)
    = clock_reads w.
Proof.
  induction rs as [| r rs IH]; intros counts env w; cbn [after_items]; [done |].
  rewrite IH. unfold after_item.
  assert (H : forall (b : bool) e x,
             clock_reads (if b then record e x else x) = clock_reads x)
    by (by intros []).
  rewrite H, updated_clock.
  destruct (success r); [| done]. apply saved_frame.
Qed.

Lemma after_chunks_clock load sha cfg docSlug jobId onProgress total cs :
  forall counts env w,
    clock_reads (snd (after_chunks load sha cfg docSlug jobId onProgress total
                                   cs counts env w))
    = clock_reads w.
Proof.
  induction cs as [| batch cs IH]; intros counts env w; [done |].
  rewrite after_chunks_cons, IH.
  transitivity (clock_reads (chunk_saved load sha cfg docSlug jobId onProgress
                                         total batch counts env w)).
  - by destruct cs.
  - unfold chunk_saved. by rewrite after_items_clock.
Qed.

Lemma requested_app l1 l2 :
  requested (l1 ++ l2) = requested l1 ++ requested l2.
Proof. apply omap_app. Qed.

Lemma pauses_app l1 l2 : pauses (l1 ++ l2) = pauses l1 ++ pauses l2.
Proof. apply omap_app. Qed.

Lemma progress_calls_app l1 l2 :
  progress_calls (l1 ++ l2) = progress_calls l1 ++ progress_calls l2.
Proof. apply omap_app. Qed.

Lemma job_writes_app l1 l2 :
  job_writes (l1 ++ l2) = job_writes l1 ++ job_writes l2.
Proof. apply omap_app. Qed.

Lemma update_events_requested jobId updates env w :
  requested (update_events jobId updates env w) = [].
Proof.
  destruct (update_events_shape jobId updates env w) as (thrown & after & ->).
  by destruct thrown.
Qed.

Lemma update_events_pauses jobId updates env w :
  pauses (update_events jobId updates env w) = [].
Proof.
  destruct (update_events_shape jobId updates env w) as (thrown & after & ->).
  by destruct thrown.
Qed.

Lemma update_events_progress jobId updates env w :
  progress_calls (update_events jobId updates env w) = [].
Proof.
  destruct (update_events_shape jobId updates env w) as (thrown & after & ->).
  by destruct thrown.
Qed.

Lemma update_events_writes jobId updates env w :
  job_writes (update_events jobId updates env w) = [(jobId, updates)].
Proof.
  destruct (update_events_shape jobId updates env w) as (thrown & after & ->).
  by destruct thrown.
Qed.

Lemma requested_page_requests env timeout docSlug batch : forall n,
  requested (page_requests env timeout n docSlug batch)
  = map (fun entry => (Extract.page_url docSlug entry, timeout)) batch.
Proof.
  induction batch as [| e b IH]; intros n; [done |].
  cbn [page_requests map]. unfold requested in *. cbn [omap list_omap].
  by rewrite IH.
Qed.

Lemma chunks_requested load sha cfg docSlug jobId onProgress total cs :
  forall counts env w,
    requested (events_since w
                 (snd (after_chunks load sha cfg docSlug jobId onProgress total
                                    cs counts env w)))
    = map (fun entry => (Extract.page_url docSlug entry, timeoutMs cfg))
          (concat cs).
Proof.
  induction cs as [| batch cs IH]; intros counts env w.
  - simpl. by rewrite events_since_refl.
  - rewrite after_chunks_cons_events. cbv zeta.
    unfold requested. cbn [omap list_omap concat]. rewrite !omap_app.
    fold (requested (page_requests env (timeoutMs cfg) (requests w) docSlug
                                   batch)).
    rewrite requested_page_requests, map_app. f_equal.
    unfold chunk_saved at 1.
    rewrite (items_projection _ sha docSlug jobId onProgress total
                              (fun _ => [])).
    + rewrite flat_map_const_nil.
      replace (omap _ (chunk_pause cfg cs)) with (@nil (string * Z))
        by (by destruct cs).
      simpl. apply IH.
    + by intros [].
    + intros c env' w'. rewrite omap_app.
      fold (requested (update_events jobId (item_updates total c) env' w')).
      rewrite update_events_requested. by destruct onProgress.
Qed.

(** X7.  A run asks for the index and then for every page of the index,
    each exactly once and in the order of the index, whatever the answers
    are, and every request carries the configured timeout. *)
Theorem pages_requested_once_in_index_order
        load sha cfg fuel docSlug jobId onProgress env w entries :
  (0 < concurrency cfg)%Z ->
  (length entries <= fuel)%nat ->
  index_json env (requests w) (index_url docSlug) = Fetched entries ->
  requested (events_since w
               (snd (scrapeDoc load sha cfg fuel docSlug jobId onProgress env w)))
  = (index_url docSlug, timeoutMs cfg)
      :: map (fun entry => (Extract.page_url docSlug entry, timeoutMs cfg))
             entries.
Proof.
  intros Hk Hfuel Hidx.
  destruct (scrapeDoc_events load sha cfg fuel docSlug jobId onProgress env w
              entries Hk Hfuel Hidx) as [Hw' ->].
  rewrite Hw', at_return_events, at_loop_start_events.
  rewrite !requested_app. change (requested (EvGet ?n ?t ?ms ?ok :: ?l))
    with ((t, ms) :: requested l).
  rewrite ?requested_app, !update_events_requested.
  rewrite chunks_requested, concat_chunks by lia.
  simpl. by rewrite app_nil_r.
Qed.

Lemma pages_requested_once_in_index_order_witness :
  requested (events_since Sample.world
               (snd (scrapeDoc Sample.load Sample.digest Sample.config 3
                               "react" "job-1" true
                               Sample.env_one_timeout Sample.world)))
  = (index_url "react", timeoutMs Sample.config)
      :: map (fun entry => (Extract.page_url "react" entry,
                            timeoutMs Sample.config))
             Sample.entries.
Proof.
  apply (pages_requested_once_in_index_order
           Sample.load Sample.digest Sample.config 3 "react" "job-1" true
           Sample.env_one_timeout Sample.world Sample.entries);
    [reflexivity | simpl; lia | reflexivity].
Defined.

Lemma pauses_page_requests env timeout docSlug batch : forall n,
  pauses (page_requests env timeout n docSlug batch) = [].
Proof. induction batch as [| e b IH]; intros n; [done |]. apply IH. Qed.

Lemma chunks_pauses load sha cfg docSlug jobId onProgress total cs :
  forall counts env w,
    pauses (events_since w
              (snd (after_chunks load sha cfg docSlug jobId onProgress total
                                 cs counts env w)))
    = replicate (length cs - 1) (delayMs cfg).
Proof.
  induction cs as [| batch cs IH]; intros counts env w.
  - simpl. by rewrite events_since_refl.
  - rewrite after_chunks_cons_events. cbv zeta.
    change (pauses (EvPromiseAll ?b :: ?l)) with (pauses l).
    rewrite !pauses_app, pauses_page_requests, IH.
    unfold chunk_saved at 1. unfold pauses at 1.
    rewrite (items_projection _ sha docSlug jobId onProgress total
                              (fun _ => [])).
    + rewrite flat_map_const_nil. destruct cs as [| b' cs]; [done |].
      simpl. by rewrite Nat.sub_0_r.
    + by intros [].
    + intros c env' w'. rewrite omap_app.
      fold (pauses (update_events jobId (item_updates total c) env' w')).
      rewrite update_events_pauses. by destruct onProgress.
Qed.

(** X8.  A run pauses for the configured delay between two batches and
    nowhere else: one pause fewer than there are batches, and none after
    the last batch. *)
Theorem one_pause_between_batches
        load sha cfg fuel docSlug jobId onProgress env w entries :
  (0 < concurrency cfg)%Z ->
  (length entries <= fuel)%nat ->
  index_json env (requests w) (index_url docSlug) = Fetched entries ->
  let evs := events_since w
               (snd (scrapeDoc load sha cfg fuel docSlug jobId onProgress env w)) in
  pauses evs
  = replicate (ceil_div (length entries) (Z.to_nat (concurrency cfg)) - 1)
              (delayMs cfg)
  /\ forall ms, last evs <> Some (EvDelay ms).
Proof.
  intros Hk Hfuel Hidx evs. subst evs.
  destruct (scrapeDoc_events load sha cfg fuel docSlug jobId onProgress env w
              entries Hk Hfuel Hidx) as [Hw' ->].
  split.
  - rewrite Hw', at_return_events, at_loop_start_events.
    rewrite !pauses_app.
    change (pauses (EvGet ?n ?t ?ms ?ok :: ?l)) with (pauses l).
    repeat rewrite update_events_pauses. rewrite chunks_pauses.
    rewrite chunks_length by lia. simpl. by rewrite app_nil_r.
  - intros ms. rewrite Hw', at_return_events, !last_app.
    match goal with
    | |- context [update_events ?i ?u ?e ?x] =>
        destruct (update_events_shape i u e x) as (thrown & after & ->)
    end.
    by destruct thrown.
Qed.

Lemma one_pause_between_batches_witness :
  let evs := events_since Sample.world
               (snd (scrapeDoc Sample.load Sample.digest Sample.config 3
                               "react" "job-1" true
                               Sample.env Sample.world)) in
  pauses evs
  = replicate (ceil_div (length Sample.entries)
                        (Z.to_nat (concurrency Sample.config)) - 1)
              (delayMs Sample.config)
  /\ forall ms, last evs <> Some (EvDelay ms).
Proof.
  apply (one_pause_between_batches
           Sample.load Sample.digest Sample.config 3 "react" "job-1" true
           Sample.env Sample.world Sample.entries);
    [reflexivity | simpl; lia | reflexivity].
Defined.

(** X9.  When a progress callback is given it is called once per page,
    after the page is accounted for, with the number of pages done so far
    and the size of the index: (1, n), (2, n), ..., (n, n).  Without a
    callback nothing is called. *)
Theorem progress_callback_counts_up
        load sha cfg fuel docSlug jobId onProgress env w entries :
  (0 < concurrency cfg)%Z ->
  (length entries <= fuel)%nat ->
  index_json env (requests w) (index_url docSlug) = Fetched entries ->
  progress_calls
    (events_since w
       (snd (scrapeDoc load sha cfg fuel docSlug jobId onProgress env w)))
  = if onProgress
    then map (fun done => (done, length entries)) (seq 1 (length entries))
    else [].
Proof.
  intros Hk Hfuel Hidx.
  destruct (scrapeDoc_events load sha cfg fuel docSlug jobId onProgress env w
              entries Hk Hfuel Hidx) as [Hw' ->].
  rewrite Hw', at_return_events, at_loop_start_events.
  rewrite !progress_calls_app.
  change (progress_calls (EvGet ?n ?t ?ms ?ok :: ?l)) with (progress_calls l).
  repeat rewrite update_events_progress.
  rewrite app_nil_r.
  cbn [app]. unfold progress_calls.
  rewrite (chunks_projection _ load sha cfg docSlug jobId onProgress
             (length entries)
             (fun c => if onProgress
                       then [((fst c + snd c)%nat, length entries)] else [])).
  - rewrite concat_chunks by lia. destruct onProgress.
    + rewrite (flat_map_single (fun c => ((fst c + snd c)%nat, length entries))).
      rewrite <- (map_map (fun c => (fst c + snd c)%nat)
                          (fun done => (done, length entries))).
      by rewrite tallies_processed, page_results_length.
    + apply flat_map_const_nil.
  - by intros [].
  - intros c env' w'. rewrite omap_app.
    fold (progress_calls (update_events jobId
                            (item_updates (length entries) c) env' w')).
    rewrite update_events_progress. by destruct onProgress.
  - done.
  - done.
  - done.
Qed.

Lemma progress_callback_counts_up_witness :
  progress_calls
    (events_since Sample.world
       (snd (scrapeDoc Sample.load Sample.digest Sample.config 3
                       "react" "job-1" true
                       Sample.env_one_timeout Sample.world)))
  = map (fun done => (done, length Sample.entries))
        (seq 1 (length Sample.entries)).
Proof.
  apply (progress_callback_counts_up
           Sample.load Sample.digest Sample.config 3 "react" "job-1" true
           Sample.env_one_timeout Sample.world Sample.entries);
    [reflexivity | simpl; lia | reflexivity].
Defined.

(** X10.  The writes a run sends to the jobs table are, for any behaviour
    of the store: one that sets the total, the status running and the
    start time; one per page, in order, with the counters as they stand
    after that page; and one that sets the status completed and the end
    time.  All are addressed to the job of the run, none is repeated after
    a failure, and the counts of pages done they carry are 1, 2, ..., n. *)
Theorem job_writes_of_a_run
        load sha cfg fuel docSlug jobId onProgress env w entries :
  (0 < concurrency cfg)%Z ->
  (length entries <= fuel)%nat ->
  index_json env (requests w) (index_url docSlug) = Fetched entries ->
  let n := length entries in
  let results := page_results load env (S (requests w)) docSlug entries in
  job_writes
    (events_since w
       (snd (scrapeDoc load sha cfg fuel docSlug jobId onProgress env w)))
  = (jobId, start_updates n (clock env (clock_reads w)))
      :: map (fun c => (jobId, item_updates n c)) (tallies results (0, 0)%nat)
      ++ [(jobId, complete_updates (clock env (S (clock_reads w))))]
  /\ map (fun c => (fst c + snd c)%nat) (tallies results (0, 0)%nat)
     = seq 1 n.
Proof.
  intros Hk Hfuel Hidx n results. subst n results.
  split; [| by rewrite tallies_processed, page_results_length].
  destruct (scrapeDoc_events load sha cfg fuel docSlug jobId onProgress env w
              entries Hk Hfuel Hidx) as [Hw' ->].
  rewrite Hw', at_return_events, at_loop_start_events.
  rewrite !job_writes_app.
  change (job_writes (EvGet ?n ?t ?ms ?ok :: ?l)) with (job_writes l).
  repeat rewrite update_events_writes.
  rewrite after_chunks_clock.
  replace (clock_reads (at_loop_start cfg docSlug jobId entries env w))
    with (S (clock_reads w))
    by (unfold at_loop_start; by rewrite updated_clock).
  cbn [app]. do 2 f_equal.
  unfold job_writes.
  rewrite (chunks_projection _ load sha cfg docSlug jobId onProgress
             (length entries)
             (fun c => [(jobId, item_updates (length entries) c)])).
  - rewrite concat_chunks by lia.
    rewrite (flat_map_single (fun c => (jobId, item_updates (length entries) c))).
    by rewrite at_loop_start_requests.
  - by intros [].
  - intros c env' w'. rewrite omap_app.
    fold (job_writes (update_events jobId
                        (item_updates (length entries) c) env' w')).
    rewrite update_events_writes. by destruct onProgress.
  - done.
  - done.
  - done.
Qed.

Lemma job_writes_of_a_run_witness :
  let n := length Sample.entries in
  let results := page_results Sample.load Sample.env_store_down
                              (S (requests Sample.world)) "react"
                              Sample.entries in
  job_writes
    (events_since Sample.world
       (snd (scrapeDoc Sample.load Sample.digest Sample.config 3
                       "react" "job-1" true
                       Sample.env_store_down Sample.world)))
  = ("job-1", start_updates n (clock Sample.env_store_down
                                     (clock_reads Sample.world)))
      :: map (fun c => ("job-1", item_updates n c)) (tallies results (0, 0)%nat)
      ++ [("job-1", complete_updates
                      (clock Sample.env_store_down
                             (S (clock_reads Sample.world))))]
  /\ map (fun c => (fst c + snd c)%nat) (tallies results (0, 0)%nat)
     = seq 1 n.
Proof.
  apply (job_writes_of_a_run
           Sample.load Sample.digest Sample.config 3 "react" "job-1" true
           Sample.env_store_down Sample.world Sample.entries);
    [reflexivity | simpl; lia | reflexivity].
Defined.

(* ===================================================================== *)
(** ** What one save does to the store *)
(* ===================================================================== *)

Lemma truthy_contradiction s :
  Js.truthy s = true -> negb (Js.truthy s) = true -> False.
Proof. by intros ->. Qed.

(** Whatever the store does, a save leaves the table as it is or files
    the row of the page under the address of the page. *)
Lemma saved_table sha r docSlug env w :
  let w' := saved sha r docSlug env w in
  knowledge_content w' = knowledge_content w
  \/ exists source_id,
       resolved_source w = Some source_id
       /\ Js.truthy source_id = true
       /\ knowledge_content w'
          = <[url r := contentData sha source_id r]> (knowledge_content w).
Proof.
  unfold saved, saveContent, try_catch, bind, store_call, get_world, emit, ret,
    resolved_source, same_hash, no_source, id_or_null.
  destruct w as [js kc ks sid rq ops clk lg]. simpl.
  repeat (case_match; simpl in *; simplify_eq);
    try (left; reflexivity);
    right; eexists; (split; [reflexivity |]); (split; [| reflexivity]);
    repeat match goal with
           | H : negb ?b = false |- _ => apply negb_false_iff in H
           end; done.
Qed.

(** The cached source id changes only from none to the one found. *)
Lemma saved_cache sha r docSlug env w :
  let w' := saved sha r docSlug env w in
  sourceId w' = sourceId w
  \/ (no_source (sourceId w) = true
      /\ sourceId w' = id_or_null (knowledge_source w)).
Proof.
  unfold saved, saveContent, try_catch, bind, store_call, get_world, emit, ret,
    same_hash, no_source, id_or_null.
  destruct w as [js kc ks sid rq ops clk lg]. simpl.
  repeat (case_match; simpl in *; simplify_eq);
    try (left; reflexivity); right; split; congruence.
Qed.

Lemma saved_log sha r docSlug env w :
  let w' := saved sha r docSlug env w in
  exists evs,
    log w' = log w ++ evs
    /\ Forall (content_event_for (url r)) evs
    /\ (no_source (sourceId w) = false ->
        Forall (fun e => is_source_query e = false) evs)
    /\ (resolved_source w = None ->
        Forall (fun e => touches_content e = false) evs).
Proof.
  unfold saved, saveContent, try_catch, bind, store_call, get_world, emit, ret,
    resolved_source, same_hash, no_source, id_or_null.
  destruct w as [js kc ks sid rq ops clk lg]. simpl.
  repeat (case_match; simpl in *; simplify_eq);
    rewrite <- ?app_assoc; simpl;
    (eexists; split; [reflexivity |]);
    (split; [repeat constructor |]);
    (split; intros ?; simplify_eq; repeat constructor).
Qed.

Lemma alter_absent {A} (f : A -> A) (i : string) (m : gmap string A) :
  m !! i = None -> alter f i m = m.
Proof.
  intros Hi. apply map_eq. intros j. destruct (decide (i = j)) as [<- | Hne].
  - by rewrite lookup_alter_eq, Hi.
  - by rewrite lookup_alter_ne.
Qed.

Lemma updated_view jobId updates env w :
  let w' := updated jobId updates env w in
  knowledge_content w' = knowledge_content w
  /\ knowledge_source w' = knowledge_source w
  /\ sourceId w' = sourceId w
  /\ jobs w' = match store_fault env (store_ops w) with
               | None => alter (merge updates) jobId (jobs w)
               | Some _ => jobs w
               end.
Proof.
  cbv zeta. rewrite updated_eq. by destruct (store_fault env (store_ops w)).
Qed.

Ltac same_view H :=
  unfold store_view in H;
  let Hj := fresh "Hj" in
  let Hc := fresh "Hc" in
  let Hs := fresh "Hs" in
  let Hi := fresh "Hi" in
  injection H as Hj Hc Hs Hi.

(** X11.  A run writes to no row of the jobs table but the one of its
    job, and it never creates a row: when the table has no row for the
    job, it is left exactly as it was. *)
Theorem run_writes_only_its_job_row
        load sha cfg fuel docSlug jobId onProgress env w entries :
  (0 < concurrency cfg)%Z ->
  (length entries <= fuel)%nat ->
  index_json env (requests w) (index_url docSlug) = Fetched entries ->
  let w' := snd (scrapeDoc load sha cfg fuel docSlug jobId onProgress env w) in
  (forall other, other <> jobId -> jobs w' !! other = jobs w !! other)
  /\ (jobs w !! jobId = None -> jobs w' = jobs w).
Proof.
  intros Hk Hfuel Hidx.
  refine (proj1 (kept_by_run load sha cfg fuel docSlug jobId onProgress env w
                   entries
                   (fun w1 =>
                      (forall other, other <> jobId ->
                                     jobs w1 !! other = jobs w !! other)
                      /\ (jobs w !! jobId = None -> jobs w1 = jobs w))
                   (fun _ => True) (fun _ => True)
                   Hk Hfuel Hidx _ _ _ _ _ _)).
  - intros w1 w2 Hv. same_view Hv. by rewrite Hj.
  - intros n entry w1 _ Hw1. split; [| by apply Forall_forall].
    destruct (saved_frame sha (page_result load env n docSlug entry) docSlug
                          env w1) as (-> & _). done.
  - intros updates w1 _ [Hother Hnone]. split; [| by apply Forall_forall].
    destruct (updated_view jobId updates env w1) as (_ & _ & _ & ->).
    destruct (store_fault env (store_ops w1)); [done |]. split.
    + intros other Hne. rewrite lookup_alter_ne by done. by apply Hother.
    + intros Habsent. rewrite (Hnone Habsent). by apply alter_absent.
  - done.
  - by apply Forall_forall.
  - done.
Qed.

Lemma run_writes_only_its_job_row_witness :
  let w' := snd (scrapeDoc Sample.load Sample.digest Sample.config 3
                           "react" "job-7" true Sample.env Sample.world) in
  (forall other, other <> "job-7" ->
                 jobs w' !! other = jobs Sample.world !! other)
  /\ (jobs Sample.world !! "job-7" = None -> jobs w' = jobs Sample.world).
Proof.
  apply (run_writes_only_its_job_row
           Sample.load Sample.digest Sample.config 3 "react" "job-7" true
           Sample.env Sample.world Sample.entries);
    [reflexivity | simpl; lia | reflexivity].
Defined.

Lemma merge_run_updates total updates j :
  run_updates total updates ->
  result_columns_kept j (merge updates j).
Proof.
  intros [[t ->] | [[c ->] | [t ->]]]; unfold result_columns_kept; simpl;
    repeat split; auto.
Qed.

Lemma result_columns_kept_trans j1 j2 j3 :
  result_columns_kept j1 j2 -> result_columns_kept j2 j3 ->
  result_columns_kept j1 j3.
Proof.
  unfold result_columns_kept.
  intros (-> & -> & -> & -> & H1) (-> & -> & -> & -> & H2).
  repeat split. destruct H2 as [-> | H2]; auto.
Qed.

(** X12.  A run never records how many rows were new, updated or
    unchanged, never records an error message, and gives the status of
    its job no value but running and completed: whatever happens to the
    pages and to the store, the job is never marked failed.  This holds
    for the row after the run and for every row a write of the run
    produced. *)
Theorem run_never_marks_failure
        load sha cfg fuel docSlug jobId onProgress env w entries j0 :
  (0 < concurrency cfg)%Z ->
  (length entries <= fuel)%nat ->
  index_json env (requests w) (index_url docSlug) = Fetched entries ->
  jobs w !! jobId = Some j0 ->
  let w' := snd (scrapeDoc load sha cfg fuel docSlug jobId onProgress env w) in
  (exists j, jobs w' !! jobId = Some j /\ result_columns_kept j0 j)
  /\ Forall (result_columns_kept j0) (snapshots (events_since w w')).
Proof.
  intros Hk Hfuel Hidx Hj0 w'.
  destruct (kept_by_run load sha cfg fuel docSlug jobId onProgress env w
              entries
              (fun w1 => exists j, jobs w1 !! jobId = Some j
                                   /\ result_columns_kept j0 j)
              (fun e => Forall (result_columns_kept j0) (snapshots [e]))
              (fun _ => True)
              Hk Hfuel Hidx) as [Hrow Hlog].
  - intros w1 w2 Hv. same_view Hv. by rewrite Hj.
  - intros n entry w1 _ Hw1. split.
    + destruct (saved_frame sha (page_result load env n docSlug entry) docSlug
                            env w1) as (-> & _). done.
    + eapply Forall_impl; [apply saved_events |].
      intros e He. by destruct e.
  - intros updates w1 Hup (j & Hj & Hkept).
    destruct (updated_view jobId updates env w1) as (_ & _ & _ & Hjobs).
    unfold update_events. rewrite Hjobs.
    destruct (store_fault env (store_ops w1)).
    + split; [by exists j |]. rewrite Hj.
      rewrite !Forall_cons. simpl. rewrite ?Forall_cons.
      split_and!; try done; constructor.
    + rewrite lookup_alter_eq, Hj. simpl.
      assert (Hnew : result_columns_kept j0 (merge updates j))
        by (eapply result_columns_kept_trans;
            [exact Hkept | by eapply merge_run_updates]).
      split; [by eexists |].
      rewrite !Forall_cons. simpl. rewrite ?Forall_cons.
      split_and!; try done; constructor.
  - intros e He1 He2. destruct e; simpl in *; try done; constructor.
  - by apply Forall_forall.
  - exists j0. split; [done |]. unfold result_columns_kept. auto 10.
  - split; [exact Hrow |].
    fold w' in Hlog. clear - Hlog.
    induction Hlog as [| e l He _ IH]; [constructor |].
    change (e :: l) with ([e] ++ l). rewrite snapshots_app.
    by apply Forall_app.
Qed.

Lemma run_never_marks_failure_witness :
  let w' := snd (scrapeDoc Sample.load Sample.digest Sample.config 3
                           "react" "job-1" true
                           Sample.env_store_down Sample.world) in
  (exists j, jobs w' !! "job-1" = Some j /\ result_columns_kept createJob j)
  /\ Forall (result_columns_kept createJob)
            (snapshots (events_since Sample.world w')).
Proof.
  apply (run_never_marks_failure
           Sample.load Sample.digest Sample.config 3 "react" "job-1" true
           Sample.env_store_down Sample.world Sample.entries createJob);
    [reflexivity | simpl; lia | reflexivity | reflexivity].
Defined.

(** X13.  A scraper that already holds a source id never asks the store
    for it again: a run makes no query to the sources table and keeps the
    id it has. *)
Theorem cached_source_id_is_not_looked_up
        load sha cfg fuel docSlug jobId onProgress env w entries :
  (0 < concurrency cfg)%Z ->
  (length entries <= fuel)%nat ->
  index_json env (requests w) (index_url docSlug) = Fetched entries ->
  no_source (sourceId w) = false ->
  let w' := snd (scrapeDoc load sha cfg fuel docSlug jobId onProgress env w) in
  sourceId w' = sourceId w
  /\ Forall (fun e => is_source_query e = false) (events_since w w').
Proof.
  intros Hk Hfuel Hidx Hid.
  apply (kept_by_run load sha cfg fuel docSlug jobId onProgress env w entries
           (fun w1 => sourceId w1 = sourceId w)
           (fun e => is_source_query e = false) (fun _ => True)
           Hk Hfuel Hidx).
  - intros w1 w2 Hv. same_view Hv. congruence.
  - intros n entry w1 _ Hw1.
    set (r := page_result load env n docSlug entry).
    destruct (saved_log sha r docSlug env w1) as (evs & Hlog & _ & Hq & _).
    rewrite (events_since_app _ _ _ Hlog). split.
    + destruct (saved_cache sha r docSlug env w1) as [-> | [Hno _]]; [done |].
      rewrite Hw1 in Hno. congruence.
    + apply Hq. by rewrite Hw1.
  - intros updates w1 _ Hw1. split.
    + destruct (updated_view jobId updates env w1) as (_ & _ & -> & _). done.
    + destruct (update_events_shape jobId updates env w1)
        as (thrown & after & ->).
      destruct thrown; by repeat constructor.
  - intros e He1 He2. by destruct e.
  - by apply Forall_forall.
  - done.
Qed.

Lemma cached_source_id_is_not_looked_up_witness :
  let w := with_sourceId (Some "source-1") Sample.world in
  let w' := snd (scrapeDoc Sample.load Sample.digest Sample.config 3
                           "react" "job-1" true Sample.env w) in
  sourceId w' = sourceId w
  /\ Forall (fun e => is_source_query e = false) (events_since w w').
Proof.
  apply (cached_source_id_is_not_looked_up
           Sample.load Sample.digest Sample.config 3 "react" "job-1" true
           Sample.env (with_sourceId (Some "source-1") Sample.world)
           Sample.entries);
    [reflexivity | simpl; lia | reflexivity | reflexivity].
Defined.

(** X14.  While no usable source id can be found, neither cached nor in
    the sources table, a run neither reads nor writes the content table,
    whatever the store does; yet it returns the pages it fetched as
    successes. *)
Theorem no_source_nothing_stored
        load sha cfg fuel docSlug jobId onProgress env w entries :
  (0 < concurrency cfg)%Z ->
  (length entries <= fuel)%nat ->
  index_json env (requests w) (index_url docSlug) = Fetched entries ->
  resolved_source w = None ->
  let run := scrapeDoc load sha cfg fuel docSlug jobId onProgress env w in
  let results := page_results load env (S (requests w)) docSlug entries in
  knowledge_content (snd run) = knowledge_content w
  /\ Forall (fun e => touches_content e = false) (events_since w (snd run))
  /\ fst run = Return (Summary.make (succeeded results) (failures results)
                                    (length entries)).
Proof.
  intros Hk Hfuel Hidx Hnone run results.
  destruct (kept_by_run load sha cfg fuel docSlug jobId onProgress env w
              entries
              (fun w1 => resolved_source w1 = None
                         /\ knowledge_content w1 = knowledge_content w)
              (fun e => touches_content e = false) (fun _ => True)
              Hk Hfuel Hidx) as [[_ Htable] Hlog].
  - intros w1 w2 Hv. same_view Hv. unfold resolved_source.
    by rewrite <- Hc, <- Hs, <- Hi.
  - intros n entry w1 _ [Hsrc Htable].
    set (r := page_result load env n docSlug entry).
    destruct (saved_log sha r docSlug env w1) as (evs & Hlog & _ & _ & Hq).
    rewrite (events_since_app _ _ _ Hlog).
    destruct (saved_frame sha r docSlug env w1) as (_ & _ & _ & _ & -> & _).
    split; [split; [done |] | by apply Hq].
    destruct (saved_table sha r docSlug env w1) as [-> | (sid & Hsid & _)];
      [done | congruence].
  - intros updates w1 _ [Hsrc Htable].
    destruct (updated_store jobId updates env w1) as (-> & -> & _).
    split; [done |].
    destruct (update_events_shape jobId updates env w1)
      as (thrown & after & ->).
    destruct thrown; by repeat constructor.
  - intros e He1 He2. by destruct e.
  - by apply Forall_forall.
  - done.
  - split_and!; [exact Htable | exact Hlog | by apply scrapeDoc_summary].
Qed.

Lemma no_source_nothing_stored_witness :
  let run := scrapeDoc Sample.load Sample.digest Sample.config 3
                       "react" "job-1" true Sample.env
                       Sample.world_no_source in
  let results := page_results Sample.load Sample.env
                              (S (requests Sample.world_no_source)) "react"
                              Sample.entries in
  knowledge_content (snd run) = knowledge_content Sample.world_no_source
  /\ Forall (fun e => touches_content e = false)
            (events_since Sample.world_no_source (snd run))
  /\ fst run = Return (Summary.make (succeeded results) (failures results)
                                    (length Sample.entries)).
Proof.
  apply (no_source_nothing_stored
           Sample.load Sample.digest Sample.config 3 "react" "job-1" true
           Sample.env Sample.world_no_source Sample.entries);
    [reflexivity | simpl; lia | reflexivity | reflexivity].
Defined.

(** X15.  A run reads and writes the content table only under the
    addresses of the pages of the index: every other row is left as it
    was, and no row is ever removed. *)
Theorem run_touches_only_indexed_pages
        load sha cfg fuel docSlug jobId onProgress env w entries :
  (0 < concurrency cfg)%Z ->
  (length entries <= fuel)%nat ->
  index_json env (requests w) (index_url docSlug) = Fetched entries ->
  let urls := map (Extract.page_url docSlug) entries in
  let w' := snd (scrapeDoc load sha cfg fuel docSlug jobId onProgress env w) in
  ((forall u, u ∉ urls -> knowledge_content w' !! u = knowledge_content w !! u)
   /\ (forall u, is_Some (knowledge_content w !! u) ->
                 is_Some (knowledge_content w' !! u)))
  /\ Forall (fun e => touches_content e = true ->
                      exists u, u ∈ urls /\ content_event_for u e)
            (events_since w w').
Proof.
  intros Hk Hfuel Hidx urls.
  apply (kept_by_run load sha cfg fuel docSlug jobId onProgress env w entries
           (fun w1 =>
              (forall u, u ∉ urls ->
                         knowledge_content w1 !! u = knowledge_content w !! u)
              /\ (forall u, is_Some (knowledge_content w !! u) ->
                            is_Some (knowledge_content w1 !! u)))
           (fun e => touches_content e = true ->
                     exists u, u ∈ urls /\ content_event_for u e)
           (fun entry => entry ∈ entries)
           Hk Hfuel Hidx).
  - intros w1 w2 Hv. same_view Hv. by rewrite Hc.
  - intros n entry w1 Hin [Hout Hkeep].
    set (r := page_result load env n docSlug entry).
    assert (Hurl : url r ∈ urls).
    { unfold r. rewrite page_result_url. apply elem_of_map. by exists entry. }
    split.
    + destruct (saved_table sha r docSlug env w1) as [-> | (sid & _ & _ & ->)];
        [done |].
      split.
      * intros u Hu. rewrite lookup_insert_ne; [by apply Hout |].
        intros Heq. apply Hu. by rewrite <- Heq.
      * intros u Hu. apply lookup_insert_is_Some'. right. by apply Hkeep.
    + destruct (saved_log sha r docSlug env w1) as (evs & Hlog & Hfor & _).
      rewrite (events_since_app _ _ _ Hlog).
      eapply Forall_impl; [exact Hfor |]. intros e He _. by exists (url r).
  - intros updates w1 _ Hw1.
    destruct (updated_store jobId updates env w1) as (-> & _ & _).
    split; [done |].
    destruct (update_events_shape jobId updates env w1)
      as (thrown & after & ->).
    destruct thrown; by repeat constructor.
  - intros e He1 He2. by destruct e.
  - by apply Forall_forall.
  - done.
Qed.

Lemma run_touches_only_indexed_pages_witness :
  let urls := map (Extract.page_url "react") Sample.entries in
  let w' := snd (scrapeDoc Sample.load Sample.digest Sample.config 3
                           "react" "job-1" true Sample.env Sample.world) in
  ((forall u, u ∉ urls ->
              knowledge_content w' !! u = knowledge_content Sample.world !! u)
   /\ (forall u, is_Some (knowledge_content Sample.world !! u) ->
                 is_Some (knowledge_content w' !! u)))
  /\ Forall (fun e => touches_content e = true ->
                      exists u, u ∈ urls /\ content_event_for u e)
            (events_since Sample.world w').
Proof.
  apply (run_touches_only_indexed_pages
           Sample.load Sample.digest Sample.config 3 "react" "job-1" true
           Sample.env Sample.world Sample.entries);
    [reflexivity | simpl; lia | reflexivity].
Defined.

(** X16.  Every row a run leaves in the content table either was there
    before, unchanged, or is well formed: filed under its own address,
    carrying the digest of its own text, marked as a documentation page
    that is not yet processed, and attributed to the source id the
    scraper resolved. *)
Theorem written_rows_are_well_formed
        load sha cfg fuel docSlug jobId onProgress env w entries :
  (0 < concurrency cfg)%Z ->
  (length entries <= fuel)%nat ->
  index_json env (requests w) (index_url docSlug) = Fetched entries ->
  let w' := snd (scrapeDoc load sha cfg fuel docSlug jobId onProgress env w) in
  forall u row,
    knowledge_content w' !! u = Some row ->
    knowledge_content w !! u = Some row
    \/ (well_formed_row sha u row
        /\ resolved_source w = Some (row_source_id row)).
Proof.
  intros Hk Hfuel Hidx.
  refine (proj2 (proj1 (kept_by_run load sha cfg fuel docSlug jobId onProgress
                          env w entries
                          (fun w1 =>
                             resolved_source w1 = resolved_source w
                             /\ forall u row,
                                 knowledge_content w1 !! u = Some row ->
                                 knowledge_content w !! u = Some row
                                 \/ (well_formed_row sha u row
                                     /\ resolved_source w
                                        = Some (row_source_id row)))
                          (fun _ => True) (fun _ => True)
                          Hk Hfuel Hidx _ _ _ _ _ _))).
  - intros w1 w2 Hv. same_view Hv. unfold resolved_source.
    by rewrite <- Hc, <- Hs, <- Hi.
  - intros n entry w1 _ [Hsrc Hrows]. split; [| by apply Forall_forall].
    set (r := page_result load env n docSlug entry).
    destruct (saved_frame sha r docSlug env w1) as (_ & _ & _ & _ & -> & _).
    split; [done |].
    destruct (saved_table sha r docSlug env w1)
      as [-> | (sid & Hsid & Htruthy & ->)]; [done |].
    intros u row [[<- <-] | [_ Hrow]]%lookup_insert_Some; [| by apply Hrows].
    right. split; [by repeat split |]. simpl. congruence.
  - intros updates w1 _ [Hsrc Hrows]. split; [| by apply Forall_forall].
    by destruct (updated_store jobId updates env w1) as (-> & -> & _).
  - done.
  - by apply Forall_forall.
  - split; [done |]. intros u row Hrow. by left.
Qed.

Lemma written_rows_are_well_formed_witness :
  index_json Sample.env (requests Sample.world) (index_url "react")
  = Fetched Sample.entries
  /\ forall u row,
      knowledge_content
        (snd (scrapeDoc Sample.load Sample.digest Sample.config 3
                        "react" "job-1" true Sample.env Sample.world)) !! u
      = Some row ->
      knowledge_content Sample.world !! u = Some row
      \/ (well_formed_row Sample.digest u row
          /\ resolved_source Sample.world = Some (row_source_id row)).
Proof.
  split; [reflexivity |].
  apply (written_rows_are_well_formed
           Sample.load Sample.digest Sample.config 3 "react" "job-1" true
           Sample.env Sample.world Sample.entries);
    [reflexivity | simpl; lia | reflexivity].
Defined.

(* ===================================================================== *)
(** ** The loop for any concurrency *)
(* ===================================================================== *)

(** A run whose index request is answered is the batch loop between the
    write that starts the job and the write that completes it. *)
Lemma scrapeDoc_from_loop load sha cfg fuel docSlug jobId onProgress env w
      entries :
  index_json env (requests w) (index_url docSlug) = Fetched entries ->
  scrapeDoc load sha cfg fuel docSlug jobId onProgress env w
  = match batches load sha cfg fuel docSlug jobId onProgress entries 0
                  (0, 0)%nat env
                  (at_loop_start cfg docSlug jobId entries env w) with
    | (Return counts, w2) =>
        (Return (Summary.make (fst counts) (snd counts) (length entries)),
         at_return jobId env w2)
    | (Throw t, w2) => (Throw t, w2)
    | (OutOfFuel, w2) => (OutOfFuel, w2)
    end.
Proof.
  intros Hidx. unfold scrapeDoc.
  unfold bind at 1. unfold getDocEntries, try_catch, axios_get.
  fold (index_url docSlug). rewrite Hidx.
  unfold bind at 1. unfold now at 1.
  unfold bind at 1. rewrite (run_pair (updateJob jobId _)), updateJob_returns.
  unfold bind at 1.
  change (snd (updateJob jobId _ env _))
    with (at_loop_start cfg docSlug jobId entries env w).
  destruct (batches load sha cfg fuel docSlug jobId onProgress entries 0
                    (0, 0)%nat env
                    (at_loop_start cfg docSlug jobId entries env w))
    as [[counts | t |] w2]; [| done | done].
  unfold bind at 1, now at 1.
  unfold bind at 1. rewrite (run_pair (updateJob jobId _)), updateJob_returns.
  reflexivity.
Qed.

(** With a concurrency that is not positive the index never advances
    past the entries: the loop uses up any fuel. *)
Lemma batches_never_end load sha cfg docSlug jobId onProgress entries :
  (concurrency cfg <= 0)%Z ->
  forall fuel i counts env w,
    (i < Z.of_nat (length entries))%Z ->
    fst (batches load sha cfg fuel docSlug jobId onProgress entries i counts
                 env w)
    = OutOfFuel.
Proof.
  intros Hk. induction fuel as [| fuel IH]; intros i counts env w Hi;
    cbn [batches];
    (replace (i <? Z.of_nat (length entries))%Z with true by lia);
    [done |].
  unfold bind at 1, emit at 1.
  unfold bind at 1. rewrite scrapePages_run.
  unfold bind at 1. rewrite saveResults_run.
  unfold bind at 1.
  destruct (i + concurrency cfg <? Z.of_nat (length entries))%Z;
    unfold delay, emit, ret; apply IH; lia.
Qed.

Lemma update_events_batches jobId updates env w :
  promise_all_batches (update_events jobId updates env w) = [].
Proof.
  destruct (update_events_shape jobId updates env w) as (thrown & after & ->).
  by destruct thrown.
Qed.

(** X17.  A run over an empty index completes at once, for every
    concurrency: it returns three zeros, requests nothing but the index,
    starts no batch, never pauses, never calls the progress callback,
    leaves the content table alone, and writes the job row twice, to
    start it with a total of 0 and to complete it. *)
Theorem empty_index_completes_at_once
        load sha cfg fuel docSlug jobId onProgress env w :
  index_json env (requests w) (index_url docSlug) = Fetched [] ->
  let run := scrapeDoc load sha cfg fuel docSlug jobId onProgress env w in
  let evs := events_since w (snd run) in
  fst run = Return (Summary.make 0 0 0)
  /\ requested evs = [(index_url docSlug, timeoutMs cfg)]
  /\ promise_all_batches evs = []
  /\ pauses evs = []
  /\ progress_calls evs = []
  /\ job_writes evs
     = [(jobId, start_updates 0 (clock env (clock_reads w)));
        (jobId, complete_updates (clock env (S (clock_reads w))))]
  /\ knowledge_content (snd run) = knowledge_content w.
Proof.
  intros Hidx run evs. subst evs run.
  rewrite (scrapeDoc_from_loop _ _ _ _ _ _ _ _ _ [] Hidx).
  assert (Hloop : forall w1,
             batches load sha cfg fuel docSlug jobId onProgress [] 0
                     (0, 0)%nat env w1 = (Return (0, 0)%nat, w1))
    by (intros w1; by destruct fuel).
  rewrite Hloop. cbn [fst snd].
  rewrite (events_since_trans w (at_loop_start cfg docSlug jobId [] env w))
    by (apply at_loop_start_extends || apply at_return_extends).
  rewrite at_loop_start_events, at_return_events.
  replace (clock_reads (at_loop_start cfg docSlug jobId [] env w))
    with (S (clock_reads w))
    by (unfold at_loop_start; by rewrite updated_clock).
  split; [done |].
  split.
  { rewrite requested_app.
    change (requested (EvGet ?n ?t ?ms ?ok :: ?l)) with ((t, ms) :: requested l).
    by rewrite !update_events_requested. }
  split.
  { rewrite promise_all_batches_app.
    change (promise_all_batches (EvGet ?n ?t ?ms ?ok :: ?l))
      with (promise_all_batches l).
    by rewrite !update_events_batches. }
  split.
  { rewrite pauses_app.
    change (pauses (EvGet ?n ?t ?ms ?ok :: ?l)) with (pauses l).
    by rewrite !update_events_pauses. }
  split.
  { rewrite progress_calls_app.
    change (progress_calls (EvGet ?n ?t ?ms ?ok :: ?l))
      with (progress_calls l).
    by rewrite !update_events_progress. }
  split.
  { rewrite job_writes_app.
    change (job_writes (EvGet ?n ?t ?ms ?ok :: ?l)) with (job_writes l).
    by rewrite !update_events_writes. }
  destruct (at_return_store jobId env
                           (at_loop_start cfg docSlug jobId [] env w))
    as (-> & _).
  by destruct (at_loop_start_store cfg docSlug jobId [] env w) as (-> & _).
Qed.

Lemma empty_index_completes_at_once_witness :
  let env := mkEnv (fun _ _ => Fetched []) (fun _ _ => Fetched Sample.hooks_html)
                   (fun _ => None) (fun _ => Sample.timestamp) in
  let run := scrapeDoc Sample.load Sample.digest Sample.config 0
                       "react" "job-1" true env Sample.world in
  let evs := events_since Sample.world (snd run) in
  fst run = Return (Summary.make 0 0 0)
  /\ requested evs = [(index_url "react", timeoutMs Sample.config)]
  /\ promise_all_batches evs = []
  /\ pauses evs = []
  /\ progress_calls evs = []
  /\ job_writes evs
     = [("job-1", start_updates 0 (clock env (clock_reads Sample.world)));
        ("job-1", complete_updates (clock env (S (clock_reads Sample.world))))]
  /\ knowledge_content (snd run) = knowledge_content Sample.world.
Proof.
  apply (empty_index_completes_at_once
           Sample.load Sample.digest Sample.config 0 "react" "job-1" true
           (mkEnv (fun _ _ => Fetched []) (fun _ _ => Fetched Sample.hooks_html)
                  (fun _ => None) (fun _ => Sample.timestamp))
           Sample.world).
  reflexivity.
Defined.

(** X18.  With a concurrency that is zero or negative and an index that
    is not empty the loop never ends: however long the run is followed,
    it has not returned. *)
Theorem nonpositive_concurrency_never_returns
        load sha cfg docSlug jobId onProgress env w entries :
  (concurrency cfg <= 0)%Z ->
  entries <> [] ->
  index_json env (requests w) (index_url docSlug) = Fetched entries ->
  forall fuel,
    fst (scrapeDoc load sha cfg fuel docSlug jobId onProgress env w)
    = OutOfFuel.
Proof.
  intros Hk Hne Hidx fuel.
  rewrite (scrapeDoc_from_loop _ _ _ _ _ _ _ _ _ entries Hidx).
  pose proof (batches_never_end load sha cfg docSlug jobId onProgress entries
                Hk fuel 0 (0, 0)%nat env
                (at_loop_start cfg docSlug jobId entries env w)) as Hloop.
  destruct (batches load sha cfg fuel docSlug jobId onProgress entries 0
                    (0, 0)%nat env
                    (at_loop_start cfg docSlug jobId entries env w))
    as [[counts | t |] w2]; simpl in *.
  - discriminate Hloop. destruct entries; [done | simpl; lia].
  - discriminate Hloop. destruct entries; [done | simpl; lia].
  - done.
Qed.

Lemma nonpositive_concurrency_never_returns_witness :
  (concurrency (new_config (Some (-2)%Z) None None None None None) <= 0)%Z
  /\ forall fuel,
      fst (scrapeDoc Sample.load Sample.digest
                     (new_config (Some (-2)%Z) None None None None None)
                     fuel "react" "job-1" true Sample.env Sample.world)
      = OutOfFuel.
Proof.
  split; [simpl; lia |].
  apply (nonpositive_concurrency_never_returns
           Sample.load Sample.digest
           (new_config (Some (-2)%Z) None None None None None)
           "react" "job-1" true Sample.env Sample.world Sample.entries);
    [simpl; lia | discriminate | reflexivity].
Defined.

(** X19.  A scraper built by the constructor with no concurrency, with
    zero or with a positive one has a positive concurrency, zero and
    none being replaced by 3, and every run of it whose index request is
    answered returns, with one outcome per page of the index. *)
Theorem constructed_scraper_returns
        load sha c d t m rm rh fuel docSlug jobId onProgress env w entries :
  (forall v, c = Some v -> (0 <= v)%Z) ->
  (length entries <= fuel)%nat ->
  index_json env (requests w) (index_url docSlug) = Fetched entries ->
  let cfg := new_config c d t m rm rh in
  let results := page_results load env (S (requests w)) docSlug entries in
  (0 < concurrency cfg)%Z
  /\ (c = None \/ c = Some 0%Z -> concurrency cfg = 3%Z)
  /\ fst (scrapeDoc load sha cfg fuel docSlug jobId onProgress env w)
     = Return (Summary.make (succeeded results) (failures results)
                            (length entries))
  /\ (succeeded results + failures results = length entries)%nat.
Proof.
  intros Hc Hfuel Hidx cfg results.
  assert (Hk : (0 < concurrency cfg)%Z).
  { unfold cfg, new_config, or_default. simpl. destruct c as [v |]; [| lia].
    specialize (Hc v eq_refl). destruct (v =? 0)%Z eqn:Hv; lia. }
  split_and!.
  - exact Hk.
  - by intros [-> | ->].
  - by apply scrapeDoc_summary.
  - unfold results. by rewrite succeeded_failures, page_results_length.
Qed.

Lemma constructed_scraper_returns_witness :
  let cfg := new_config (Some 0%Z) None None None None None in
  let results := page_results Sample.load Sample.env_one_timeout
                              (S (requests Sample.world)) "react"
                              Sample.entries in
  (0 < concurrency cfg)%Z
  /\ (Some 0%Z = None \/ Some 0%Z = Some 0%Z -> concurrency cfg = 3%Z)
  /\ fst (scrapeDoc Sample.load Sample.digest cfg 3 "react" "job-1" true
                    Sample.env_one_timeout Sample.world)
     = Return (Summary.make (succeeded results) (failures results)
                            (length Sample.entries))
  /\ (succeeded results + failures results = length Sample.entries)%nat.
Proof.
  apply (constructed_scraper_returns
           Sample.load Sample.digest (Some 0%Z) None None None None None
           3 "react" "job-1" true Sample.env_one_timeout Sample.world
           Sample.entries);
    [intros v [= <-]; lia | simpl; lia | reflexivity].
Defined.

(* ===================================================================== *)
(** ** One save *)
(* ===================================================================== *)

(** X20.  When the store works and a source id is found, a saved page is
    found again: after the save the table has, under the address of the
    page, a row with the digest of its text, and saving the same page
    once more writes nothing and leaves the table as it is. *)
Theorem saved_page_is_found_again sha r docSlug env w source_id :
  fault_free env ->
  resolved_source w = Some source_id ->
  let w1 := saved sha r docSlug env w in
  let w2 := saved sha r docSlug env w1 in
  (exists row, knowledge_content w1 !! url r = Some row
               /\ row_content_hash row = Some (sha (content r)))
  /\ knowledge_content w2 = knowledge_content w1
  /\ List.filter is_content_write (events_since w1 w2) = [].
Proof.
  intros Hff Hsrc w1 w2.
  destruct (saved_stores sha r docSlug env w source_id Hff Hsrc) as [Hst _].
  fold w1 in Hst. split.
  - by apply same_hash_spec.
  - apply saved_idle; [done | by right].
Qed.

Lemma saved_page_is_found_again_witness :
  let w1 := saved Sample.digest Sample.state_result "react" Sample.env
                  Sample.world in
  let w2 := saved Sample.digest Sample.state_result "react" Sample.env w1 in
  (exists row, knowledge_content w1 !! url Sample.state_result = Some row
               /\ row_content_hash row
                  = Some (Sample.digest (content Sample.state_result)))
  /\ knowledge_content w2 = knowledge_content w1
  /\ List.filter is_content_write (events_since w1 w2) = [].
Proof.
  apply (saved_page_is_found_again Sample.digest Sample.state_result "react"
           Sample.env Sample.world "source-1");
    [intros n; reflexivity | reflexivity].
Defined.

(** X21.  A save logs "Error saving content" exactly when one of its
    store calls threw, and in that case it has written nothing: the
    content table is as it was before the save. *)
Theorem failed_save_writes_nothing sha r docSlug env w :
  let w' := saved sha r docSlug env w in
  let evs := events_since w w' in
  (existsb store_call_threw evs = true
   <-> last evs = Some (EvConsoleError "Error saving content"))
  /\ (existsb store_call_threw evs = true ->
      knowledge_content w' = knowledge_content w).
Proof.
  cbv zeta.
  assert (H : exists evs,
             log (saved sha r docSlug env w) = log w ++ evs
             /\ (existsb store_call_threw evs = true
                 <-> last evs = Some (EvConsoleError "Error saving content"))
             /\ (existsb store_call_threw evs = true ->
                 knowledge_content (saved sha r docSlug env w)
                 = knowledge_content w)).
  { unfold saved, saveContent, try_catch, bind, store_call, get_world, emit,
      ret, same_hash, no_source, id_or_null.
    destruct w as [js kc ks sid rq ops clk lg]. simpl.
    repeat (case_match; simpl in *; simplify_eq);
      rewrite <- ?app_assoc; simpl;
      (eexists; split; [reflexivity |]);
      (split; [split; intros ?; simplify_eq; reflexivity
              | intros ?; simplify_eq; reflexivity]). }
  destruct H as (evs & Hlog & H1 & H2).
  by rewrite (events_since_app _ _ _ Hlog).
Qed.

(* ===================================================================== *)
(** ** The characters of a keyword *)
(* ===================================================================== *)

Lemma all_chars_rev_app p s : forall t,
  all_chars p (String.rev_app s t) = (all_chars p s && all_chars p t)%bool.
Proof.
  induction s as [| a s IH]; intros t; [done |].
  change (String.rev_app (String a s) t) with (String.rev_app s (String a t)).
  rewrite IH. simpl. destruct (p a), (all_chars p s); simpl; auto.
Qed.

Lemma all_chars_rev p s : all_chars p (String.rev s) = all_chars p s.
Proof. unfold String.rev. rewrite all_chars_rev_app. simpl. apply andb_true_r. Qed.

(** The pieces between the separators are made of characters of the
    text that are not separators. *)
Lemma split_run_chars (sep p : ascii -> bool) s : forall cur in_run,
  all_chars (fun c => (sep c || p c)%bool) s = true ->
  all_chars p cur = true ->
  Forall (fun piece => all_chars p piece = true) (Js.split_run sep s cur in_run).
Proof.
  induction s as [| c s IH]; intros cur in_run Hs Hcur; cbn [Js.split_run].
  - repeat constructor. by rewrite all_chars_rev.
  - simpl in Hs. apply andb_true_iff in Hs as [Hc Hs].
    destruct (sep c) eqn:Hsep.
    + destruct in_run.
      * by apply IH.
      * constructor; [by rewrite all_chars_rev | by apply IH].
    + apply IH; [done |]. simpl. by rewrite Hcur, andb_true_r.
Qed.

Lemma lower_char_not_capital c : Js.between 65 90 (Js.lower_char c) = false.
Proof. destruct c as [[] [] [] [] [] [] [] []]; reflexivity. Qed.

Lemma toLowerCase_chars s :
  all_chars (fun c => (Js.is_nonword c || is_lower_word c)%bool)
            (Js.toLowerCase s) = true.
Proof.
  induction s as [| c s IH]; [done |]. simpl. rewrite IH, andb_true_r.
  unfold is_lower_word, Js.is_nonword. rewrite lower_char_not_capital.
  by destruct (Js.is_word (Js.lower_char c)).
Qed.

(** X22.  Every keyword is written in small letters, digits and
    underscores only: it has no capital letter, no white space and no
    punctuation. *)
Theorem keywords_are_lower_case_words content :
  Forall (fun k => all_chars is_lower_word k = true)
         (Extract.extractKeywords content).
Proof.
  destruct (keyword_table content) as (Hks & _ & _ & Hkeys & _).
  rewrite Hks. apply Forall_forall. intros k Hk.
  assert (Hin : k ∈ keyword_tokens content).
  { apply Hkeys. apply elem_of_map in Hk as (e & -> & He).
    apply elem_of_map. exists e. split; [done |].
    eapply elem_of_sublist; [exact He | apply sublist_take]. }
  unfold keyword_tokens in Hin. apply list_elem_of_In, filter_In in Hin.
  destruct Hin as [Hin _]. apply list_elem_of_In in Hin.
  pose proof (split_run_chars Js.is_nonword is_lower_word
                (Js.toLowerCase content) EmptyString false
                (toLowerCase_chars content) eq_refl) as Hall.
  rewrite Forall_forall in Hall. by apply Hall.
Qed.

(* ===================================================================== *)
(** ** White space around the texts of a record *)
(* ===================================================================== *)

Lemma trimEnd_last s c :
  last_char (Js.trimEnd s) = Some c -> Js.is_space c = false.
Proof.
  induction s as [| a s IH]; [done |]. cbn [Js.trimEnd].
  destruct (Js.trimEnd s) as [| b t] eqn:Hs.
  - destruct (Js.is_space a) eqn:Ha; [done |]. simpl. by intros [= <-].
  - intros H. apply IH. exact H.
Qed.

Lemma trim_trimmed s : trimmed (Js.trim s).
Proof.
  split.
  - intros c Hc. destruct (Js.trim s) as [| a t] eqn:Hs; [done |].
    injection Hc as ->. by eapply trim_head.
  - intros c. apply trimEnd_last.
Qed.

(** X23.  The body, the markdown and the code of every snippet of a
    record built from a fetched page neither begin nor end with white
    space. *)
Theorem texts_are_trimmed doc docSlug entry :
  let r := Extract.extract doc docSlug entry in
  trimmed (content r)
  /\ (forall m, markdown r = Some m -> trimmed m)
  /\ Forall (fun snippet => trimmed (code snippet)) (codeSnippets r).
Proof.
  cbv zeta. split_and!.
  - apply trim_trimmed.
  - intros m [= <-]. apply trim_trimmed.
  - simpl. unfold Extract.snippets_of.
    induction (Dom.select _ doc) as [| el l IH]; [constructor |].
    cbn [omap list_omap].
    destruct (Js.truthy (Js.trim (Dom.textContent el))); [| exact IH].
    constructor; [apply trim_trimmed | exact IH].
Qed.

(* ===================================================================== *)
(** ** Keywords that are equally frequent *)
(* ===================================================================== *)

Lemma comes_before_cons {A} (z x y : A) l :
  comes_before x y l -> comes_before x y (z :: l).
Proof. intros (l1 & l2 & l3 & ->). by exists (z :: l1), l2, l3. Qed.

Lemma comes_before_head {A} (x y : A) l :
  y ∈ l -> comes_before x y (x :: l).
Proof.
  intros (l2 & l3 & ->)%list_elem_of_split. by exists [], l2, l3.
Qed.

Lemma comes_before_inv {A} (z x y : A) l :
  comes_before x y (z :: l) -> (x = z /\ y ∈ l) \/ comes_before x y l.
Proof.
  intros (l1 & l2 & l3 & H). destruct l1 as [| a l1]; simpl in H.
  - injection H as <- ->. left. split; [done |].
    apply elem_of_app. right. by left.
  - injection H as <- ->. right. by exists l1, l2, l3.
Qed.

Lemma comes_before_map {A B} (f : A -> B) x y l :
  comes_before x y l -> comes_before (f x) (f y) (map f l).
Proof.
  intros (l1 & l2 & l3 & ->). exists (map f l1), (map f l2), (map f l3).
  by rewrite map_app, (map_cons f x), map_app.
Qed.

Lemma comes_before_map_inv {A B} (f : A -> B) k1 k2 l :
  comes_before k1 k2 (map f l) ->
  exists e1 e2, f e1 = k1 /\ f e2 = k2 /\ comes_before e1 e2 l.
Proof.
  intros (l1 & l2 & l3 & H).
  apply List.map_eq_app in H as (m1 & m' & -> & H1 & H).
  apply List.map_eq_cons in H as (e1 & m'' & -> & He1 & H).
  apply List.map_eq_app in H as (m2 & m''' & -> & H2 & H).
  apply List.map_eq_cons in H as (e2 & m3 & -> & He2 & H3).
  exists e1, e2. split; [done |]. split; [done |]. by exists m1, m2, m3.
Qed.

Lemma comes_before_take {A} (x y : A) l n :
  NoDup l -> comes_before x y l -> y ∈ take n l ->
  comes_before x y (take n l).
Proof.
  intros Hnd (l1 & l2 & l3 & ->) Hy.
  rewrite (app_comm_cons l2), app_assoc in Hy, Hnd.
  destruct (decide (n <= length (l1 ++ x :: l2))%nat) as [Hle | Hgt].
  - exfalso. rewrite take_app_le in Hy by done.
    apply NoDup_app in Hnd as (_ & Hdisj & _).
    apply (Hdisj y); [| by left].
    eapply elem_of_sublist; [exact Hy | apply sublist_take].
  - rewrite (app_comm_cons l2), app_assoc.
    rewrite take_app_ge by lia.
    destruct (n - length (l1 ++ x :: l2))%nat as [| m] eqn:Hm; [lia |].
    cbn [take]. exists l1, l2, (take m l3). by rewrite <- app_assoc.
Qed.

(** Inserting an entry keeps the order of the others, and puts the new
    entry before every entry it may stand before. *)
Lemma insert_by_keeps {A} (before : A -> A -> bool) z x y l :
  comes_before x y l -> comes_before x y (Extract.insert_by before z l).
Proof.
  induction l as [| h t IH]; intros H.
  - destruct H as (l1 & l2 & l3 & H). by destruct l1.
  - cbn [Extract.insert_by]. destruct (before z h).
    + by apply comes_before_cons.
    + apply comes_before_inv in H as [[-> Hy] | H].
      * apply comes_before_head. rewrite insert_by_perm. by right.
      * apply comes_before_cons. by apply IH.
Qed.

Lemma insert_by_front {A} (before : A -> A -> bool) z y l :
  y ∈ l -> before z y = true ->
  comes_before z y (Extract.insert_by before z l).
Proof.
  induction l as [| h t IH]; intros Hy Hzy; [by inversion Hy |].
  cbn [Extract.insert_by]. destruct (before z h) eqn:Hzh.
  - by apply comes_before_head.
  - apply comes_before_cons. apply IH; [| done].
    apply elem_of_cons in Hy as [-> | Hy]; [congruence | done].
Qed.

(** The sort never moves an entry behind one it stood before and may
    stand before. *)
Lemma stable_sort_keeps {A} (before : A -> A -> bool) x y l :
  comes_before x y l -> before x y = true ->
  comes_before x y (Extract.stable_sort before l).
Proof.
  induction l as [| z l IH]; intros H Hxy.
  - destruct H as (l1 & l2 & l3 & H). by destruct l1.
  - cbn [Extract.stable_sort fold_right].
    fold (Extract.stable_sort before l).
    apply comes_before_inv in H as [[-> Hy] | H].
    + apply insert_by_front; [| done]. by rewrite stable_sort_perm.
    + apply insert_by_keeps. by apply IH.
Qed.

(** Counting more words only adds keys at the end of the table. *)
Lemma keys_fold words : forall freq,
  exists more,
    map fst (fold_left (fun fr w => Extract.bump w fr) words freq)
    = map fst freq ++ more.
Proof.
  induction words as [| x words IH]; intros freq; simpl.
  - exists []. by rewrite app_nil_r.
  - destruct (IH (Extract.bump x freq)) as (more & ->).
    rewrite keys_bump. destruct (decide (x ∈ map fst freq)).
    + by exists more.
    + exists (x :: more). by rewrite <- app_assoc.
Qed.

(** The keys of the table stand in the order in which the words first
    occur. *)
Lemma count_words_order front k1 back k2 :
  k1 <> k2 -> k2 ∉ front -> k2 ∈ back ->
  comes_before k1 k2 (map fst (Extract.count_words (front ++ k1 :: back))).
Proof.
  intros Hne Hfront Hback. unfold Extract.count_words.
  replace (front ++ k1 :: back) with ((front ++ [k1]) ++ back)
    by (by rewrite <- app_assoc).
  rewrite fold_left_app.
  set (f2 := fold_left _ (front ++ [k1]) []).
  destruct (count_words_from (front ++ [k1]) [] (NoDup_nil_2))
    as (Hnd & Hkeys & _). fold f2 in Hnd, Hkeys.
  destruct (count_words_from back f2 Hnd) as (_ & Hkeys' & _).
  destruct (keys_fold back f2) as (more & Hmore).
  rewrite Hmore in Hkeys' |- *.
  assert (H1 : k1 ∈ map fst f2).
  { apply Hkeys. right. apply elem_of_app. right. by left. }
  assert (H2 : k2 ∉ map fst f2).
  { rewrite Hkeys. intros [H | H]; [by inversion H |].
    apply elem_of_app in H as [H | H]; [done |].
    apply list_elem_of_singleton in H. congruence. }
  assert (H3 : k2 ∈ more).
  { assert (H : k2 ∈ map fst f2 ++ more) by (apply Hkeys'; by right).
    apply elem_of_app in H as [H | H]; done. }
  apply list_elem_of_split in H1 as (a & b & ->).
  apply list_elem_of_split in H3 as (c & d & ->).
  exists a, (b ++ c), d. by rewrite <- !app_assoc.
Qed.

(** Without keys that are array indices [Object.entries] lists the table
    as it is. *)
Lemma entries_plain freq :
  Forall (fun e => Js.array_index (fst e) = None) freq ->
  Extract.entries freq = freq.
Proof.
  intros H. unfold Extract.entries, Extract.index_entries.
  rewrite omap_none.
  2:{ eapply Forall_impl; [exact H |]. intros e He. by rewrite He. }
  simpl. induction H as [| e l He _ IH]; [done |].
  rewrite filter_cons, decide_True by done. by rewrite IH.
Qed.

Lemma same_key_same_entry {A B} (l : list (A * B)) e e' :
  NoDup (map fst l) -> e ∈ l -> e' ∈ l -> fst e = fst e' -> e = e'.
Proof.
  induction l as [| h t IH]; intros Hnd He He' Hk; [by inversion He |].
  simpl in Hnd. apply NoDup_cons in Hnd as [Hh Hnd].
  assert (Hin : forall x, x ∈ t -> fst x ∈ map fst t).
  { intros x Hx. apply elem_of_map. by exists x. }
  apply elem_of_cons in He as [-> | He];
    apply elem_of_cons in He' as [-> | He'].
  - done.
  - exfalso. apply Hh. rewrite Hk. by apply Hin.
  - exfalso. apply Hh. rewrite <- Hk. by apply Hin.
  - by apply IH.
Qed.



(* ===================================================================== *)
(** ** What a run leaves in the content table *)
(* ===================================================================== *)


